(** * codemirror-blocks: the block/text synchronisation engine

    A shallow embedding of the [CodeMirrorBlocks] class (the second document
    of src/ui/Toolbar.js): mode switching, decoration marks, navigation,
    in-place literal editing, quarantined insertion and drag-and-drop
    relocation, together with the part of the CodeMirror text buffer and of
    the DOM that the class drives.

    The class is imperative JavaScript.  It is embedded as a state-and-
    exception monad over one [State] record: the editor buffer, the DOM
    elements (a store, because elements are shared and mutated in place),
    the event objects, the pending [setTimeout] callbacks and a trace of
    the externally visible calls.

    The file has two parts.  The first holds the definitions: the buffer,
    the values, the state and its monad, the methods of the class in the
    order of the source, the vocabulary of the statements, and a small
    instance (a parser of blank-separated words) for the examples.  The
    second holds the proofs: facts about the buffer, frame rules for the
    monad, and then the properties of the class, feature by feature. *)

From Stdlib Require Import Ascii String.
From Stdlib Require Import List.
From stdpp Require Import base option list strings gmap.

Local Open Scope string_scope.
Local Open Scope list_scope.
Local Open Scope nat_scope.

(** * Definitions *)

(** ** Text and positions *)

(** Buffer text is a sequence of characters; class names, element ids and
    option keys stay [string]s. *)
Definition Text := list ascii.

Definition txt (s : string) : Text := list_ascii_of_string s.

Definition newline : ascii := "010"%char.

Definition is_newline (c : ascii) : bool := bool_decide (c = newline).

(** A CodeMirror position [{line, ch}], zero based. *)
Record Pos := mkPos { line : nat; ch : nat }.

Global Instance Pos_eq_dec : EqDecision Pos.
Proof. solve_decision. Defined.

(** ** The text buffer

    Modelled from the spec: the text buffer is the external CodeMirror
    document ("range-addressed read/replace").  Its positions are clipped
    into the document before use, [indexFromPos] counts the characters that
    precede a position (one per line separator), and [replaceRange] splices
    the text between the two clipped positions, swapping them when they come
    in the wrong order. *)
Module Buffer.

(** [indexFromPos doc {line, ch}]: walk the text; a line that is too short
    clips [ch] to its end, a line beyond the last one clips to the end of
    the document. *)
Fixpoint indexFrom (doc : Text) (l c : nat) : nat :=
  match doc with
  | [] => 0
  | x :: rest =>
      if is_newline x then
        match l with
        | 0 => 0
        | S l' => S (indexFrom rest l' c)
        end
      else
        match l, c with
        | 0, 0 => 0
        | 0, S c' => S (indexFrom rest 0 c')
        | S _, _ => S (indexFrom rest l c)
        end
  end.

Definition indexFromPos (doc : Text) (p : Pos) : nat :=
  indexFrom doc (line p) (ch p).

(** A position that names a place of the document as it is: its line
    exists and its column is within that line (clipping leaves it alone). *)
Fixpoint validAt (doc : Text) (l c : nat) : bool :=
  match doc with
  | [] => bool_decide (l = 0) && bool_decide (c = 0)
  | x :: rest =>
      if is_newline x then
        match l with
        | 0 => bool_decide (c = 0)
        | S l' => validAt rest l' c
        end
      else
        match l, c with
        | 0, 0 => true
        | 0, S c' => validAt rest 0 c'
        | S _, _ => validAt rest l c
        end
  end.

Definition validPos (doc : Text) (p : Pos) : bool :=
  validAt doc (line p) (ch p).

(** The splice between two character offsets. *)
Definition splice (doc : Text) (i j : nat) (t : Text) : Text :=
  take i doc ++ t ++ drop j doc.

(** [doc.replaceRange(text, from, to)]; [to] omitted means [from]. *)
Definition replaceRange (doc : Text) (t : Text) (from : Pos) (to : option Pos)
  : Text :=
  let i := indexFromPos doc from in
  let j := match to with Some p => indexFromPos doc p | None => i end in
  if decide (j < i) then splice doc j i t else splice doc i j t.

(** [doc.getRange(from, to)] with the default line separator: the text
    between the two clipped positions, empty when they come in the wrong
    order. *)
Definition getRange (doc : Text) (from to : Pos) : Text :=
  drop (indexFromPos doc from) (take (indexFromPos doc to) doc).

(** Two edits of non-overlapping ranges taken against the original
    offsets at once: [i1, j1) becomes [t1], [i2, j2) becomes [t2], with
    [j1 <= i2].  This definition follows the words of the specification
    ("computing both replacements against the original offsets
    simultaneously"). *)
Definition simultaneous (doc : Text) (i1 j1 : nat) (t1 : Text)
    (i2 j2 : nat) (t2 : Text) : Text :=
  take i1 doc ++ t1 ++ drop j1 (take i2 doc) ++ t2 ++ drop j2 doc.

End Buffer.

(** ** Values of the program *)

(** DOM elements and event objects are shared and mutated in place: they
    live in stores and are passed around by reference. *)
Definition ElId := nat.
Definition EvId := nat.

(** [document.body]. *)
Definition document_body : ElId := 0.

Inductive Exn :=
  | TypeError (msg : string)     (* a property read on null or undefined *)
  | Error (msg : string)         (* [new Error(msg)] *)
  | ParserError (msg : string)   (* whatever the parser throws *)
  | DOMException (name : string). (* thrown by the DOM, by its name *)

Global Instance Exn_eq_dec : EqDecision Exn.
Proof. solve_decision. Defined.

(** A node of the parsed tree, with the fields this class reads:
    [id], [type], [from], [to], the bound element [el] and the bookmark
    stored by [insertionQuarantine]. *)
Record Node := mkNode {
  node_id : string;
  node_type : string;
  node_from : Pos;
  node_to : Pos;
  node_el : ElId;
  node_quarantine : option nat;
}.

Global Instance Node_eq_dec : EqDecision Node.
Proof. solve_decision. Defined.

(** What [getNodeAfter] and [getNodeBefore] start from: the selected
    node, or the cursor position. *)
Inductive NodeOrCursor :=
  | AtNode (n : Node)
  | AtCursor (p : Pos).

(** The tree object the parser returns: its root nodes, the map from ids
    to nodes, and its two navigation methods. *)
Record AST := mkAST {
  rootNodes : list Node;
  nodeMap : gmap string Node;
  getNodeAfter : NodeOrCursor → option Node;
  getNodeBefore : NodeOrCursor → option Node;
}.

(** The closures the class installs as [onblur] / [onkeydown]. *)
Inductive Closure :=
  | CSaveEdit (node : Node) (nodeEl : ElId)
  | CSaveWhiteSpace (whiteSpaceEl : ElId)
  | CHandleEditKeyDown (self : ElId).

(** The callbacks handed to [setTimeout]. *)
Inductive Timer :=
  | TEditLiteral (node : Node) (ev : EvId).

Record Element := mkElement {
  el_id : string;                (* the id attribute *)
  el_classList : list string;
  el_parents : list ElId;        (* parentNode, its parentNode, ... *)
  el_line : option nat;          (* the 'line' attribute, when present *)
  el_ch : option nat;            (* the 'ch' attribute, when present *)
  el_innerText : Text;
  el_title : string;
  el_cssText : string;
  el_contentEditable : bool;
  el_oldText : option Text;
  el_onblur : option Closure;
  el_onkeydown : option Closure;
}.

Record Event := mkEvent {
  ev_type : string;
  ev_target : ElId;
  ev_pageX : nat;
  ev_pageY : nat;
  ev_which : ascii;                      (* the typed character's code *)
  ev_clipboard : Text;                   (* clipboardData 'text/plain' *)
  ev_data : list (string * Text);        (* dataTransfer, by format *)
  ev_effectAllowed : string;
  ev_dragImage : option ElId;
  ev_defaultPrevented : bool;
  ev_propagationStopped : bool;
}.

(** The option object of [markText], as its keys are enumerated. *)
Definition Options := list (string * string).

Record Mark := mkMark {
  mark_key : nat;
  mark_from : Pos;
  mark_to : Pos;
  mark_replacedWith : option ElId;
  mark_options : Options;
  mark_MARKER : option Options;  (* the BlockMarker stored under MARKER *)
}.

(** [blockMode]: [false], or the class name of a block mode. *)
Inductive Mode :=
  | Off
  | Blocks (cls : string).

Global Instance Mode_eq_dec : EqDecision Mode.
Proof. solve_decision. Defined.

(** The calls that leave the engine, in the order they are made. *)
Inductive Call :=
  | ReplaceRange (text : Text) (from : Pos) (to : option Pos)
  | SetBookmark (mark : nat) (pos : Pos) (widget : ElId)
  | ClearMark (mark : nat)
  | CmMarkText (from to : Pos) (options : Options)
  | ConsoleError (msg : string)
  | Focus (el : ElId)
  | ScrollIntoView (pos : Pos)
  | SelectRange (el : ElId) (start : nat)
  | DidInsertNode (text : Text) (source : Node) (dest : Pos) (dn : option Node).

Global Instance Call_eq_dec : EqDecision Call.
Proof. solve_decision. Defined.

(** ** The state *)
Record State := mkState {
  cm_value : Text;               (* cm.getValue() *)
  cm_cursor : Pos;               (* cm.getCursor() *)
  cm_marks : list Mark;          (* cm.getAllMarks() *)
  cm_inOperation : bool;         (* inside cm.operation *)
  cm_pending : nat;              (* change notifications held back *)
  cm_wrapper : ElId;             (* cm.getWrapperElement() *)
  dom : gmap ElId Element;
  activeElement : ElId;          (* document.activeElement *)
  events : gmap EvId Event;
  ast : option AST;              (* this.ast, null at first *)
  blockMode : Mode;              (* this.blockMode *)
  hasInvalidEdit : bool;         (* this.hasInvalidEdit, undefined at first *)
  timers : list Timer;           (* setTimeout callbacks not yet run *)
  trace : list Call;
}.

Definition set_cm_value (v : Text) (s : State) : State :=
  mkState v (cm_cursor s) (cm_marks s) (cm_inOperation s) (cm_pending s)
    (cm_wrapper s) (dom s) (activeElement s) (events s) (ast s) (blockMode s)
    (hasInvalidEdit s) (timers s) (trace s).

Definition set_cm_marks (m : list Mark) (s : State) : State :=
  mkState (cm_value s) (cm_cursor s) m (cm_inOperation s) (cm_pending s)
    (cm_wrapper s) (dom s) (activeElement s) (events s) (ast s) (blockMode s)
    (hasInvalidEdit s) (timers s) (trace s).

Definition set_cm_inOperation (b : bool) (s : State) : State :=
  mkState (cm_value s) (cm_cursor s) (cm_marks s) b (cm_pending s)
    (cm_wrapper s) (dom s) (activeElement s) (events s) (ast s) (blockMode s)
    (hasInvalidEdit s) (timers s) (trace s).

Definition set_cm_pending (n : nat) (s : State) : State :=
  mkState (cm_value s) (cm_cursor s) (cm_marks s) (cm_inOperation s) n
    (cm_wrapper s) (dom s) (activeElement s) (events s) (ast s) (blockMode s)
    (hasInvalidEdit s) (timers s) (trace s).

Definition set_dom (d : gmap ElId Element) (s : State) : State :=
  mkState (cm_value s) (cm_cursor s) (cm_marks s) (cm_inOperation s)
    (cm_pending s) (cm_wrapper s) d (activeElement s) (events s) (ast s)
    (blockMode s) (hasInvalidEdit s) (timers s) (trace s).

Definition set_activeElement (e : ElId) (s : State) : State :=
  mkState (cm_value s) (cm_cursor s) (cm_marks s) (cm_inOperation s)
    (cm_pending s) (cm_wrapper s) (dom s) e (events s) (ast s)
    (blockMode s) (hasInvalidEdit s) (timers s) (trace s).

Definition set_events (e : gmap EvId Event) (s : State) : State :=
  mkState (cm_value s) (cm_cursor s) (cm_marks s) (cm_inOperation s)
    (cm_pending s) (cm_wrapper s) (dom s) (activeElement s) e (ast s)
    (blockMode s) (hasInvalidEdit s) (timers s) (trace s).

Definition set_ast (a : option AST) (s : State) : State :=
  mkState (cm_value s) (cm_cursor s) (cm_marks s) (cm_inOperation s)
    (cm_pending s) (cm_wrapper s) (dom s) (activeElement s) (events s) a
    (blockMode s) (hasInvalidEdit s) (timers s) (trace s).

Definition set_blockMode (m : Mode) (s : State) : State :=
  mkState (cm_value s) (cm_cursor s) (cm_marks s) (cm_inOperation s)
    (cm_pending s) (cm_wrapper s) (dom s) (activeElement s) (events s) (ast s)
    m (hasInvalidEdit s) (timers s) (trace s).

Definition set_hasInvalidEdit (b : bool) (s : State) : State :=
  mkState (cm_value s) (cm_cursor s) (cm_marks s) (cm_inOperation s)
    (cm_pending s) (cm_wrapper s) (dom s) (activeElement s) (events s) (ast s)
    (blockMode s) b (timers s) (trace s).

Definition set_timers (t : list Timer) (s : State) : State :=
  mkState (cm_value s) (cm_cursor s) (cm_marks s) (cm_inOperation s)
    (cm_pending s) (cm_wrapper s) (dom s) (activeElement s) (events s) (ast s)
    (blockMode s) (hasInvalidEdit s) t (trace s).

Definition set_trace (t : list Call) (s : State) : State :=
  mkState (cm_value s) (cm_cursor s) (cm_marks s) (cm_inOperation s)
    (cm_pending s) (cm_wrapper s) (dom s) (activeElement s) (events s) (ast s)
    (blockMode s) (hasInvalidEdit s) (timers s) t.

(** ** The monad: state, and exceptions that keep the state reached *)
Inductive Result (A : Type) :=
  | Ok (a : A) (s : State)
  | Throw (e : Exn) (s : State).
Arguments Ok {A} a s.
Arguments Throw {A} e s.

Definition M (A : Type) : Type := State → Result A.

Definition ret {A} (a : A) : M A := fun s => Ok a s.

Definition bind {A B} (m : M A) (k : A → M B) : M B :=
  fun s => match m s with
           | Ok a s' => k a s'
           | Throw e s' => Throw e s'
           end.

Definition throw {A} (e : Exn) : M A := fun s => Throw e s.

Definition get : M State := fun s => Ok s s.

Definition modify (f : State → State) : M unit := fun s => Ok tt (f s).

(** The state a computation ends in, returned or thrown. *)
Definition final {A} (r : Result A) : State :=
  match r with Ok _ s => s | Throw _ s => s end.

Notation "x <- m ;; k" := (bind m (fun x => k))
  (at level 100, m at next level, right associativity).
Notation "m ;; k" := (bind m (fun _ => k))
  (at level 100, right associativity).

Definition when (b : bool) (m : M unit) : M unit := if b then m else ret tt.

(** The buffer mutations among the calls made. *)
Definition is_mutation (c : Call) : bool :=
  match c with ReplaceRange _ _ _ => true | _ => false end.

Definition mutations (t : list Call) : list Call := List.filter is_mutation t.

(** ** Elements and events in their stores *)

Definition el_set_classList (l : list string) (e : Element) : Element :=
  mkElement (el_id e) l (el_parents e) (el_line e) (el_ch e) (el_innerText e)
    (el_title e) (el_cssText e) (el_contentEditable e) (el_oldText e)
    (el_onblur e) (el_onkeydown e).

Definition el_set_innerText (t : Text) (e : Element) : Element :=
  mkElement (el_id e) (el_classList e) (el_parents e) (el_line e) (el_ch e) t
    (el_title e) (el_cssText e) (el_contentEditable e) (el_oldText e)
    (el_onblur e) (el_onkeydown e).

Definition el_set_title (t : string) (e : Element) : Element :=
  mkElement (el_id e) (el_classList e) (el_parents e) (el_line e) (el_ch e)
    (el_innerText e) t (el_cssText e) (el_contentEditable e) (el_oldText e)
    (el_onblur e) (el_onkeydown e).

Definition el_set_cssText (t : string) (e : Element) : Element :=
  mkElement (el_id e) (el_classList e) (el_parents e) (el_line e) (el_ch e)
    (el_innerText e) (el_title e) t (el_contentEditable e) (el_oldText e)
    (el_onblur e) (el_onkeydown e).

Definition el_set_contentEditable (b : bool) (e : Element) : Element :=
  mkElement (el_id e) (el_classList e) (el_parents e) (el_line e) (el_ch e)
    (el_innerText e) (el_title e) (el_cssText e) b (el_oldText e)
    (el_onblur e) (el_onkeydown e).

Definition el_set_oldText (t : option Text) (e : Element) : Element :=
  mkElement (el_id e) (el_classList e) (el_parents e) (el_line e) (el_ch e)
    (el_innerText e) (el_title e) (el_cssText e) (el_contentEditable e) t
    (el_onblur e) (el_onkeydown e).

Definition el_set_onblur (c : option Closure) (e : Element) : Element :=
  mkElement (el_id e) (el_classList e) (el_parents e) (el_line e) (el_ch e)
    (el_innerText e) (el_title e) (el_cssText e) (el_contentEditable e)
    (el_oldText e) c (el_onkeydown e).

Definition el_set_onkeydown (c : option Closure) (e : Element) : Element :=
  mkElement (el_id e) (el_classList e) (el_parents e) (el_line e) (el_ch e)
    (el_innerText e) (el_title e) (el_cssText e) (el_contentEditable e)
    (el_oldText e) (el_onblur e) c.

Definition ev_set_data (d : list (string * Text)) (e : Event) : Event :=
  mkEvent (ev_type e) (ev_target e) (ev_pageX e) (ev_pageY e) (ev_which e)
    (ev_clipboard e) d (ev_effectAllowed e) (ev_dragImage e)
    (ev_defaultPrevented e) (ev_propagationStopped e).

Definition ev_set_effectAllowed (a : string) (e : Event) : Event :=
  mkEvent (ev_type e) (ev_target e) (ev_pageX e) (ev_pageY e) (ev_which e)
    (ev_clipboard e) (ev_data e) a (ev_dragImage e)
    (ev_defaultPrevented e) (ev_propagationStopped e).

Definition ev_set_dragImage (i : option ElId) (e : Event) : Event :=
  mkEvent (ev_type e) (ev_target e) (ev_pageX e) (ev_pageY e) (ev_which e)
    (ev_clipboard e) (ev_data e) (ev_effectAllowed e) i
    (ev_defaultPrevented e) (ev_propagationStopped e).

Definition ev_set_defaultPrevented (b : bool) (e : Event) : Event :=
  mkEvent (ev_type e) (ev_target e) (ev_pageX e) (ev_pageY e) (ev_which e)
    (ev_clipboard e) (ev_data e) (ev_effectAllowed e) (ev_dragImage e)
    b (ev_propagationStopped e).

Definition ev_set_propagationStopped (b : bool) (e : Event) : Event :=
  mkEvent (ev_type e) (ev_target e) (ev_pageX e) (ev_pageY e) (ev_which e)
    (ev_clipboard e) (ev_data e) (ev_effectAllowed e) (ev_dragImage e)
    (ev_defaultPrevented e) b.

(** *** classList *)
Module ClassList.
Definition contains (c : string) (l : list string) : bool :=
  bool_decide (c ∈ l).
Definition add (c : string) (l : list string) : list string :=
  if contains c l then l else l ++ [c].
Definition remove (c : string) (l : list string) : list string :=
  List.filter (fun x => negb (bool_decide (x = c))) l.
End ClassList.

(** Reading a property of an element that is not there is a TypeError. *)
Definition getEl (el : ElId) : M Element :=
  fun s => match dom s !! el with
           | Some e => Ok e s
           | None => Throw (TypeError "element is undefined") s
           end.

Definition updEl (el : ElId) (f : Element → Element) : M unit :=
  e <- getEl el ;;
  modify (fun s => set_dom (<[el := f e]> (dom s)) s).

Definition classList_add (el : ElId) (c : string) : M unit :=
  updEl el (fun e => el_set_classList (ClassList.add c (el_classList e)) e).

Definition classList_remove (el : ElId) (c : string) : M unit :=
  updEl el (fun e => el_set_classList (ClassList.remove c (el_classList e)) e).

Definition classList_contains (el : ElId) (c : string) : M bool :=
  e <- getEl el ;; ret (ClassList.contains c (el_classList e)).

(** [classList_add] and [classList_remove] above are the calls whose token
    is a literal of the source, none of which is empty or holds white
    space.  A token computed at run time is validated first, as the DOM
    does: the empty string is a SyntaxError, a token with ASCII white
    space an InvalidCharacterError. *)
Definition is_token_space (c : ascii) : bool :=
  bool_decide (c ∈ [" "; "009"; "010"; "012"; "013"]%char).

Definition token_error (c : string) : option Exn :=
  if bool_decide (c = "") then Some (DOMException "SyntaxError")
  else if existsb is_token_space (list_ascii_of_string c)
       then Some (DOMException "InvalidCharacterError")
       else None.

Definition checkToken (c : string) : M unit :=
  match token_error c with
  | Some e => throw e
  | None => ret tt
  end.

Definition DOMTokenList_add (el : ElId) (c : string) : M unit :=
  getEl el ;; checkToken c ;; classList_add el c.

Definition DOMTokenList_remove (el : ElId) (c : string) : M unit :=
  getEl el ;; checkToken c ;; classList_remove el c.

(** The tokens of a class string, as [className] is read back through
    [classList]: its maximal runs without white space.  ([cur] holds the
    run being read, last character first.) *)
Fixpoint split_tokens (cs cur : list ascii) : list string :=
  match cs with
  | [] =>
      match cur with
      | [] => []
      | _ :: _ => [string_of_list_ascii (rev cur)]
      end
  | c :: rest =>
      if is_token_space c then
        match cur with
        | [] => split_tokens rest []
        | _ :: _ => string_of_list_ascii (rev cur) :: split_tokens rest []
        end
      else split_tokens rest (c :: cur)
  end.

Definition tokens (c : string) : list string :=
  split_tokens (list_ascii_of_string c) [].

Definition getEvent (ev : EvId) : M Event :=
  fun s => match events s !! ev with
           | Some e => Ok e s
           | None => Throw (TypeError "event is undefined") s
           end.

Definition updEvent (ev : EvId) (f : Event → Event) : M unit :=
  e <- getEvent ev ;;
  modify (fun s => set_events (<[ev := f e]> (events s)) s).

Definition preventDefault (ev : EvId) : M unit :=
  updEvent ev (ev_set_defaultPrevented true).

Definition stopPropagation (ev : EvId) : M unit :=
  updEvent ev (ev_set_propagationStopped true).

(** [dataTransfer.getData(format)]: the empty string when absent. *)
Fixpoint getData (d : list (string * Text)) (format : string) : Text :=
  match d with
  | [] => []
  | (k, v) :: rest => if bool_decide (k = format) then v else getData rest format
  end.

(** [dataTransfer.setData(format, data)]. *)
Fixpoint setData (d : list (string * Text)) (format : string) (v : Text)
  : list (string * Text) :=
  match d with
  | [] => [(format, v)]
  | (k, w) :: rest =>
      if bool_decide (k = format) then (k, v) :: rest
      else (k, w) :: setData rest format v
  end.

Definition log (c : Call) : M unit :=
  modify (fun s => set_trace (trace s ++ [c]) s).

Definition console_error (msg : string) : M unit := log (ConsoleError msg).

Definition setTimeout (t : Timer) : M unit :=
  modify (fun s => set_timers (timers s ++ [t]) s).

Fixpoint forEach {A} (l : list A) (f : A → M unit) : M unit :=
  match l with
  | [] => ret tt
  | x :: rest => f x ;; forEach rest f
  end.

(** ** Module-level helpers of the source *)

(** [getLocationFromEl]: the [line] and [ch] attributes, which the
    renderer writes as decimal numerals, or null when one is missing. *)
Definition getLocationFromEl (el : ElId) : M (option Pos) :=
  e <- getEl el ;;
  match el_line e, el_ch e with
  | Some l, Some c => ret (Some (mkPos l c))
  | _, _ => ret None
  end.

(** [findNearestNodeEl]: climb the parent chain until [document.body] or an
    element of class [blocks-node]; a chain that ends before the body makes
    [el] null, and the next test reads [classList] of null. *)
Fixpoint climb (d : gmap ElId Element) (el : ElId) (parents : list ElId)
  : Exn + option ElId :=
  if bool_decide (el = document_body) then inr None
  else match d !! el with
       | None => inl (TypeError "element is undefined")
       | Some e =>
           if ClassList.contains "blocks-node" (el_classList e) then inr (Some el)
           else match parents with
                | [] => inl (TypeError "el is null")
                | p :: ps => climb d p ps
                end
       end.

Definition findNearestNodeEl (el : ElId) : M (option ElId) :=
  fun s =>
    let parents := match dom s !! el with
                   | Some e => el_parents e
                   | None => []
                   end in
    match climb (dom s) el parents with
    | inl e => Throw e s
    | inr r => Ok r s
    end.

(** The capture group of the regular expression that [findNodeFromEl]
    matches the element id against: what follows the first occurrence of
    "block-node-", up to the end of the line. *)
Fixpoint upto_eol (s : string) : string :=
  match s with
  | EmptyString => EmptyString
  | String c rest =>
      if bool_decide (c = "010"%char) || bool_decide (c = "013"%char)
      then EmptyString
      else String c (upto_eol rest)
  end.

Definition match_block_node (s : string) : option string :=
  match String.index 0 "block-node-" s with
  | Some i =>
      Some (upto_eol (String.substring (i + 11) (String.length s - (i + 11)) s))
  | None => None
  end.

(** ** The external collaborators

    The parser, the renderer, the pointer-to-position lookup of the editor
    and the client hooks are given to the class from outside.  [parse]
    returns a tree for every text (the re-render pipeline relies on a
    best-effort tree), [lex] may throw, and so may the extraction of the
    message of what it threw.  The renderer acts on the DOM and on the
    marks only.  The pre-insertion hook rewrites the text; the
    post-insertion hook is client bookkeeping, recorded in the trace. *)
Definition View : Type := gmap ElId Element * list Mark.

Record Env := mkEnv {
  parser_parse : Text → AST;
  parser_lex : Text → option Exn;                 (* [Some e]: throws [e] *)
  parser_getExceptionMessage : Exn → Exn + string;
  render_node : Node → View → View;               (* render(node, cm, options) *)
  Clones : Type;
  prepareTransition : option AST → View → Clones * View;
  renderTransition : Clones → option AST → View → View;
  coordsChar : nat → nat → Pos * bool;            (* position, outside *)
  willInsertNode : option (Text → Node → Pos → option Node → Text);
  didInsertNode : bool;                           (* a hook is registered *)
}.

(** *** The navigation order of the tree *)

Definition pos_le (a b : Pos) : bool :=
  (line a <? line b) || (bool_decide (line a = line b) && (ch a <=? ch b)).

Fixpoint successor (l : list Node) (n : Node) : option Node :=
  match l with
  | [] => None
  | x :: rest => if decide (x = n) then head rest else successor rest n
  end.

(** Modelled from the spec: [getNodeAfter] and [getNodeBefore] are methods
    of the tree class, which is not among the sources.  The specification
    has them walk the inorder successor and predecessor relation from a
    node or from the raw cursor position, and defines the step after the
    last node as returning none.  [nodes] lists the tree in inorder. *)
Definition inorderAfter (nodes : list Node) (x : NodeOrCursor) : option Node :=
  match x with
  | AtNode n => successor nodes n
  | AtCursor p => List.find (fun n => pos_le p (node_from n)) nodes
  end.

Definition inorderBefore (nodes : list Node) (x : NodeOrCursor) : option Node :=
  match x with
  | AtNode n => successor (rev nodes) n
  | AtCursor p => List.find (fun n => pos_le (node_to n) p) (rev nodes)
  end.

(** ** The class CodeMirrorBlocks *)
Section CodeMirrorBlocks.
Context (env : Env).

(** *** The editor's own operations *)

Definition cm_indexFromPos (p : Pos) : M nat :=
  s <- get ;; ret (Buffer.indexFromPos (cm_value s) p).

Definition cm_getRange (from to : Pos) : M Text :=
  s <- get ;; ret (Buffer.getRange (cm_value s) from to).

Definition cm_lineCount (doc : Text) : nat :=
  S (List.length (List.filter is_newline doc)).

(** [cm.findMarks(from, to)]: the marks that overlap the range. *)
Definition cm_findMarks (s : State) (from to : Pos) : list Mark :=
  let idx := Buffer.indexFromPos (cm_value s) in
  List.filter
    (fun m => (idx (mark_from m) <? idx to) && (idx from <? idx (mark_to m)))
    (cm_marks s).

(** [marker.clear()]; clearing twice does nothing the second time. *)
Definition mark_clear (key : nat) : M unit :=
  s <- get ;;
  if existsb (fun m => bool_decide (mark_key m = key)) (cm_marks s) then
    modify (fun s =>
      set_cm_marks
        (List.filter (fun m => negb (bool_decide (mark_key m = key)))
                     (cm_marks s)) s) ;;
    log (ClearMark key)
  else ret tt.

Definition fresh_mark (marks : list Mark) : nat :=
  S (foldr Nat.max 0 (map mark_key marks)).

(** [cm.setBookmark(pos, {widget})]. *)
Definition cm_setBookmark (pos : Pos) (widget : ElId) : M nat :=
  s <- get ;;
  let key := fresh_mark (cm_marks s) in
  modify (set_cm_marks (cm_marks s ++ [mkMark key pos pos (Some widget) [] None])) ;;
  log (SetBookmark key pos widget) ;;
  ret key.

(** *** _clearMarks, render, handleChange *)

Definition _clearMarks : M unit :=
  s <- get ;;
  let marks :=
    cm_findMarks s (mkPos 0 0) (mkPos (cm_lineCount (cm_value s)) 0) in
  forEach marks (fun mark => mark_clear (mark_key mark)).

Definition renderNode (node : Node) : M unit :=
  modify (fun s =>
    let v := render_node env node (dom s, cm_marks s) in
    set_dom (fst v) (set_cm_marks (snd v) s)).

Definition render : M unit :=
  s <- get ;;
  let tree := parser_parse env (cm_value s) in
  modify (set_ast (Some tree)) ;;
  _clearMarks ;;
  forEach (rootNodes tree) renderNode.

Definition handleChange : M unit :=
  s <- get ;;
  match blockMode s with
  | Blocks _ => render
  | Off => ret tt
  end.

(** [cm.replaceRange(text, from, to)]: the splice, then the change
    notification, held back while an operation is open. *)
Definition cm_replaceRange (text : Text) (from : Pos) (to : option Pos)
  : M unit :=
  modify (fun s =>
    set_cm_value (Buffer.replaceRange (cm_value s) text from to) s) ;;
  log (ReplaceRange text from to) ;;
  s <- get ;;
  if cm_inOperation s
  then modify (set_cm_pending (S (cm_pending s)))
  else handleChange.

Fixpoint repeatM (n : nat) (m : M unit) : M unit :=
  match n with
  | 0 => ret tt
  | S k => m ;; repeatM k m
  end.

Definition endOperation : M unit :=
  s <- get ;;
  modify (set_cm_inOperation false) ;;
  modify (set_cm_pending 0) ;;
  repeatM (cm_pending s) handleChange.

(** [cm.operation(f)]: run [f] with the notifications held back and
    deliver them when the outermost operation ends, also when [f]
    throws. *)
Definition cm_operation (f : M unit) : M unit :=
  fun s =>
    let outer := cm_inOperation s in
    match f (set_cm_inOperation true s) with
    | Ok a s' => if outer then Ok a s' else endOperation s'
    | Throw e s' =>
        if outer then Throw e s'
        else match endOperation s' with
             | Ok _ s'' => Throw e s''
             | Throw e' s'' => Throw e' s''
             end
    end.

(** *** setBlockMode *)

(** The token [classList.remove] and [classList.add] receive for a mode. *)
Definition mode_token (m : Mode) : string :=
  match m with
  | Off => "false"
  | Blocks cls => cls
  end.

(** What [!mode] and [this.blockMode] test: [false] and the empty string
    are falsy. *)
Definition truthy (m : Mode) : bool :=
  match m with
  | Off => false
  | Blocks cls => negb (bool_decide (cls = ""))
  end.

Definition setBlockMode (mode : Mode) : M unit :=
  s <- get ;;
  if decide (mode = blockMode s) then ret tt
  else
    (if negb (truthy mode) then
       forEach (cm_marks s) (fun marker => mark_clear (mark_key marker))
     else if truthy (blockMode s) then
       clones <- (fun s0 =>
         let r := prepareTransition env (ast s0) (dom s0, cm_marks s0) in
         Ok (fst r) (set_dom (fst (snd r)) (set_cm_marks (snd (snd r)) s0))) ;;
       DOMTokenList_remove (cm_wrapper s) (mode_token (blockMode s)) ;;
       DOMTokenList_add (cm_wrapper s) (mode_token mode) ;;
       render ;;
       modify (fun s1 =>
         let v := renderTransition env clones (ast s1) (dom s1, cm_marks s1) in
         set_dom (fst v) (set_cm_marks (snd v) s1))
     else
       DOMTokenList_remove (cm_wrapper s) (mode_token (blockMode s)) ;;
       DOMTokenList_add (cm_wrapper s) (mode_token mode) ;;
       render) ;;
    modify (set_blockMode mode).

(** *** markText *)

Definition supportedOptions : list string := ["css"; "className"; "title"].

Definition dquote : string := String "034"%char EmptyString.

(** The loop over the keys of [options]: the first unsupported one
    throws. *)
Fixpoint checkOptions (options : Options) : M unit :=
  match options with
  | [] => ret tt
  | (option, _) :: rest =>
      if bool_decide (option ∈ supportedOptions) then checkOptions rest
      else throw (Error ("option " +:+ dquote +:+ option +:+ dquote
                           +:+ " is not supported by markText"))
  end.

(** [options.key], when truthy. *)
Fixpoint option_value (options : Options) (key : string) : option string :=
  match options with
  | [] => None
  | (k, v) :: rest =>
      if bool_decide (k = key)
      then (if bool_decide (v = "") then None else Some v)
      else option_value rest key
  end.

Definition set_MARKER (key : nat) (o : option Options) (m : Mark) : Mark :=
  if bool_decide (mark_key m = key)
  then mkMark (mark_key m) (mark_from m) (mark_to m) (mark_replacedWith m)
         (mark_options m) o
  else m.

(** [cm.markText(from, to, options)].  Modelled from the spec: the editor
    is the external buffer, which the class only calls.  The call is
    recorded; the editor keeps a mark for it only when the range is not
    empty, [from] before [to] (none of the three options asks for a mark
    on an empty range). *)
Definition cm_markText (from to : Pos) (options : Options) : M unit :=
  s <- get ;;
  when (Buffer.indexFromPos (cm_value s) from
        <? Buffer.indexFromPos (cm_value s) to)
    (modify
       (set_cm_marks
          (cm_marks s
           ++ [mkMark (fresh_mark (cm_marks s)) from to None options None]))) ;;
  log (CmMarkText from to options).

(** The loop over the marks found: the first one that replaces the text
    with a blocks-node element is decorated and returned.  The class name
    is appended to the class string, so its tokens join the class list. *)
Fixpoint decorate (marks : list Mark) (from to : Pos) (options : Options)
  : M (option (nat * Options)) :=
  match marks with
  | [] =>
      cm_markText from to options ;;
      ret None
  | mark :: rest =>
      match mark_replacedWith mark with
      | None => decorate rest from to options
      | Some w =>
          isNode <- classList_contains w "blocks-node" ;;
          if isNode then
            match option_value options "css" with
            | Some css => updEl w (el_set_cssText css)
            | None => ret tt
            end ;;
            match option_value options "className" with
            | Some cls =>
                updEl w
                  (fun e => el_set_classList (el_classList e ++ tokens cls) e)
            | None => ret tt
            end ;;
            match option_value options "title" with
            | Some t => updEl w (el_set_title t)
            | None => ret tt
            end ;;
            modify (fun s =>
              set_cm_marks
                (map (set_MARKER (mark_key mark) (Some options)) (cm_marks s)) s) ;;
            ret (Some (mark_key mark, options))
          else decorate rest from to options
      end
  end.

Definition markText (from to : Pos) (options : Options)
  : M (option (nat * Options)) :=
  checkOptions options ;;
  match options with
  | [] => ret None
  | _ :: _ =>
      s <- get ;;
      decorate (cm_findMarks s from to) from to options
  end.

(** *** Nodes and elements *)

Definition getAst : M AST :=
  fun s => match ast s with
           | Some a => Ok a s
           | None => Throw (TypeError "this.ast is null") s
           end.

Definition findNodeFromEl (el : ElId) : M (option Node) :=
  nearest <- findNearestNodeEl el ;;
  match nearest with
  | Some e =>
      elem <- getEl e ;;
      match match_block_node (el_id elem) with
      | Some key => tree <- getAst ;; ret (nodeMap tree !! key)
      | None => ret None
      end
  | None => ret None
  end.

Definition getSelectedNode : M (option Node) :=
  s <- get ;; findNodeFromEl (activeElement s).

(** [el.focus()]: the element becomes the active one.  The blur this
    causes on the element that had the focus is a step of its own, see
    [blur] below. *)
Definition focus (el : ElId) : M unit :=
  getEl el ;; modify (set_activeElement el) ;; log (Focus el).

(** A null node has no [el], no [from]: reading them throws. *)
Definition deref (node : option Node) : M Node :=
  match node with
  | Some n => ret n
  | None => throw (TypeError "node is undefined")
  end.

Definition selectNode (node : option Node) (event : EvId) : M unit :=
  stopPropagation event ;;
  n <- deref node ;;
  focus (node_el n) ;;
  log (ScrollIntoView (node_from n)).

(** [el.matches('.blocks-hidden *')]: some ancestor has the class. *)
Definition under_hidden (d : gmap ElId Element) (e : Element) : bool :=
  existsb
    (fun p => match d !! p with
              | Some a => ClassList.contains "blocks-hidden" (el_classList a)
              | None => false
              end)
    (el_parents e).

Definition isNodeHidden (node : option Node) : M bool :=
  n <- deref node ;;
  e <- getEl (node_el n) ;;
  s <- get ;;
  ret (ClassList.contains "blocks-hidden" (el_classList e)
       || under_hidden (dom s) e).

(** The loop [while (isNodeHidden(n)) n = next(n)].  It need not
    terminate, so it runs on fuel: [None] is "still looping". *)
Fixpoint skipHidden (fuel : nat) (next : Node → option Node)
    (cur : option Node) : M (option (option Node)) :=
  match fuel with
  | 0 => ret None
  | S fuel' =>
      hidden <- isNodeHidden cur ;;
      if hidden then skipHidden fuel' next (cur ≫= next)
      else ret (Some cur)
  end.

Definition selectNextNode (fuel : nat) (event : EvId) : M (option unit) :=
  selected <- getSelectedNode ;;
  s <- get ;;
  let nodeOrCursor := match selected with
                      | Some n => AtNode n
                      | None => AtCursor (cm_cursor s)
                      end in
  tree <- getAst ;;
  found <- skipHidden fuel (fun n => getNodeAfter tree (AtNode n))
             (getNodeAfter tree nodeOrCursor) ;;
  match found with
  | Some nextNode => selectNode nextNode event ;; ret (Some tt)
  | None => ret None
  end.

Definition selectPrevNode (fuel : nat) (event : EvId) : M (option unit) :=
  selected <- getSelectedNode ;;
  s <- get ;;
  let nodeOrCursor := match selected with
                      | Some n => AtNode n
                      | None => AtCursor (cm_cursor s)
                      end in
  tree <- getAst ;;
  found <- skipHidden fuel (fun n => getNodeBefore tree (AtNode n))
             (getNodeBefore tree nodeOrCursor) ;;
  match found with
  | Some prevNode => selectNode prevNode event ;; ret (Some tt)
  | None => ret None
  end.

(** *** In-place editing *)

(** [range] is an object with [from] and [to]; for white space both are
    the element's location, which may be null. *)
Definition saveEditableEl (nodeEl : ElId) (text : Text)
    (range : option (Pos * Pos)) : M unit :=
  updEl nodeEl (el_set_onblur None) ;;
  updEl nodeEl (el_set_onkeydown None) ;;
  updEl nodeEl (el_set_contentEditable false) ;;
  classList_remove nodeEl "blocks-editing" ;;
  classList_remove nodeEl "blocks-error" ;;
  match range with
  | Some (from, to) => cm_replaceRange text from (Some to)
  | None => throw (TypeError "position is null")
  end.

Definition exn_message (e : Exn) : string :=
  match e with
  | TypeError m => m
  | Error m => m
  | ParserError m => m
  | DOMException m => m
  end.

Definition checkEditableEl (nodeEl : ElId) (text : Text) : M bool :=
  match parser_lex env text with
  | None =>
      updEl nodeEl (el_set_title "") ;;
      ret true
  | Some e =>
      classList_add nodeEl "blocks-error" ;;
      match parser_getExceptionMessage env e with
      | inr msg => updEl nodeEl (el_set_title msg)
      | inl e' => console_error (exn_message e')
      end ;;
      console_error "result doesn't parse" ;;
      ret false
  end.

Definition saveEdit (node : Node) (nodeEl : ElId) (event : EvId) : M unit :=
  preventDefault event ;;
  e <- getEl nodeEl ;;
  valid <- checkEditableEl nodeEl (el_innerText e) ;;
  if valid then
    match node_quarantine node with
    | Some bookmark =>
        updEl nodeEl (fun e => el_set_innerText (el_innerText e ++ txt " ") e) ;;
        mark_clear bookmark
    | None => ret tt
    end ;;
    e' <- getEl nodeEl ;;
    saveEditableEl nodeEl (el_innerText e') (Some (node_from node, node_to node))
  else
    setTimeout (TEditLiteral node event) ;;
    modify (set_hasInvalidEdit true).

Definition editWhiteSpace (whiteSpaceEl : ElId) (event : EvId) : M unit :=
  stopPropagation event ;;
  updEl whiteSpaceEl (el_set_contentEditable true) ;;
  classList_add whiteSpaceEl "blocks-editing" ;;
  updEl whiteSpaceEl (el_set_onblur (Some (CSaveWhiteSpace whiteSpaceEl))) ;;
  updEl whiteSpaceEl (el_set_onkeydown (Some (CHandleEditKeyDown whiteSpaceEl))) ;;
  log (SelectRange whiteSpaceEl 0).

Definition saveWhiteSpace (whiteSpaceEl : ElId) : M unit :=
  location <- getLocationFromEl whiteSpaceEl ;;
  e <- getEl whiteSpaceEl ;;
  valid <- checkEditableEl whiteSpaceEl (txt " " ++ el_innerText e) ;;
  if valid then
    e' <- getEl whiteSpaceEl ;;
    saveEditableEl whiteSpaceEl (txt " " ++ el_innerText e')
      (option_map (fun l => (l, l)) location)
  else ret tt.

Definition editLiteral (node : option Node) (event : EvId) : M unit :=
  stopPropagation event ;;
  n <- deref node ;;
  oldText <- cm_getRange (node_from n) (node_to n) ;;
  updEl (node_el n) (el_set_oldText (Some oldText)) ;;
  updEl (node_el n) (el_set_contentEditable true) ;;
  classList_add (node_el n) "blocks-editing" ;;
  updEl (node_el n) (el_set_onblur (Some (CSaveEdit n (node_el n)))) ;;
  updEl (node_el n) (el_set_onkeydown (Some (CHandleEditKeyDown (node_el n)))) ;;
  log (SelectRange (node_el n)
         (match node_quarantine n with Some _ => 1 | None => 0 end)).

(** *** Drag and drop *)

Definition startDraggingNode (node : option Node) (event : EvId) : M unit :=
  stopPropagation event ;;
  n <- deref node ;;
  classList_add (node_el n) "blocks-dragging" ;;
  updEvent event (ev_set_effectAllowed "move") ;;
  updEvent event (ev_set_dragImage (Some (node_el n))) ;;
  text <- cm_getRange (node_from n) (node_to n) ;;
  updEvent event (fun e => ev_set_data (setData (ev_data e) "text/plain" text) e) ;;
  updEvent event
    (fun e => ev_set_data (setData (ev_data e) "text/id" (txt (node_id n))) e).

Definition stopDraggingNode (node : option Node) : M unit :=
  n <- deref node ;;
  classList_remove (node_el n) "blocks-dragging".

Definition isDropTarget (el : ElId) : M bool :=
  marked <- classList_contains el "blocks-drop-target" ;;
  if marked then ret true
  else
    node <- findNodeFromEl el ;;
    match node with
    | Some n =>
        if bool_decide (node_type n ∈ ["literal"; "blank"]) then ret true
        else ret false
    | None => ret true
    end.

Definition handleDragEnter (node : option Node) (event : EvId) : M unit :=
  e <- getEvent event ;;
  target <- isDropTarget (ev_target e) ;;
  if target then
    stopPropagation event ;;
    el <- match node with
          | Some n =>
              t <- isDropTarget (node_el n) ;;
              ret (if t then node_el n else ev_target e)
          | None => ret (ev_target e)
          end ;;
    classList_add el "blocks-over-target"
  else ret tt.

Definition handleDragLeave (node : option Node) (event : EvId) : M unit :=
  e <- getEvent event ;;
  target <- isDropTarget (ev_target e) ;;
  if target then
    stopPropagation event ;;
    classList_remove (ev_target e) "blocks-over-target" ;;
    match node with
    | Some n => classList_remove (node_el n) "blocks-over-target"
    | None => ret tt
    end
  else ret tt.

(** The arrow function that [dropOntoNode] hands to [cm.operation]: the
    two mutations of a relocation. *)
Definition is_literal (destinationNode : option Node) : bool :=
  match destinationNode with
  | Some dn => bool_decide (node_type dn = "literal")
  | None => false
  end.

Definition dropOperation (sourceNode : Node) (sourceNodeText : Text)
    (destination : Pos) (destinationNode : option Node) : M unit :=
  if is_literal destinationNode then
    dn <- deref destinationNode ;;
    i <- cm_indexFromPos (node_from sourceNode) ;;
    j <- cm_indexFromPos (node_from dn) ;;
    if i <? j then
      cm_replaceRange sourceNodeText (node_from dn) (Some (node_to dn)) ;;
      cm_replaceRange [] (node_from sourceNode) (Some (node_to sourceNode))
    else
      cm_replaceRange [] (node_from sourceNode) (Some (node_to sourceNode)) ;;
      cm_replaceRange sourceNodeText (node_from dn) (Some (node_to dn))
  else
    let sourceNodeText :=
      match willInsertNode env with
      | Some hook => hook sourceNodeText sourceNode destination destinationNode
      | None => sourceNodeText
      end in
    i <- cm_indexFromPos (node_from sourceNode) ;;
    j <- cm_indexFromPos destination ;;
    (if i <? j then
       cm_replaceRange sourceNodeText destination None ;;
       cm_replaceRange [] (node_from sourceNode) (Some (node_to sourceNode))
     else
       cm_replaceRange [] (node_from sourceNode) (Some (node_to sourceNode)) ;;
       cm_replaceRange sourceNodeText destination None) ;;
    when (didInsertNode env)
      (log (DidInsertNode sourceNodeText sourceNode destination destinationNode)).

Definition same_place (a b : Pos) : bool :=
  bool_decide (line a = line b) && bool_decide (ch a = ch b).

Definition dropOntoNode (destinationNode : option Node) (event : EvId)
  : M unit :=
  e <- getEvent event ;;
  target <- isDropTarget (ev_target e) ;;
  if negb target then ret tt
  else
    preventDefault event ;;
    stopPropagation event ;;
    classList_remove (ev_target e) "blocks-over-target" ;;
    let nodeId := getData (ev_data e) "text/id" in
    when (bool_decide (nodeId = []))
      (console_error
         "data transfer contains no node id. Not sure how to proceed.") ;;
    tree <- getAst ;;
    let sourceNode := nodeMap tree !! string_of_list_ascii nodeId in
    when (bool_decide (sourceNode = None))
      (console_error
         ("node " +:+ string_of_list_ascii nodeId +:+ " not found in AST")) ;;
    source <- deref sourceNode ;;
    sourceNodeText <- cm_getRange (node_from source) (node_to source) ;;
    location <- getLocationFromEl (ev_target e) ;;
    let drop :=
      match location with
      | Some d => (d, sourceNodeText)
      | None =>
          let c := coordsChar env (ev_pageX e) (ev_pageY e) in
          (fst c, if snd c then newline :: sourceNodeText else sourceNodeText)
      end in
    let destination := fst drop in
    if same_place destination (node_to source)
       || same_place destination (node_from source)
    then ret tt
    else cm_operation
           (dropOperation source (snd drop) destination destinationNode).

(** *** Quarantine *)

Definition insertionQuarantine (event : EvId) : M unit :=
  preventDefault event ;;
  e <- getEvent event ;;
  let text := if bool_decide (ev_type e = "keypress")
              then [ev_which e] else ev_clipboard e in
  s <- get ;;
  let cur := cm_cursor s in
  let ws := repeat newline (line cur) ++ repeat " "%char (ch cur) in
  let tree := parser_parse env (ws ++ txt "x") in
  match head (rootNodes tree) with
  | None => throw (TypeError "node is undefined")
  | Some node =>
      renderNode node ;;
      updEl (node_el node) (el_set_innerText text) ;;
      let to := mkPos (line (node_to node)) (ch (node_from node)) in
      mk <- cm_setBookmark cur (node_el node) ;;
      setTimeout
        (TEditLiteral
           (mkNode (node_id node) (node_type node) (node_from node) to
                   (node_el node) (Some mk))
           event)
  end.

Definition cancelIfErrorExists (event : EvId) : M unit :=
  s <- get ;;
  if hasInvalidEdit s then
    preventDefault event ;;
    stopPropagation event
  else ret tt.

(** *** The node event dispatcher *)

Inductive Method :=
  | SelectNode | EditLiteral | EditWhiteSpace | StartDraggingNode
  | StopDraggingNode | HandleDragEnter | HandleDragLeave | DropOntoNode.

(** What a handler is called with: a node (possibly null), or, for the
    white-space handler, the event's target element. *)
Inductive Receiver :=
  | OnNode (node : option Node)
  | OnElement (el : ElId).

Definition call (m : Method) (r : Receiver) (event : EvId) : M unit :=
  match m, r with
  | SelectNode, OnNode n => selectNode n event
  | EditLiteral, OnNode n => editLiteral n event
  | StartDraggingNode, OnNode n => startDraggingNode n event
  | StopDraggingNode, OnNode n => stopDraggingNode n
  | HandleDragEnter, OnNode n => handleDragEnter n event
  | HandleDragLeave, OnNode n => handleDragLeave n event
  | DropOntoNode, OnNode n => dropOntoNode n event
  | EditWhiteSpace, OnElement el => editWhiteSpace el event
  | _, _ => throw (TypeError "receiver lacks the property read")
  end.

(** [handlers]: one function, or an object from node types (and
    "whitespace", "default") to functions. *)
Inductive Handlers :=
  | HFunction (m : Method)
  | HObject (table : list (string * Method)).

Definition handler_table (handlers : Handlers) : list (string * Method) :=
  match handlers with
  | HFunction m => [("default", m)]
  | HObject table => table
  end.

Fixpoint handler_for (table : list (string * Method)) (key : string)
  : option Method :=
  match table with
  | [] => None
  | (k, m) :: rest => if bool_decide (k = key) then Some m else handler_for rest key
  end.

(** The function [nodeEventHandler] returns, applied to an event; the
    result is [Some false] for [return false] and [None] otherwise. *)
Definition nodeEventHandler (handlers : Handlers) (callWithNullNode : bool)
    (event : EvId) : M (option bool) :=
  let handlers := handler_table handlers in
  e <- getEvent event ;;
  node <- findNodeFromEl (ev_target e) ;;
  if bool_decide (is_Some node) || callWithNullNode then
    white <- classList_contains (ev_target e) "blocks-white-space" ;;
    match (if white then handler_for handlers "whitespace" else None) with
    | Some h => call h (OnElement (ev_target e)) event ;; ret None
    | None =>
        blank <- classList_contains (ev_target e) "blocks-blank" ;;
        if blank && bool_decide (ev_type e = "dragstart") then
          stopPropagation event ;;
          ret (Some false)
        else
          match node ≫= (fun n => handler_for handlers (node_type n)) with
          | Some h => call h (OnNode node) event ;; ret None
          | None =>
              match handler_for handlers "default" with
              | Some h => call h (OnNode node) event ;; ret None
              | None => ret None
              end
          end
    end
  else ret None.

(** The handlers the constructor installs on the wrapper element. *)
Definition onclick := nodeEventHandler (HFunction SelectNode) false.
Definition ondblclick :=
  nodeEventHandler
    (HObject [("literal", EditLiteral); ("blank", EditLiteral);
              ("whitespace", EditWhiteSpace)]) false.
Definition ondragstart := nodeEventHandler (HFunction StartDraggingNode) false.
Definition ondragend := nodeEventHandler (HFunction StopDraggingNode) false.
Definition ondragleave := nodeEventHandler (HFunction HandleDragLeave) false.
Definition ondrop := nodeEventHandler (HFunction DropOntoNode) false.
Definition dropHandler := nodeEventHandler (HFunction DropOntoNode) true.
Definition dragEnterHandler := nodeEventHandler (HFunction HandleDragEnter) false.

(** *** The browser's side: timers, blur, typing *)

Definition runTimer (t : Timer) : M unit :=
  match t with
  | TEditLiteral node event => editLiteral (Some node) event
  end.

(** Run the callbacks that are due, oldest first. *)
Definition runTimers : M unit :=
  s <- get ;;
  modify (set_timers []) ;;
  forEach (timers s) runTimer.

(** Focus leaves [el]: its [onblur] closure runs with the blur event. *)
Definition blur (el : ElId) (event : EvId) : M unit :=
  e <- getEl el ;;
  match el_onblur e with
  | Some (CSaveEdit node nodeEl) => saveEdit node nodeEl event
  | Some (CSaveWhiteSpace whiteSpaceEl) => saveWhiteSpace whiteSpaceEl
  | Some (CHandleEditKeyDown _) => ret tt
  | None => ret tt
  end.

(** The user changes the content of an editable element. *)
Definition userInput (el : ElId) (text : Text) : M unit :=
  e <- getEl el ;;
  if el_contentEditable e then updEl el (el_set_innerText text) else ret tt.

End CodeMirrorBlocks.

(** ** The vocabulary of the statements *)

(** *** Frames

    [frame R m]: however [m] ends, returning or throwing, the state it
    ends in is [R]-related to the one it started in.  [safe R m]: moreover
    it returns. *)
Section frame_definitions.
Context (R : relation State).

Definition frame {A} (m : M A) : Prop := ∀ s, R s (final (m s)).

Definition safe {A} (m : M A) : Prop :=
  ∀ s, ∃ a s', m s = Ok a s' ∧ R s s'.

End frame_definitions.

(** A computation that leaves the state as it found it. *)
Abbreviation readonly := (frame eq).

(** [quiet s s']: the buffer text and the invalid-edit flag are what they
    were, and the calls made since contain no buffer mutation. *)
Record quiet (s s' : State) : Prop := mkQuiet {
  quiet_value : cm_value s' = cm_value s;
  quiet_flag : hasInvalidEdit s' = hasInvalidEdit s;
  quiet_trace : ∃ l, trace s' = trace s ++ l ∧ mutations l = [];
}.

(** [same f]: the part [f] of the state is what it was. *)
Definition same {A} (f : State → A) : relation State :=
  fun s s' => f s' = f s.

(** *** Ranges of the buffer *)

(** A range of the buffer as [replaceRange] receives it: its start and,
    unless it is an insertion point, its end. *)
Definition Range : Type := Pos * option Pos.

Definition start (doc : Text) (r : Range) : nat := Buffer.indexFromPos doc (fst r).

Definition stop (doc : Text) (r : Range) : nat :=
  match snd r with
  | Some p => Buffer.indexFromPos doc p
  | None => start doc r
  end.

(** Both ends name places of the document, in order. *)
Definition wf_range (doc : Text) (r : Range) : Prop :=
  Buffer.validPos doc (fst r) = true
  ∧ match snd r with Some p => Buffer.validPos doc p = true | None => True end
  ∧ start doc r ≤ stop doc r.

(** [r1] lies entirely before [r2]. *)
Definition before (doc : Text) (r1 r2 : Range) : Prop :=
  stop doc r1 ≤ start doc r2.

(** *** What the handlers are given and what they write *)
Section statement_vocabulary.
Context (env : Env).

(** The message of the error [markText] throws for an option. *)
Definition unsupported_message (option : string) : string :=
  "option " +:+ dquote +:+ option +:+ dquote +:+ " is not supported by markText".

(** The state after [event.stopPropagation()] alone. *)
Definition stopped (ev : EvId) (e : Event) (s : State) : State :=
  set_events (<[ev := ev_set_propagationStopped true e]> (events s)) s.

(** The node a drop's payload names, in the current tree. *)
Definition drop_source (s : State) (e : Event) : option Node :=
  match ast s with
  | Some tree =>
      nodeMap tree !! string_of_list_ascii (getData (ev_data e) "text/id")
  | None => None
  end.

(** The position a drop resolves to: the location written on the target
    element, else the position under the pointer. *)
Definition drop_destination (s : State) (e : Event) : option Pos :=
  match dom s !! ev_target e with
  | Some el =>
      match el_line el, el_ch el with
      | Some l, Some c => Some (mkPos l c)
      | _, _ => Some (fst (coordsChar env (ev_pageX e) (ev_pageY e)))
      end
  | None => None
  end.

(** The two ranges of a relocation and the text that is dropped in. *)
Definition source_range (sourceNode : Node) : Range :=
  (node_from sourceNode, Some (node_to sourceNode)).

Definition destination_range (destination : Pos)
    (destinationNode : option Node) : Range :=
  match destinationNode with
  | Some dn =>
      if bool_decide (node_type dn = "literal")
      then (node_from dn, Some (node_to dn))
      else (destination, None)
  | None => (destination, None)
  end.

Definition dropped_text (sourceNode : Node) (sourceNodeText : Text)
    (destination : Pos) (destinationNode : option Node) : Text :=
  if is_literal destinationNode then sourceNodeText
  else match willInsertNode env with
       | Some hook => hook sourceNodeText sourceNode destination destinationNode
       | None => sourceNodeText
       end.

(** The text a commit writes: what the element holds, with the
    separating blank after it for a quarantined node. *)
Definition committed_text (node : Node) (innerText : Text) : Text :=
  match node_quarantine node with
  | Some _ => innerText ++ txt " "
  | None => innerText
  end.

(** The release of the quarantine bookmark, as it shows in the trace. *)
Definition released (node : Node) (s : State) : list Call :=
  match node_quarantine node with
  | Some bookmark =>
      if existsb (fun m => bool_decide (mark_key m = bookmark)) (cm_marks s)
      then [ClearMark bookmark] else []
  | None => []
  end.

(** The filler [insertionQuarantine] parses before the sentinel. *)
Definition filler (cur : Pos) : Text :=
  repeat newline (line cur) ++ repeat " "%char (ch cur).

(** The node it hands to [editLiteral]: zero width, bookmark stored. *)
Definition quarantined (n : Node) (bookmark : nat) : Node :=
  mkNode (node_id n) (node_type n) (node_from n)
    (mkPos (line (node_to n)) (ch (node_from n))) (node_el n) (Some bookmark).

(** What the intercepted event carries. *)
Definition intercepted (e : Event) : Text :=
  if bool_decide (ev_type e = "keypress") then [ev_which e] else ev_clipboard e.

(** The whole session: the keystroke (or paste) is quarantined, the
    deferred [editLiteral] runs, the user brings the element's text to
    [typed], and focus leaves the element [el]. *)
Definition quarantineSession (ev : EvId) (el : ElId) (typed : Text)
    (blurEv : EvId) : M unit :=
  insertionQuarantine env ev ;;
  runTimers ;;
  userInput el typed ;;
  blur env el blurEv.

(** Every element of the document is hidden. *)
Definition all_hidden (s : State) : Prop :=
  ∀ el e, dom s !! el = Some e →
          ClassList.contains "blocks-hidden" (el_classList e) = true.

(** The node or cursor a navigation starts from. *)
Definition navigation_start (selected : option Node) (s : State)
  : NodeOrCursor :=
  match selected with
  | Some n => AtNode n
  | None => AtCursor (cm_cursor s)
  end.

End statement_vocabulary.

(** ** A small instance: words as literals

    A parser that makes every blank-separated word a [literal] node, a
    lexer that rejects an open parenthesis, and a renderer that gives each
    node an element of id "block-node-<id>" under the editor's wrapper.
    The examples below run the class on it. *)
Module Demo.

Definition wrapper : ElId := 1.

Definition is_space (c : ascii) : bool :=
  bool_decide (c = " "%char) || is_newline c.

Definition word_id (k : nat) : string :=
  String (ascii_of_nat (48 + k)) EmptyString.

Definition literal (k : nat) (from to : Pos) : Node :=
  mkNode (word_id k) "literal" from to (100 + k) None.

Fixpoint scan (doc : Text) (l c : nat) (start : option Pos) (k : nat)
  : list Node :=
  match doc with
  | [] =>
      match start with
      | Some p => [literal k p (mkPos l c)]
      | None => []
      end
  | x :: rest =>
      if is_space x then
        let l' := if is_newline x then S l else l in
        let c' := if is_newline x then 0 else S c in
        match start with
        | Some p => literal k p (mkPos l c) :: scan rest l' c' None (S k)
        | None => scan rest l' c' None k
        end
      else
        scan rest l (S c) (Some (default (mkPos l c) start)) k
  end.

Definition parse (doc : Text) : AST :=
  let nodes := scan doc 0 0 None 0 in
  mkAST nodes (list_to_map (map (fun n => (node_id n, n)) nodes))
    (inorderAfter nodes) (inorderBefore nodes).

Definition lex (t : Text) : option Exn :=
  if existsb (fun c => bool_decide (c = "("%char)) t
  then Some (ParserError "unbalanced parenthesis")
  else None.

Definition element (n : Node) : Element :=
  mkElement ("block-node-" +:+ node_id n) ["blocks-node"; "blocks-literal"]
    [wrapper; document_body] None None [] "" "" false None None None.

Definition render_node (n : Node) (v : View) : View :=
  (<[node_el n := element n]> (fst v),
   snd v ++ [mkMark (node_el n) (node_from n) (node_to n) (Some (node_el n)) [] None]).

Definition env : Env :=
  mkEnv parse lex (fun e => inr (exn_message e)) render_node
    unit (fun _ v => (tt, v)) (fun _ _ v => v)
    (fun x y => (mkPos y x, false)) None false.

Definition plain (cls : list string) : Element :=
  mkElement "" cls [document_body] None None [] "" "" false None None None.

Definition event (type : string) (target : ElId) : Event :=
  mkEvent type target 0 0 "a"%char [] [] "" None false false.

(** An editor showing [doc] in block mode, rendered, nothing focused. *)
Definition editor (doc : Text) : State :=
  final
    (render env
       (mkState doc (mkPos 0 0) [] false 0 wrapper
          (<[wrapper := plain ["CodeMirror"; "blocks"]]>
             (<[document_body := plain []]> ∅))
          document_body ∅ None (Blocks "blocks") false [] [])).

Definition with_event (ev : EvId) (e : Event) (s : State) : State :=
  set_events (<[ev := e]> (events s)) s.

Definition with_element (el : ElId) (e : Element) (s : State) : State :=
  set_dom (<[el := e]> (dom s)) s.

End Demo.

(** *** The states the examples start from *)
Module DispatcherExamples.
Import Demo.

(** The element of the second word, rendered as a blank. *)
Definition blank_el : Element :=
  mkElement "block-node-1" ["blocks-node"; "blocks-blank"]
    [wrapper; document_body] None None [] "" "" false None None None.

Definition on_blank : State :=
  with_event 7 (event "dragstart" 101)
    (with_element 101 blank_el (editor (txt "abc de f"))).

Definition on_literal : State :=
  with_event 7 (event "dragstart" 101) (editor (txt "abc de f")).

End DispatcherExamples.

Module DropExamples.
Import Demo.

(** A drop on the editor background at column [x] of the first line,
    carrying the node id [id]. *)
Definition drop_at (x : nat) (id : string) : Event :=
  mkEvent "drop" wrapper x 0 "a"%char [] [("text/id", txt id)] "" None
    false false.

Definition dropping (x : nat) (id : string) : State :=
  with_event 7 (drop_at x id) (editor (txt "abc de f")).

Definition word0 : Node := literal 0 (mkPos 0 0) (mkPos 0 3).

End DropExamples.

Module QuarantineExamples.
Import Demo.

Definition typing : State :=
  with_event 8 (event "blur" 100)
    (with_event 7 (event "keypress" wrapper) (editor [])).

Definition pasting : State :=
  with_event 8 (event "blur" 100)
    (with_event 7
       (mkEvent "paste" wrapper 0 0 "a"%char (txt "abc") [] "" None false false)
       (editor [])).

End QuarantineExamples.

Module EditExamples.
Import Demo.

Definition word1 : Node := literal 1 (mkPos 0 4) (mkPos 0 6).

(** The second word's element while it is being edited, holding [text]. *)
Definition edited (text : Text) : Element :=
  mkElement "block-node-1" ["blocks-node"; "blocks-literal"; "blocks-editing"]
    [wrapper; document_body] None None text "" "" true (Some (txt "de"))
    (Some (CSaveEdit word1 101)) (Some (CHandleEditKeyDown 101)).

Definition editing (text : Text) : State :=
  with_event 7 (event "blur" 101)
    (with_element 101 (edited text) (editor (txt "abc de f"))).

(** After a refusal the user corrects the text; the commit goes through
    and the flag is still up: a mousedown is still cancelled. *)
Definition corrected : State :=
  final
    ((blur env 101 7 ;; runTimers ;; userInput 101 (txt "xyz") ;; blur env 101 7)
       (editing (txt "(xyz"))).

End EditExamples.

Module NavigationExamples.
Import Demo.

(** The last word has the focus. *)
Definition at_last : State :=
  with_event 7 (event "keydown" 102)
    (set_activeElement 102 (editor (txt "abc de f"))).

Definition at_first : State :=
  with_event 7 (event "keydown" 100)
    (set_activeElement 100 (editor (txt "abc de f"))).

Definition word2 : Node := literal 2 (mkPos 0 7) (mkPos 0 8).

End NavigationExamples.

(** ** The rest of the class: markers, deletion, the keyboard *)

(** An instance of [BlockMarker]: the editor mark it wraps (by its key,
    with the element that mark replaces the text with) and the options it
    was made with. *)
Record BlockMarker := mkBlockMarker {
  bm_cmMarker : nat;
  bm_replacedWith : option ElId;
  bm_options : Options;
}.

Global Instance BlockMarker_eq_dec : EqDecision BlockMarker.
Proof. solve_decision. Defined.

(** [mark[MARKER]], when the mark carries one. *)
Definition blockMarker (mark : Mark) : option BlockMarker :=
  match mark_MARKER mark with
  | Some options =>
      Some (mkBlockMarker (mark_key mark) (mark_replacedWith mark) options)
  | None => None
  end.

(** [this.cmMarker.replacedWith], read for one of its properties. *)
Definition replacedWith (marker : BlockMarker) : M ElId :=
  match bm_replacedWith marker with
  | Some w => ret w
  | None => throw (TypeError "replacedWith is undefined")
  end.

(** [BlockMarker.clear]. *)
Definition BlockMarker_clear (marker : BlockMarker) : M unit :=
  match option_value (bm_options marker) "css" with
  | Some _ => w <- replacedWith marker ;; updEl w (el_set_cssText "")
  | None => ret tt
  end ;;
  match option_value (bm_options marker) "title" with
  | Some _ => w <- replacedWith marker ;; updEl w (el_set_title "")
  | None => ret tt
  end ;;
  match option_value (bm_options marker) "className" with
  | Some className => w <- replacedWith marker ;; DOMTokenList_remove w className
  | None => ret tt
  end ;;
  modify (fun s =>
    set_cm_marks (map (set_MARKER (bm_cmMarker marker) None) (cm_marks s)) s).

(** [BlockMarker.find]: the range of the wrapped mark, while the editor
    still has it. *)
Definition BlockMarker_find (marker : BlockMarker) : M (option (Pos * Pos)) :=
  s <- get ;;
  ret (match List.find
               (fun m => bool_decide (mark_key m = bm_cmMarker marker))
               (cm_marks s)
       with
       | Some m => Some (mark_from m, mark_to m)
       | None => None
       end).

(** [cm.findMarksAt(pos)]: the marks whose range holds the position. *)
Definition cm_findMarksAt (s : State) (pos : Pos) : list Mark :=
  let idx := Buffer.indexFromPos (cm_value s) in
  List.filter
    (fun m => (idx (mark_from m) <=? idx pos) && (idx pos <=? idx (mark_to m)))
    (cm_marks s).

(** [findMarks], [findMarksAt], [getAllMarks]: the editor's answer,
    filtered to the marks that carry a marker and mapped to it. *)
Definition findMarks (from to : Pos) : M (list BlockMarker) :=
  s <- get ;; ret (omap blockMarker (cm_findMarks s from to)).

Definition findMarksAt (pos : Pos) : M (list BlockMarker) :=
  s <- get ;; ret (omap blockMarker (cm_findMarksAt s pos)).

Definition getAllMarks : M (list BlockMarker) :=
  s <- get ;; ret (omap blockMarker (cm_marks s)).

(** The element of a decorated mark after [markText] with [options], and
    after a [BlockMarker.clear] for the same options that goes through. *)
Definition decorated (options : Options) (el : Element) : Element :=
  let el1 := match option_value options "css" with
             | Some css => el_set_cssText css el
             | None => el
             end in
  let el2 := match option_value options "className" with
             | Some cls => el_set_classList (el_classList el1 ++ tokens cls) el1
             | None => el1
             end in
  match option_value options "title" with
  | Some t => el_set_title t el2
  | None => el2
  end.

Definition cleared (options : Options) (el : Element) : Element :=
  let el1 := match option_value options "css" with
             | Some _ => el_set_cssText "" el
             | None => el
             end in
  let el2 := match option_value options "title" with
             | Some _ => el_set_title "" el1
             | None => el1
             end in
  match option_value options "className" with
  | Some cls => el_set_classList (ClassList.remove cls (el_classList el2)) el2
  | None => el2
  end.

(** A mark that [markText] passes over: it replaces the text with nothing,
    or with an element that is no node. *)
Definition passed_over (s : State) (mark : Mark) : Prop :=
  match mark_replacedWith mark with
  | Some w =>
      ∃ e, dom s !! w = Some e
           ∧ ClassList.contains "blocks-node" (el_classList e) = false
  | None => True
  end.

(** What a key is bound to in the key map: the name of an editor command,
    or a function of the editor. *)
Inductive Binding :=
  | BindCommand (name : string)
  | BindFunction (f : M unit).

(** The keyboard side of the editor library, given from outside:
    [CodeMirror.keyName], the key map the constructor stores in
    [this.keyMap] (a binding of any other kind counts as none),
    [cm.execCommand], and the event as it is once its [codemirrorIgnore]
    property is set. *)
Record Keys := mkKeys {
  keyName : Event → string;
  keyMap : string → option Binding;
  execCommand : string → M unit;
  codemirrorIgnore : Event → Event;
}.

Section CodeMirrorBlocks_keyboard.
Context (env : Env) (keys : Keys).

Definition deleteSelectedNodes : M unit :=
  node <- getSelectedNode ;;
  match node with
  | Some n => cm_replaceRange env [] (node_from n) (Some (node_to n))
  | None => ret tt
  end.

(** [selectedNode && ["literal", "blank"].includes(selectedNode.type)]. *)
Definition is_editable (selectedNode : option Node) : bool :=
  match selectedNode with
  | Some n => bool_decide (node_type n ∈ ["literal"; "blank"])
  | None => false
  end.

(** [handleKeyDown].  The branches say whether the key was handled; the
    navigation branches run on fuel, and [None] is "still looping". *)
Definition handleKeyDown (fuel : nat) (event : EvId) : M (option unit) :=
  e <- getEvent event ;;
  let keyName := keyName keys e in
  selectedNode <- getSelectedNode ;;
  handled <-
    (if bool_decide (keyName = "Enter") && is_editable selectedNode then
       editLiteral selectedNode event ;; ret (Some true)
     else if bool_decide (keyName = "Backspace")
             && bool_decide (is_Some selectedNode) then
       deleteSelectedNodes ;; ret (Some true)
     else if bool_decide (keyName = "Tab") then
       r <- selectNextNode fuel event ;; ret (option_map (fun _ => true) r)
     else if bool_decide (keyName = "Shift-Tab") then
       r <- selectPrevNode fuel event ;; ret (option_map (fun _ => true) r)
     else
       match keyMap keys keyName with
       | Some (BindCommand command) => execCommand keys command ;; ret (Some true)
       | Some (BindFunction command) => command ;; ret (Some true)
       | None => ret (Some false)
       end) ;;
  match handled with
  | Some true =>
      preventDefault event ;;
      stopPropagation event ;;
      ret (Some tt)
  | Some false => ret (Some tt)
  | None => ret None
  end.

(** [handleEditKeyDown], bound to the element [self].  [self.blur()] makes
    the browser deliver the blur event [blurEvent] to the element. *)
Definition handleEditKeyDown (self : ElId) (e : EvId) (blurEvent : EvId)
  : M unit :=
  stopPropagation e ;;
  updEvent e (codemirrorIgnore keys) ;;
  ev <- getEvent e ;;
  let keyName := keyName keys ev in
  if bool_decide (keyName ∈ ["Enter"; "Tab"; "Esc"]) then
    when (bool_decide (keyName = "Esc"))
      (updEl self
         (fun el => el_set_innerText (default [] (el_oldText el)) el)) ;;
    preventDefault e ;;
    blur env self blurEvent
  else ret tt.

End CodeMirrorBlocks_keyboard.

(** [steady s s']: what a change notification leaves alone, the tree
    apart: the buffer, the events, the mode, the open operation, the focus. *)
Definition steady : relation State :=
  same (fun s => (cm_value s, events s, blockMode s, cm_inOperation s,
                  cm_pending s, activeElement s)).

(** Two documents that differ at most in which elements carry the class
    'blocks-over-target'. *)
Definition alike (d d' : gmap ElId Element) : Prop :=
  ∀ x, match d !! x, d' !! x with
       | Some e, Some e' =>
           el_id e' = el_id e
           ∧ el_parents e' = el_parents e
           ∧ ∀ c, c ≠ "blocks-over-target" →
                  ClassList.contains c (el_classList e')
                  = ClassList.contains c (el_classList e)
       | None, None => True
       | _, _ => False
       end.

(** *** More example states *)
Module StructuralExamples.
Import Demo.

(** The second word parsed as an expression rather than a literal. *)
Definition expression : Node :=
  mkNode "1" "expression" (mkPos 0 4) (mkPos 0 6) 101 None.

Definition tree : AST :=
  mkAST [expression] (<["1" := expression]> ∅)
    (inorderAfter [expression]) (inorderBefore [expression]).

(** An event of type [type] on the element of that expression. *)
Definition on_expression (type : string) : State :=
  set_ast (Some tree) (with_event 7 (event type 101) (editor (txt "abc de f"))).

(** An event of type [type] on the editor's wrapper, outside every node. *)
Definition on_background (type : string) : State :=
  with_event 7 (event type wrapper) (editor (txt "abc de f")).

(** The second word's mark replaces the text with a widget that is no
    node element. *)
Definition with_widget : State :=
  with_element 101 (plain ["widget"]) (editor (txt "abc de f")).

End StructuralExamples.

Module KeyExamples.
Import Demo.

(** Key names by character code, the way the editor library names the
    keys used here; no key is bound and the ignore flag is not observed. *)
Definition keys : Keys :=
  mkKeys
    (fun e =>
       if bool_decide (ev_which e = "008"%char) then "Backspace"
       else if bool_decide (ev_which e = "009"%char) then "Tab"
       else if bool_decide (ev_which e = "013"%char) then "Enter"
       else if bool_decide (ev_which e = "027"%char) then "Esc"
       else String (ev_which e) EmptyString)
    (fun _ => None)
    (fun _ => ret tt)
    (fun e => e).

Definition key (which : ascii) (target : ElId) : Event :=
  mkEvent "keydown" target 0 0 which [] [] "" None false false.

(** The last word has the focus and a key goes down on it. *)
Definition pressing (which : ascii) : State :=
  with_event 7 (key which 102)
    (set_activeElement 102 (editor (txt "abc de f"))).

(** The second word is being edited, holds [text], and a key goes down in
    it; event 8 is the blur that follows. *)
Definition typing_in (text : Text) (which : ascii) : State :=
  with_event 8 (event "blur" 101)
    (with_event 7 (key which 101)
       (with_element 101 (EditExamples.edited text)
          (editor (txt "abc de f")))).

End KeyExamples.

Module WhiteSpaceExamples.
Import Demo.

(** The white space after the first word, under edit and holding [text]. *)
Definition gap (text : Text) : Element :=
  mkElement "" ["blocks-white-space"; "blocks-editing"]
    [wrapper; document_body] (Some 0) (Some 3) text "" "" true None
    (Some (CSaveWhiteSpace 200)) (Some (CHandleEditKeyDown 200)).

Definition filling (text : Text) : State :=
  with_element 200 (gap text) (editor (txt "abc de f")).

(** A white-space element inside the second word's element, at rest, and
    a double click on it; event 8 is the blur that ends the edit. *)
Definition inner_gap : Element :=
  mkElement "" ["blocks-white-space"] [101; wrapper; document_body]
    (Some 0) (Some 5) [] "" "" false None None None.

Definition clicking : State :=
  with_event 8 (event "blur" 201)
    (with_event 7 (event "dblclick" 201)
       (with_element 201 inner_gap (editor (txt "abc de f")))).

End WhiteSpaceExamples.

Module HiddenExamples.
Import Demo.

(** The element of the second word, hidden. *)
Definition hidden_el : Element :=
  mkElement "block-node-1" ["blocks-node"; "blocks-literal"; "blocks-hidden"]
    [wrapper; document_body] None None [] "" "" false None None None.

(** The second word is hidden; the first (the last) word has the focus. *)
Definition from_first : State :=
  with_element 101 hidden_el NavigationExamples.at_first.

Definition from_last : State :=
  with_element 101 hidden_el NavigationExamples.at_last.

End HiddenExamples.

(** * Proofs *)

(** ** Facts about the buffer *)
Section buffer_facts.
Import Buffer.

Lemma indexFrom_le doc l c : indexFrom doc l c ≤ List.length doc.
Proof.
  revert l c. induction doc as [|x rest IH]; intros l c; simpl; [lia|].
  destruct (is_newline x), l, c; simpl; try lia;
    match goal with |- S (indexFrom rest ?a ?b) ≤ _ => specialize (IH a b); lia end.
Qed.

(** The offset of a valid position depends only on the text before it. *)
Lemma indexFrom_prefix doc l c tail :
  validAt doc l c = true →
  indexFrom (take (indexFrom doc l c) doc ++ tail) l c = indexFrom doc l c.
Proof.
  revert l c. induction doc as [|x rest IH]; intros l c Hv; simpl in *.
  - apply andb_prop in Hv as [Hl Hc].
    apply bool_decide_eq_true_1 in Hl, Hc. subst.
    destruct tail as [|y tl]; simpl; [done|]. by destruct (is_newline y).
  - destruct (is_newline x) eqn:Hx.
    + destruct l as [|l'].
      * apply bool_decide_eq_true_1 in Hv. subst c. simpl.
        destruct tail as [|y tl]; simpl; [done|]. by destruct (is_newline y).
      * simpl. rewrite Hx. f_equal. by apply IH.
    + destruct l as [|l'], c as [|c']; simpl; rewrite ?Hx.
      * destruct tail as [|y tl]; simpl; [done|]. by destruct (is_newline y).
      * f_equal. by apply IH.
      * f_equal. by apply IH.
      * f_equal. by apply IH.
Qed.

Lemma validAt_prefix doc l c tail :
  validAt doc l c = true →
  validAt (take (indexFrom doc l c) doc ++ tail) l c = true.
Proof.
  revert l c. induction doc as [|x rest IH]; intros l c Hv; simpl in *.
  - apply andb_prop in Hv as [Hl Hc].
    apply bool_decide_eq_true_1 in Hl, Hc. subst.
    destruct tail as [|y tl]; simpl; [done|]. by destruct (is_newline y).
  - destruct (is_newline x) eqn:Hx.
    + destruct l as [|l'].
      * apply bool_decide_eq_true_1 in Hv. subst c. simpl.
        destruct tail as [|y tl]; simpl; [done|]. by destruct (is_newline y).
      * simpl. rewrite Hx. by apply IH.
    + destruct l as [|l'], c as [|c']; simpl; rewrite ?Hx.
      * destruct tail as [|y tl]; simpl; [done|]. by destruct (is_newline y).
      * by apply IH.
      * by apply IH.
      * by apply IH.
Qed.

(** An edit at or after a valid position leaves its offset alone. *)
Lemma indexFromPos_splice_after doc p i j t :
  validPos doc p = true →
  indexFromPos doc p ≤ i → i ≤ j →
  indexFromPos (splice doc i j t) p = indexFromPos doc p.
Proof.
  unfold validPos, indexFromPos, splice. intros Hv Hle Hij.
  set (k := indexFrom doc (line p) (ch p)) in *.
  assert (take i doc = take k doc ++ drop k (take i doc)) as ->.
  { rewrite <- (take_drop k (take i doc)) at 1.
    by rewrite take_take, Nat.min_l by lia. }
  rewrite <- app_assoc. by apply indexFrom_prefix.
Qed.

(** "Replace B, then clear A", A before B. *)
Lemma splice_later_then_earlier doc a1 a2 ta b1 b2 tb :
  a1 ≤ a2 → a2 ≤ b1 → b1 ≤ b2 → b2 ≤ List.length doc →
  splice (splice doc b1 b2 tb) a1 a2 ta = simultaneous doc a1 a2 ta b1 b2 tb.
Proof.
  intros H1 H2 H3 H4. unfold splice, simultaneous.
  rewrite take_app_le by (rewrite length_take; lia).
  rewrite take_take, Nat.min_l by lia.
  by rewrite drop_app_le by (rewrite length_take; lia).
Qed.

End buffer_facts.

(** ** Reasoning about computations *)

(** [frame R m]: however [m] ends, returning or throwing, the state it
    ends in is [R]-related to the one it started in.  [safe R m]: moreover
    it returns. *)
Section frames.
Context (R : relation State) `{!PreOrder R}.

Lemma safe_frame {A} (m : M A) : safe R m → frame R m.
Proof. intros H s. destruct (H s) as (a & s' & -> & Hr). done. Qed.

Lemma frame_ret {A} (a : A) : frame R (ret a).
Proof. intros s. simpl. reflexivity. Qed.

Lemma frame_throw {A} (e : Exn) : frame R (@throw A e).
Proof. intros s. simpl. reflexivity. Qed.

Lemma frame_get : frame R get.
Proof. intros s. simpl. reflexivity. Qed.

Lemma frame_modify f : (∀ s, R s (f s)) → frame R (modify f).
Proof. intros H s. apply H. Qed.

Lemma frame_bind {A B} (m : M A) (k : A → M B) :
  frame R m → (∀ a, frame R (k a)) → frame R (bind m k).
Proof.
  intros Hm Hk s. unfold bind. specialize (Hm s).
  destruct (m s) as [a s'|e s']; simpl in *; [|done].
  etransitivity; [exact Hm|apply Hk].
Qed.

Lemma frame_when b m : frame R m → frame R (when b m).
Proof. destruct b; simpl; [done|]. intros _. apply frame_ret. Qed.

Lemma frame_forEach {A} (l : list A) f :
  (∀ x, frame R (f x)) → frame R (forEach l f).
Proof.
  intros H. induction l as [|x l IH]; simpl; [apply frame_ret|].
  apply frame_bind; [apply H|done].
Qed.

Lemma safe_ret {A} (a : A) : safe R (ret a).
Proof. intros s. exists a, s. done. Qed.

Lemma safe_get : safe R get.
Proof. intros s. exists s, s. done. Qed.

Lemma safe_modify f : (∀ s, R s (f s)) → safe R (modify f).
Proof. intros H s. exists tt, (f s). split; [done|apply H]. Qed.

Lemma safe_bind {A B} (m : M A) (k : A → M B) :
  safe R m → (∀ a, safe R (k a)) → safe R (bind m k).
Proof.
  intros Hm Hk s. unfold bind.
  destruct (Hm s) as (a & s' & -> & Hr).
  destruct (Hk a s') as (b & s'' & -> & Hr').
  exists b, s''. split; [done|]. by etransitivity.
Qed.

Lemma safe_when b m : safe R m → safe R (when b m).
Proof. destruct b; simpl; [done|]. intros _. apply safe_ret. Qed.

Lemma safe_forEach {A} (l : list A) f :
  (∀ x, safe R (f x)) → safe R (forEach l f).
Proof.
  intros H. induction l as [|x l IH]; simpl; [apply safe_ret|].
  apply safe_bind; [apply H|done].
Qed.

Lemma repeatM_safe n m : safe R m → safe R (repeatM n m).
Proof.
  intros H. induction n as [|n IH]; simpl; [apply safe_ret|].
  by apply safe_bind.
Qed.
End frames.

Lemma safe_mono (R R' : relation State) {A} (m : M A) :
  (∀ s s', R s s' → R' s s') → safe R m → safe R' m.
Proof.
  intros H Hm s. destruct (Hm s) as (a & s' & Hrun & Hr). eauto.
Qed.

Lemma frame_mono (R R' : relation State) {A} (m : M A) :
  (∀ s s', R s s' → R' s s') → frame R m → frame R' m.
Proof. intros H Hm s. apply H, Hm. Qed.

Lemma readonly_cases {A} (m : M A) s :
  readonly m → (∃ a, m s = Ok a s) ∨ (∃ e, m s = Throw e s).
Proof.
  intros H. specialize (H s). destruct (m s) as [a s'|e s']; simpl in H; subst; eauto.
Qed.

(** One step of a frame proof, by the shape of the computation; the
    frames of the primitives are collected in the hint database. *)
Create HintDb frames.

Ltac frame_step :=
  lazymatch goal with
  | |- frame _ (bind _ _) => apply frame_bind; [apply _| |intros]
  | |- frame _ (ret _) => apply frame_ret; apply _
  | |- frame _ (throw _) => apply frame_throw; apply _
  | |- frame _ get => apply frame_get; apply _
  | |- frame _ (when _ _) => apply frame_when; [apply _|]
  | |- frame _ (forEach _ _) => apply frame_forEach; [apply _|intros]
  | |- frame _ (if ?b then _ else _) => destruct b
  | |- frame _ (match ?x with _ => _ end) => destruct x
  end.

Ltac safe_step :=
  lazymatch goal with
  | |- safe _ (bind _ _) => apply safe_bind; [apply _| |intros]
  | |- safe _ (ret _) => apply safe_ret; apply _
  | |- safe _ get => apply safe_get; apply _
  | |- safe _ (when _ _) => apply safe_when; [apply _|]
  | |- safe _ (forEach _ _) => apply safe_forEach; [apply _|intros]
  | |- safe _ (repeatM _ _) => apply repeatM_safe; [apply _|]
  | |- safe _ (if ?b then _ else _) => destruct b
  | |- safe _ (match ?x with _ => _ end) => destruct x
  end.

Ltac frames := repeat first [ solve [eauto with frames] | frame_step | safe_step ].

(** *** The frame of everything but the buffer mutations *)

Lemma mutations_app l1 l2 : mutations (l1 ++ l2) = mutations l1 ++ mutations l2.
Proof. apply List.filter_app. Qed.

Global Instance quiet_preorder : PreOrder quiet.
Proof.
  split.
  - intros s. split; [done..|]. exists []. by rewrite app_nil_r.
  - intros s1 s2 s3 [Hv1 Hf1 (l1 & Ht1 & Hm1)] [Hv2 Hf2 (l2 & Ht2 & Hm2)].
    split; [congruence..|]. exists (l1 ++ l2). split.
    + by rewrite Ht2, Ht1, app_assoc.
    + by rewrite mutations_app, Hm1, Hm2.
Qed.

Lemma quiet_mutations s s' :
  quiet s s' → mutations (trace s') = mutations (trace s).
Proof.
  intros [_ _ (l & -> & Hl)]. by rewrite mutations_app, Hl, app_nil_r.
Qed.

Lemma quiet_keep s s' :
  cm_value s' = cm_value s → hasInvalidEdit s' = hasInvalidEdit s →
  trace s' = trace s → quiet s s'.
Proof.
  intros Hv Hf Ht. split; [done..|]. exists []. by rewrite app_nil_r.
Qed.

Lemma quiet_log c s :
  is_mutation c = false → quiet s (set_trace (trace s ++ [c]) s).
Proof.
  intros Hc. split; [done..|]. exists [c]. split; [done|].
  unfold mutations. simpl. by rewrite Hc.
Qed.

Lemma readonly_quiet {A} (m : M A) : readonly m → frame quiet m.
Proof. apply frame_mono. intros s s' <-. reflexivity. Qed.

(** *** Frames of the primitives and of the methods *)
Section method_frames.
Context (env : Env).

Lemma getEl_readonly el : readonly (getEl el).
Proof. intros s. unfold getEl. by destruct (dom s !! el). Qed.

Lemma getEvent_readonly ev : readonly (getEvent ev).
Proof. intros s. unfold getEvent. by destruct (events s !! ev). Qed.

Lemma getAst_readonly : readonly getAst.
Proof. intros s. unfold getAst. by destruct (ast s). Qed.

Lemma findNearestNodeEl_readonly el : readonly (findNearestNodeEl el).
Proof. intros s. unfold findNearestNodeEl. by destruct (climb _ _ _). Qed.

Lemma cm_getRange_readonly from to : readonly (cm_getRange from to).
Proof. by intros s. Qed.

Lemma cm_indexFromPos_readonly p : readonly (cm_indexFromPos p).
Proof. by intros s. Qed.

Hint Resolve getEl_readonly getEvent_readonly getAst_readonly
  findNearestNodeEl_readonly cm_getRange_readonly cm_indexFromPos_readonly
  : frames.

Lemma deref_readonly node : readonly (deref node).
Proof. unfold deref. frames. Qed.

Lemma classList_contains_readonly el c : readonly (classList_contains el c).
Proof. unfold classList_contains. frames. Qed.

Lemma getLocationFromEl_readonly el : readonly (getLocationFromEl el).
Proof. unfold getLocationFromEl. frames. Qed.

Hint Resolve deref_readonly classList_contains_readonly
  getLocationFromEl_readonly : frames.

Lemma findNodeFromEl_readonly el : readonly (findNodeFromEl el).
Proof. unfold findNodeFromEl. frames. Qed.

Hint Resolve findNodeFromEl_readonly : frames.

Lemma isDropTarget_readonly el : readonly (isDropTarget el).
Proof. unfold isDropTarget. frames. Qed.

Lemma modify_quiet f :
  (∀ s, cm_value (f s) = cm_value s) →
  (∀ s, hasInvalidEdit (f s) = hasInvalidEdit s) →
  (∀ s, trace (f s) = trace s) →
  safe quiet (modify f).
Proof. intros Hv Hf Ht. apply safe_modify. intros s. by apply quiet_keep. Qed.

Lemma log_safe c : is_mutation c = false → safe quiet (log c).
Proof. intros Hc. apply safe_modify. intros s. by apply quiet_log. Qed.

Lemma updEl_quiet el f : frame quiet (updEl el f).
Proof.
  unfold updEl. apply frame_bind; [apply _|apply readonly_quiet, getEl_readonly|].
  intros e. by apply safe_frame, modify_quiet.
Qed.

Lemma updEvent_quiet ev f : frame quiet (updEvent ev f).
Proof.
  unfold updEvent.
  apply frame_bind; [apply _|apply readonly_quiet, getEvent_readonly|].
  intros e. by apply safe_frame, modify_quiet.
Qed.

Lemma mark_clear_safe key : safe quiet (mark_clear key).
Proof.
  unfold mark_clear. frames; [by apply modify_quiet|by apply log_safe].
Qed.

Hint Resolve mark_clear_safe : frames.

Lemma clearMarks_safe : safe quiet _clearMarks.
Proof. unfold _clearMarks. frames. Qed.

Lemma renderNode_safe node : safe quiet (renderNode env node).
Proof. by apply modify_quiet. Qed.

Hint Resolve clearMarks_safe renderNode_safe : frames.

Lemma render_safe : safe quiet (render env).
Proof. unfold render. frames. by apply modify_quiet. Qed.

Hint Resolve render_safe : frames.

Lemma handleChange_safe : safe quiet (handleChange env).
Proof. unfold handleChange. frames. Qed.

Hint Resolve handleChange_safe : frames.

Lemma endOperation_safe : safe quiet (endOperation env).
Proof. unfold endOperation. frames; by apply modify_quiet. Qed.

End method_frames.

(** *** Running the primitives *)

Lemma bind_Ok {A B} (m : M A) (k : A → M B) s a s' :
  m s = Ok a s' → bind m k s = k a s'.
Proof. unfold bind. by intros ->. Qed.

Lemma bind_assoc {A B C} (m : M A) (k : A → M B) (k' : B → M C) s :
  bind (bind m k) k' s = bind m (fun a => bind (k a) k') s.
Proof. unfold bind. by destruct (m s). Qed.

Lemma bind_Throw {A B} (m : M A) (k : A → M B) s e s' :
  m s = Throw e s' → bind m k s = Throw e s'.
Proof. unfold bind. by intros ->. Qed.

Lemma getEl_Ok el e s : dom s !! el = Some e → getEl el s = Ok e s.
Proof. unfold getEl. by intros ->. Qed.

Lemma updEl_Ok el f e s :
  dom s !! el = Some e →
  updEl el f s = Ok tt (set_dom (<[el := f e]> (dom s)) s).
Proof. intros H. unfold updEl. by rewrite (bind_Ok _ _ _ _ _ (getEl_Ok _ _ _ H)). Qed.

Lemma getEvent_Ok ev e s : events s !! ev = Some e → getEvent ev s = Ok e s.
Proof. unfold getEvent. by intros ->. Qed.

Lemma updEvent_Ok ev f e s :
  events s !! ev = Some e →
  updEvent ev f s = Ok tt (set_events (<[ev := f e]> (events s)) s).
Proof.
  intros H. unfold updEvent. by rewrite (bind_Ok _ _ _ _ _ (getEvent_Ok _ _ _ H)).
Qed.

Lemma classList_contains_Ok el c e s :
  dom s !! el = Some e →
  classList_contains el c s = Ok (ClassList.contains c (el_classList e)) s.
Proof.
  intros H. unfold classList_contains.
  by rewrite (bind_Ok _ _ _ _ _ (getEl_Ok _ _ _ H)).
Qed.

Lemma DOMTokenList_remove_Ok el c e s :
  dom s !! el = Some e →
  token_error c = None →
  DOMTokenList_remove el c s
  = Ok tt
      (set_dom
         (<[el := el_set_classList (ClassList.remove c (el_classList e)) e]>
            (dom s)) s).
Proof.
  intros H Hc. unfold DOMTokenList_remove, checkToken.
  rewrite (bind_Ok _ _ _ _ _ (getEl_Ok _ _ _ H)), Hc.
  rewrite (bind_Ok _ _ s tt s) by done.
  unfold classList_remove. by rewrite (updEl_Ok _ _ _ _ H).
Qed.

Lemma DOMTokenList_add_Ok el c e s :
  dom s !! el = Some e →
  token_error c = None →
  DOMTokenList_add el c s
  = Ok tt
      (set_dom
         (<[el := el_set_classList (ClassList.add c (el_classList e)) e]>
            (dom s)) s).
Proof.
  intros H Hc. unfold DOMTokenList_add, checkToken.
  rewrite (bind_Ok _ _ _ _ _ (getEl_Ok _ _ _ H)), Hc.
  rewrite (bind_Ok _ _ s tt s) by done.
  unfold classList_add. by rewrite (updEl_Ok _ _ _ _ H).
Qed.

Lemma DOMTokenList_invalid el c e x s :
  dom s !! el = Some e →
  token_error c = Some x →
  DOMTokenList_remove el c s = Throw x s
  ∧ DOMTokenList_add el c s = Throw x s.
Proof.
  intros H Hc. unfold DOMTokenList_remove, DOMTokenList_add, checkToken.
  by rewrite !(bind_Ok _ _ _ _ _ (getEl_Ok _ _ _ H)), Hc.
Qed.

Lemma token_error_truthy cls : token_error cls = None → truthy (Blocks cls) = true.
Proof.
  unfold token_error, truthy. by case_bool_decide.
Qed.

(** Running one step of a sequence whose head is known to return: the
    side goal says what the head returns, and [look] finds the element or
    event it reads in the store. *)
Ltac look :=
  simpl;
  first [ eassumption
        | apply lookup_insert_eq
        | rewrite lookup_insert_eq; reflexivity ].

Ltac run_with tac := erewrite bind_Ok; [|tac].

Ltac run_updEvent := run_with ltac:(apply updEvent_Ok; look).
Ltac run_updEl := run_with ltac:(apply updEl_Ok; look).
Ltac run_getEl := run_with ltac:(apply getEl_Ok; look).
Ltac run_getEvent := run_with ltac:(apply getEvent_Ok; look).

(** ** markText rejects unsupported options *)
Lemma checkOptions_unsupported options s :
  (∃ k, k ∈ options.*1 ∧ k ∉ supportedOptions) →
  ∃ k, k ∈ options.*1 ∧ (k ∉ supportedOptions) ∧
       checkOptions options s = Throw (Error (unsupported_message k)) s.
Proof.
  induction options as [|[k v] rest IH]; intros (k0 & Hin & Hno); simpl in *.
  - by apply elem_of_nil in Hin.
  - destruct (bool_decide (k ∈ supportedOptions)) eqn:Hk.
    + apply bool_decide_eq_true_1 in Hk.
      apply elem_of_cons in Hin as [->|Hin]; [done|].
      destruct IH as (k1 & Hin1 & Hno1 & Hrun); [by eauto|].
      exists k1. split; [by apply elem_of_cons; right|]. done.
    + apply bool_decide_eq_false_1 in Hk.
      exists k. split; [by apply elem_of_cons; left|]. done.
Qed.

(** C9: a call of [markText] whose options hold a key outside
    css / className / title throws an [Error] naming such a key, and
    throws it before anything is touched: the state it throws in is the
    state it was called in, so no mark was created and no element
    decorated. *)
Theorem markText_unsupported_option_throws from to options s :
  (∃ k, k ∈ options.*1 ∧ k ∉ supportedOptions) →
  ∃ k, k ∈ options.*1 ∧ (k ∉ supportedOptions) ∧
       markText from to options s = Throw (Error (unsupported_message k)) s.
Proof.
  intros H. destruct (checkOptions_unsupported options s H) as (k & Hin & Hno & Hrun).
  exists k. split; [done|]. split; [done|].
  unfold markText. by rewrite (bind_Throw _ _ _ _ _ Hrun).
Qed.

Lemma markText_unsupported_option_witness :
  ∃ k, k ∈ ["css"; "readOnly"] ∧ (k ∉ supportedOptions) ∧
       markText (mkPos 0 0) (mkPos 0 3)
         [("css", "color: red"); ("readOnly", "true")]
         (Demo.editor (txt "abc de f"))
       = Throw (Error (unsupported_message k)) (Demo.editor (txt "abc de f")).
Proof.
  apply (markText_unsupported_option_throws (mkPos 0 0) (mkPos 0 3)
           [("css", "color: red"); ("readOnly", "true")]).
  exists "readOnly". split.
  - simpl. apply elem_of_cons. right. apply elem_of_cons. by left.
  - unfold supportedOptions. intros Hin.
    repeat (apply elem_of_cons in Hin as [Hin|Hin]; [discriminate|]).
    by apply elem_of_nil in Hin.
Defined.

(** ** The dispatcher never starts a drag from a blank *)
Section dispatcher_spec.
Context (env : Env).

(** C10: a dragstart event whose target element carries the class
    blocks-blank never reaches [startDraggingNode].  When the target
    resolves to a node the dispatcher stops the event's propagation and
    returns false; otherwise it does nothing at all (or the lookup
    throws).  In every case the DOM is as it was (no element is marked
    blocks-dragging) and the event's drag payload is as it was (no
    text/plain, no text/id attached). *)
Theorem dragstart_on_blank_suppressed ev e el s :
  events s !! ev = Some e →
  ev_type e = "dragstart" →
  dom s !! ev_target e = Some el →
  "blocks-blank" ∈ el_classList el →
  let r := ondragstart env ev s in
  (∀ n, findNodeFromEl (ev_target e) s = Ok (Some n) s →
        r = Ok (Some false) (stopped ev e s))
  ∧ (r = Ok (Some false) (stopped ev e s) ∨ r = Ok None s ∨ ∃ x, r = Throw x s)
  ∧ dom (final r) = dom s
  ∧ ev_data <$> (events (final r) !! ev) = Some (ev_data e)
  ∧ trace (final r) = trace s.
Proof.
  intros Hev Hty Hel Hblank r.
  assert (Hnode : ∀ n, findNodeFromEl (ev_target e) s = Ok (Some n) s →
                       r = Ok (Some false) (stopped ev e s)).
  { intros n Hn. unfold r, ondragstart, nodeEventHandler.
    rewrite (bind_Ok _ _ _ _ _ (getEvent_Ok _ _ _ Hev)).
    rewrite (bind_Ok _ _ _ _ _ Hn). simpl.
    rewrite (bind_Ok _ _ _ _ _ (classList_contains_Ok _ _ _ _ Hel)).
    assert (Hb : ClassList.contains "blocks-blank" (el_classList el) = true)
      by (by apply bool_decide_eq_true_2).
    destruct (ClassList.contains "blocks-white-space" (el_classList el));
      simpl;
      rewrite (bind_Ok _ _ _ _ _ (classList_contains_Ok _ _ _ _ Hel));
      rewrite Hb, Hty; simpl; unfold stopPropagation;
      by rewrite (bind_Ok _ _ _ _ _ (updEvent_Ok _ _ _ _ Hev)). }
  assert (Hcases : r = Ok (Some false) (stopped ev e s) ∨ r = Ok None s
                   ∨ ∃ x, r = Throw x s).
  { destruct (readonly_cases (findNodeFromEl (ev_target e)) s
                (findNodeFromEl_readonly _)) as [[[n|] Hn]|[x Hx]].
    - left. by apply (Hnode n).
    - right. left. unfold r, ondragstart, nodeEventHandler.
      rewrite (bind_Ok _ _ _ _ _ (getEvent_Ok _ _ _ Hev)).
      by rewrite (bind_Ok _ _ _ _ _ Hn).
    - right. right. exists x. unfold r, ondragstart, nodeEventHandler.
      rewrite (bind_Ok _ _ _ _ _ (getEvent_Ok _ _ _ Hev)).
      by rewrite (bind_Throw _ _ _ _ _ Hx). }
  split; [done|]. split; [done|].
  destruct Hcases as [->|[->|[x ->]]]; simpl.
  - split; [done|]. split; [|done]. by rewrite lookup_insert_eq.
  - split; [done|]. split; [|done]. by rewrite Hev.
  - split; [done|]. split; [|done]. by rewrite Hev.
Qed.

End dispatcher_spec.

(** *** Examples of the dispatcher on the instance *)
Module DispatcherRuns.
Import Demo DispatcherExamples.

(** On a literal the same event does start the drag. *)
Example dragstart_on_literal :
  ev_data <$> (events (final (ondragstart env 7 on_literal)) !! 7)
  = Some [("text/plain", txt "de"); ("text/id", txt "1")].
Proof. vm_compute. reflexivity. Qed.

End DispatcherRuns.

Lemma dragstart_on_blank_witness :
  ondragstart Demo.env 7 DispatcherExamples.on_blank
  = Ok (Some false)
      (stopped 7 (Demo.event "dragstart" 101) DispatcherExamples.on_blank).
Proof.
  refine (proj1 (dragstart_on_blank_suppressed Demo.env 7
                   (Demo.event "dragstart" 101) DispatcherExamples.blank_el
                   DispatcherExamples.on_blank _ _ _ _)
            (Demo.literal 1 (mkPos 0 4) (mkPos 0 6)) _).
  - vm_compute. reflexivity.
  - reflexivity.
  - vm_compute. reflexivity.
  - simpl. apply elem_of_cons. right. apply elem_of_cons. by left.
  - vm_compute. reflexivity.
Defined.

(** ** setBlockMode *)

Global Instance same_preorder {A} (f : State → A) : PreOrder (same f).
Proof. split; [by intros s|]. intros s1 s2 s3 H1 H2. unfold same in *. congruence. Qed.

Section setBlockMode_spec.
Context (env : Env).

Lemma mark_clear_same_dom key :
  safe (same (fun s => (dom s, blockMode s))) (mark_clear key).
Proof.
  unfold mark_clear. apply safe_bind; [apply _|apply safe_get; apply _|].
  intros s0. destruct (existsb _ _); [|apply safe_ret; apply _].
  apply safe_bind; [apply _| |intros]; by apply safe_modify.
Qed.

(** A call with the current mode does nothing. *)
Lemma setBlockMode_same s : setBlockMode env (blockMode s) s = Ok tt s.
Proof.
  unfold setBlockMode. rewrite (bind_Ok _ _ _ s s) by done.
  by rewrite decide_True.
Qed.

(** Turning block mode on from off does swap the class, on a renderer
    that leaves the wrapper element alone: the token of the mode that is
    left is removed and the new mode's class applied. *)
Lemma setBlockMode_on_swaps_class cls el s :
  blockMode s = Off →
  token_error cls = None →
  dom s !! cm_wrapper s = Some el →
  (∀ n v, fst (render_node env n v) !! cm_wrapper s = fst v !! cm_wrapper s) →
  ∃ s' el',
    setBlockMode env (Blocks cls) s = Ok tt s'
    ∧ blockMode s' = Blocks cls
    ∧ dom s' !! cm_wrapper s = Some el'
    ∧ el_classList el'
      = ClassList.add cls (ClassList.remove "false" (el_classList el)).
Proof.
  intros Hmode Htok Hel Hkeep. unfold setBlockMode.
  run_with ltac:(reflexivity).
  rewrite decide_False by (rewrite Hmode; discriminate). rewrite Hmode.
  rewrite (token_error_truthy _ Htok). simpl.
  assert (Hrender : safe (same (fun st => dom st !! cm_wrapper s)) (render env)).
  { unfold render, _clearMarks.
    apply safe_bind; [apply _|apply safe_get; apply _|intros s0].
    apply safe_bind; [apply _|by apply safe_modify|intros _].
    apply safe_bind; [apply _| |intros _].
    - apply safe_bind; [apply _|apply safe_get; apply _|intros s1].
      apply safe_forEach; [apply _|intros mark].
      eapply safe_mono; [|apply mark_clear_same_dom].
      unfold same. intros st st' Hst. congruence.
    - apply safe_forEach; [apply _|intros node].
      apply safe_modify. intros st. unfold same. simpl. apply Hkeep. }
  rewrite !bind_assoc.
  erewrite bind_Ok; [|by apply DOMTokenList_remove_Ok].
  rewrite ?bind_assoc.
  erewrite bind_Ok; [|apply DOMTokenList_add_Ok; [look|done]]. simpl.
  match goal with
  | |- context [bind (render env) _ ?st] =>
      destruct (Hrender st) as ([] & s1 & Hrun & Hsame)
  end.
  rewrite (bind_Ok _ _ _ _ _ Hrun).
  eexists _, _. split; [reflexivity|]. simpl. split; [done|].
  unfold same in Hsame. simpl in Hsame. rewrite Hsame.
  rewrite lookup_insert_eq. split; [reflexivity|]. simpl. done.
Qed.

(** C8 (the code departs from it): turning block mode off clears the
    marks and records the new mode but never touches the wrapper
    element: the whole DOM, and with it the wrapper's class list, is
    what it was, so the class of the mode that is left stays applied. *)
Theorem setBlockMode_off_keeps_wrapper_class cls s :
  blockMode s = Blocks cls →
  ∃ s', setBlockMode env Off s = Ok tt s'
        ∧ blockMode s' = Off
        ∧ dom s' = dom s.
Proof.
  intros Hmode. unfold setBlockMode.
  rewrite (bind_Ok _ _ _ s s) by done.
  rewrite decide_False by (rewrite Hmode; discriminate).
  destruct (safe_forEach (same (fun s => (dom s, blockMode s))) (cm_marks s)
              (fun marker => mark_clear (mark_key marker))
              (fun x => mark_clear_same_dom (mark_key x)) s)
    as (a & s1 & Hrun & Hsame).
  rewrite (bind_Ok _ _ _ _ _ Hrun).
  eexists. split; [reflexivity|]. simpl. split; [done|].
  unfold same in Hsame. congruence.
Qed.

End setBlockMode_spec.

Lemma setBlockMode_off_witness :
  ∃ s', setBlockMode Demo.env Off (Demo.editor (txt "abc de f")) = Ok tt s'
        ∧ blockMode s' = Off
        ∧ dom s' = dom (Demo.editor (txt "abc de f")).
Proof.
  apply (setBlockMode_off_keeps_wrapper_class Demo.env "blocks").
  vm_compute. reflexivity.
Defined.

(** On the instance: the wrapper still carries "blocks" after the mode is
    turned off, while turning it on from off applies the class. *)
Example setBlockMode_off_example :
  el_classList <$>
    (dom (final (setBlockMode Demo.env Off (Demo.editor (txt "abc de f"))))
       !! Demo.wrapper)
  = Some ["CodeMirror"; "blocks"].
Proof. vm_compute. reflexivity. Qed.

Example setBlockMode_on_example :
  el_classList <$>
    (dom (final (setBlockMode Demo.env (Blocks "blocks")
                   (set_blockMode Off
                      (Demo.with_element Demo.wrapper (Demo.plain ["CodeMirror"])
                         (Demo.editor (txt "abc de f"))))))
       !! Demo.wrapper)
  = Some ["CodeMirror"; "blocks"].
Proof. vm_compute. reflexivity. Qed.

(** ** Drops *)

Lemma set_trace_nil s : set_trace (trace s ++ []) s = s.
Proof. destruct s. unfold set_trace. simpl. by rewrite app_nil_r. Qed.

Lemma when_log b c s :
  when b (log c) s = Ok tt (set_trace (trace s ++ (if b then [c] else [])) s).
Proof. destruct b; simpl; [done|]. unfold ret. by rewrite set_trace_nil. Qed.

Lemma getLocationFromEl_Ok el e s :
  dom s !! el = Some e →
  getLocationFromEl el s
  = Ok (match el_line e, el_ch e with
        | Some l, Some c => Some (mkPos l c)
        | _, _ => None
        end) s.
Proof.
  intros H. unfold getLocationFromEl.
  rewrite (bind_Ok _ _ _ _ _ (getEl_Ok _ _ _ H)).
  by destruct (el_line e), (el_ch e).
Qed.

Lemma getAst_Ok tree s : ast s = Some tree → getAst s = Ok tree s.
Proof. unfold getAst. by intros ->. Qed.

Lemma mutations_console b msg :
  mutations (if b : bool then [ConsoleError msg] else []) = [].
Proof. by destruct b. Qed.

Section drop_spec.
Context (env : Env).

Lemma same_place_refl p : same_place p p = true.
Proof. unfold same_place. by rewrite !bool_decide_eq_true_2. Qed.

(** C5: a drop whose resolved destination is exactly the start or the
    end position of the dragged source node never mutates the buffer:
    whatever the destination node, however the handler ends, the buffer
    text is what it was and no [replaceRange] was issued; on a drop
    target the handler returns normally. *)
Theorem drop_on_own_boundary_is_noop destinationNode ev e source d s :
  events s !! ev = Some e →
  drop_source s e = Some source →
  drop_destination env s e = Some d →
  d = node_from source ∨ d = node_to source →
  let r := dropOntoNode env destinationNode ev s in
  cm_value (final r) = cm_value s
  ∧ mutations (trace (final r)) = mutations (trace s)
  ∧ (isDropTarget (ev_target e) s = Ok true s → ∃ s', r = Ok tt s').
Proof.
  intros Hev Hsrc Hdst Hd r. unfold r, dropOntoNode.
  run_getEvent.
  destruct (readonly_cases (isDropTarget (ev_target e)) s
              (isDropTarget_readonly _)) as [[[|] Ht]|[x Hx]].
  2:{ rewrite (bind_Ok _ _ _ _ _ Ht). simpl. split; [done|]. split; [done|].
      congruence. }
  2:{ rewrite (bind_Throw _ _ _ _ _ Hx). simpl. split; [done|]. split; [done|].
      congruence. }
  rewrite (bind_Ok _ _ _ _ _ Ht). simpl.
  unfold drop_source in Hsrc. destruct (ast s) as [tree|] eqn:Hast; [|done].
  unfold drop_destination in Hdst.
  destruct (dom s !! ev_target e) as [el|] eqn:Hel; [|done].
  unfold preventDefault, stopPropagation, classList_remove.
  run_updEvent. run_updEvent. run_updEl.
  run_with ltac:(apply when_log).
  run_with ltac:(apply getAst_Ok; simpl; exact Hast).
  rewrite Hsrc. rewrite bool_decide_eq_false_2 by done.
  run_with ltac:(reflexivity). run_with ltac:(reflexivity).
  run_with ltac:(reflexivity).
  run_with ltac:(apply getLocationFromEl_Ok; look).
  simpl el_line. simpl el_ch.
  match goal with
  | |- context [same_place ?x (node_to source) || same_place ?y _] =>
      assert (x = d) as ->
  end.
  { simpl. destruct (el_line el), (el_ch el); simpl in *; congruence. }
  assert (same_place d (node_to source) || same_place d (node_from source) = true)
    as ->.
  { destruct Hd as [->| ->]; rewrite same_place_refl; [apply orb_true_r|done]. }
  simpl. split; [done|]. split; [|by eauto].
  by rewrite mutations_app, mutations_console, app_nil_r.
Qed.

(** C2 (the code departs from it): on a drop target, a payload whose id
    names no node of the current tree is reported with [console.error],
    and then the handler goes on to read [sourceNode.from] of the missing
    node: it ends in a TypeError.  The buffer is not mutated. *)
Theorem drop_of_stale_source_throws destinationNode ev e el tree s :
  events s !! ev = Some e →
  dom s !! ev_target e = Some el →
  isDropTarget (ev_target e) s = Ok true s →
  ast s = Some tree →
  nodeMap tree !! string_of_list_ascii (getData (ev_data e) "text/id") = None →
  ∃ s', dropOntoNode env destinationNode ev s
        = Throw (TypeError "node is undefined") s'
        ∧ cm_value s' = cm_value s
        ∧ mutations (trace s') = mutations (trace s)
        ∧ ConsoleError
            ("node " +:+ string_of_list_ascii (getData (ev_data e) "text/id")
               +:+ " not found in AST") ∈ trace s'.
Proof.
  intros Hev Hel Ht Hast Hsrc. unfold dropOntoNode.
  run_getEvent. rewrite (bind_Ok _ _ _ _ _ Ht). simpl.
  unfold preventDefault, stopPropagation, classList_remove.
  run_updEvent. run_updEvent. run_updEl.
  run_with ltac:(apply when_log).
  run_with ltac:(apply getAst_Ok; simpl; exact Hast).
  rewrite Hsrc. rewrite bool_decide_eq_true_2 by done.
  run_with ltac:(reflexivity).
  erewrite bind_Throw; [|reflexivity].
  eexists. split; [reflexivity|]. simpl. split; [done|]. split.
  - rewrite !mutations_app, mutations_console. simpl. by rewrite !app_nil_r.
  - apply elem_of_app. right. apply elem_of_cons. by left.
Qed.

(** Every other drop on a drop target runs the relocation, inside one
    operation, on the buffer as it was: what precedes it only marks the
    event and the target element and writes to the console. *)
Lemma dropOntoNode_runs_operation destinationNode ev e el tree source s :
  events s !! ev = Some e →
  dom s !! ev_target e = Some el →
  isDropTarget (ev_target e) s = Ok true s →
  ast s = Some tree →
  nodeMap tree !! string_of_list_ascii (getData (ev_data e) "text/id")
  = Some source →
  let text := Buffer.getRange (cm_value s) (node_from source) (node_to source) in
  let pointer := coordsChar env (ev_pageX e) (ev_pageY e) in
  let drop := match el_line el, el_ch el with
              | Some l, Some c => (mkPos l c, text)
              | _, _ => (fst pointer, if snd pointer then newline :: text else text)
              end in
  same_place (fst drop) (node_to source)
  || same_place (fst drop) (node_from source) = false →
  ∃ s0,
    dropOntoNode env destinationNode ev s
    = cm_operation env
        (dropOperation env source (snd drop) (fst drop) destinationNode) s0
    ∧ cm_value s0 = cm_value s
    ∧ mutations (trace s0) = mutations (trace s).
Proof.
  intros Hev Hel Ht Hast Hsrc text pointer drop Hfar. unfold dropOntoNode.
  run_getEvent. rewrite (bind_Ok _ _ _ _ _ Ht). simpl.
  unfold preventDefault, stopPropagation, classList_remove.
  run_updEvent. run_updEvent. run_updEl.
  run_with ltac:(apply when_log).
  run_with ltac:(apply getAst_Ok; simpl; exact Hast).
  rewrite Hsrc. rewrite bool_decide_eq_false_2 by done.
  run_with ltac:(reflexivity). run_with ltac:(reflexivity).
  run_with ltac:(reflexivity).
  run_with ltac:(apply getLocationFromEl_Ok; look).
  simpl.
  match goal with
  | |- context [same_place (fst ?x) (node_to source)] =>
      assert (x = drop) as ->
  end.
  { subst drop text pointer. by destruct (el_line el), (el_ch el). }
  rewrite Hfar.
  eexists. split; [reflexivity|]. simpl. split; [done|].
  by rewrite mutations_app, mutations_console, app_nil_r.
Qed.

End drop_spec.

(** *** Drops on the instance *)
Module DropRuns.
Import Demo DropExamples.

(** Moving the first word to the end of the line. *)
Example drop_moves_word :
  cm_value (final (dropHandler env 7 (dropping 8 "0"))) = txt " de fabc".
Proof. vm_compute. reflexivity. Qed.

End DropRuns.

Lemma drop_on_own_boundary_witness :
  let r := dropOntoNode Demo.env None 7 (DropExamples.dropping 3 "0") in
  cm_value (final r) = cm_value (DropExamples.dropping 3 "0")
  ∧ mutations (trace (final r)) = mutations (trace (DropExamples.dropping 3 "0"))
  ∧ (isDropTarget (ev_target (DropExamples.drop_at 3 "0"))
       (DropExamples.dropping 3 "0")
     = Ok true (DropExamples.dropping 3 "0") → ∃ s', r = Ok tt s').
Proof.
  apply (drop_on_own_boundary_is_noop Demo.env None 7 (DropExamples.drop_at 3 "0")
           DropExamples.word0 (mkPos 0 3)).
  - vm_compute. reflexivity.
  - vm_compute. reflexivity.
  - vm_compute. reflexivity.
  - right. reflexivity.
Defined.

Lemma drop_of_stale_source_witness :
  ∃ s', dropOntoNode Demo.env None 7 (DropExamples.dropping 8 "9")
        = Throw (TypeError "node is undefined") s'
        ∧ cm_value s' = cm_value (DropExamples.dropping 8 "9")
        ∧ mutations (trace s') = mutations (trace (DropExamples.dropping 8 "9"))
        ∧ ConsoleError "node 9 not found in AST" ∈ trace s'.
Proof.
  apply (drop_of_stale_source_throws Demo.env None 7 (DropExamples.drop_at 8 "9")
           (Demo.plain ["CodeMirror"; "blocks"])
           (Demo.parse (txt "abc de f"))).
  - vm_compute. reflexivity.
  - vm_compute. reflexivity.
  - vm_compute. reflexivity.
  - vm_compute. reflexivity.
  - vm_compute. reflexivity.
Defined.

(** ** Offset safety of the relocation *)
Section offset_safety.
Import Buffer.

Lemma stop_le_length doc r : stop doc r ≤ List.length doc.
Proof. unfold stop, start. destruct (snd r); apply indexFrom_le. Qed.

Lemma replaceRange_wf doc t r :
  wf_range doc r →
  replaceRange doc t (fst r) (snd r) = splice doc (start doc r) (stop doc r) t.
Proof.
  intros (_ & _ & Hle). unfold replaceRange, stop, start in *.
  destruct (snd r); by rewrite decide_False by lia.
Qed.

(** A well-formed range keeps its offsets under an edit that starts at or
    after its end. *)
Lemma range_after_splice doc r i j t :
  wf_range doc r → stop doc r ≤ i → i ≤ j →
  start (splice doc i j t) r = start doc r
  ∧ stop (splice doc i j t) r = stop doc r
  ∧ wf_range (splice doc i j t) r.
Proof.
  intros (Hf & Ht & Hle) Hi Hij.
  assert (Hs : start (splice doc i j t) r = start doc r).
  { unfold start. apply indexFromPos_splice_after; [done| |done].
    unfold start in Hle. lia. }
  assert (He : stop (splice doc i j t) r = stop doc r).
  { unfold stop in *. destruct (snd r) as [p|]; [|done].
    by apply indexFromPos_splice_after. }
  split; [done|]. split; [done|]. split; [|split].
  - unfold validPos, splice. unfold start in Hle.
    set (k := indexFromPos doc (fst r)).
    assert (take i doc = take k doc ++ drop k (take i doc)) as ->.
    { rewrite <- (take_drop k (take i doc)) at 1.
      by rewrite take_take, Nat.min_l by (unfold k; lia). }
    rewrite <- app_assoc. by apply validAt_prefix.
  - unfold stop in Hi. destruct (snd r) as [p|]; [|done].
    unfold validPos, splice.
    set (k := indexFromPos doc p) in *.
    assert (take i doc = take k doc ++ drop k (take i doc)) as ->.
    { rewrite <- (take_drop k (take i doc)) at 1.
      by rewrite take_take, Nat.min_l by lia. }
    rewrite <- app_assoc. by apply validAt_prefix.
  - by rewrite Hs, He.
Qed.

(** "Replace B, then clear A" with A entirely before B. *)
Lemma replace_then_clear doc a b ta tb :
  wf_range doc a → wf_range doc b → before doc a b →
  replaceRange (replaceRange doc tb (fst b) (snd b)) ta (fst a) (snd a)
  = simultaneous doc (start doc a) (stop doc a) ta
      (start doc b) (stop doc b) tb.
Proof.
  intros Ha Hb Hab. rewrite (replaceRange_wf doc tb b Hb).
  pose proof Hb as (_ & _ & Hble).
  destruct (range_after_splice doc a (start doc b) (stop doc b) tb Ha Hab Hble)
    as (Hs & He & Hwf).
  rewrite (replaceRange_wf _ ta a Hwf), Hs, He.
  destruct Ha as (_ & _ & Hale).
  apply splice_later_then_earlier; [done|done|done|apply stop_le_length].
Qed.

(** "Clear A, then replace B" with B entirely before A. *)
Lemma clear_then_replace doc a b ta tb :
  wf_range doc a → wf_range doc b → before doc b a →
  replaceRange (replaceRange doc ta (fst a) (snd a)) tb (fst b) (snd b)
  = simultaneous doc (start doc b) (stop doc b) tb
      (start doc a) (stop doc a) ta.
Proof. intros Ha Hb Hba. by apply replace_then_clear. Qed.

(** The order [dropOntoNode] falls back on when the source does not start
    before the destination, in the one case where the source still lies
    before it: an empty source at the destination's start. *)
Lemma clear_empty_then_replace doc a b tb :
  wf_range doc a → wf_range doc b → before doc a b →
  start doc b ≤ start doc a →
  replaceRange (replaceRange doc [] (fst a) (snd a)) tb (fst b) (snd b)
  = simultaneous doc (start doc a) (stop doc a) []
      (start doc b) (stop doc b) tb.
Proof.
  intros Ha Hb Hab Hle. pose proof Ha as (_ & _ & Hale).
  pose proof Hb as (_ & _ & Hble). unfold before in Hab.
  rewrite (replaceRange_wf doc [] a Ha).
  assert (stop doc a = start doc a) as Hp by lia.
  assert (start doc b = start doc a) as Hq by lia.
  assert (splice doc (start doc a) (stop doc a) [] = doc) as ->.
  { unfold splice. rewrite Hp. simpl. apply take_drop. }
  rewrite (replaceRange_wf doc tb b Hb). unfold splice, simultaneous.
  rewrite Hp, Hq. simpl.
  rewrite (drop_ge (take _ _)) by (rewrite length_take; lia). done.
Qed.

End offset_safety.

Section drop_operation_spec.
Context (env : Env).
Import Buffer.

(** Inside an operation a [replaceRange] splices, is recorded, and
    holds its notification back. *)
Lemma cm_replaceRange_held text from to s :
  cm_inOperation s = true →
  cm_replaceRange env text from to s
  = Ok tt
      (set_cm_pending (S (cm_pending s))
         (set_trace (trace s ++ [ReplaceRange text from to])
            (set_cm_value (replaceRange (cm_value s) text from to) s))).
Proof. intros H. unfold cm_replaceRange, bind, modify, log, get. simpl. by rewrite H. Qed.

Lemma two_edits_held t1 f1 to1 t2 f2 to2 s :
  cm_inOperation s = true →
  ∃ s2, (cm_replaceRange env t1 f1 to1 ;; cm_replaceRange env t2 f2 to2) s
        = Ok tt s2
        ∧ cm_value s2
          = replaceRange (replaceRange (cm_value s) t1 f1 to1) t2 f2 to2
        ∧ trace s2
          = trace s ++ [ReplaceRange t1 f1 to1; ReplaceRange t2 f2 to2]
        ∧ hasInvalidEdit s2 = hasInvalidEdit s.
Proof.
  intros H. eexists. split.
  - rewrite (bind_Ok _ _ _ _ _ (cm_replaceRange_held _ _ _ _ H)).
    by rewrite cm_replaceRange_held.
  - simpl. by rewrite <- app_assoc.
Qed.

(** Leaving the operation delivers the notifications: the tree is
    rendered again, the buffer is not touched. *)
Lemma cm_operation_Ok f s s2 :
  f (set_cm_inOperation true s) = Ok tt s2 →
  ∃ s', cm_operation env f s = Ok tt s' ∧ quiet s2 s'.
Proof.
  intros Hf. unfold cm_operation. rewrite Hf.
  destruct (cm_inOperation s).
  - exists s2. split; [done|reflexivity].
  - destruct (endOperation_safe env s2) as ([] & s' & Hrun & Hq). eauto.
Qed.

Lemma dropOperation_held sourceNode sourceNodeText destination destinationNode s :
  cm_inOperation s = true →
  let doc := cm_value s in
  let a := source_range sourceNode in
  let b := destination_range destination destinationNode in
  let t := dropped_text env sourceNode sourceNodeText destination destinationNode in
  ∃ s2, dropOperation env sourceNode sourceNodeText destination destinationNode s
        = Ok tt s2
        ∧ cm_value s2
          = (if start doc a <? start doc b
             then replaceRange (replaceRange doc t (fst b) (snd b)) [] (fst a) (snd a)
             else replaceRange (replaceRange doc [] (fst a) (snd a)) t (fst b) (snd b))
        ∧ mutations (trace s2)
          = mutations (trace s)
            ++ (if start doc a <? start doc b
                then [ReplaceRange t (fst b) (snd b); ReplaceRange [] (fst a) (snd a)]
                else [ReplaceRange [] (fst a) (snd a); ReplaceRange t (fst b) (snd b)]).
Proof.
  intros Hop doc a b t. unfold dropOperation.
  destruct (is_literal destinationNode) eqn:Hlit.
  - destruct destinationNode as [dn|]; [|done]. simpl in Hlit.
    subst a b t. unfold destination_range, dropped_text. simpl.
    rewrite Hlit. simpl.
    run_with ltac:(reflexivity). run_with ltac:(reflexivity).
    run_with ltac:(reflexivity).
    change (Buffer.indexFromPos (cm_value s) (node_from sourceNode))
      with (start doc (source_range sourceNode)).
    change (Buffer.indexFromPos (cm_value s) (node_from dn))
      with (start doc (node_from dn, Some (node_to dn))).
    destruct (start doc (source_range sourceNode)
              <? start doc (node_from dn, Some (node_to dn)));
      match goal with
      | |- context [(cm_replaceRange env ?t1 ?f1 ?o1 ;; cm_replaceRange env ?t2 ?f2 ?o2) s] =>
          destruct (two_edits_held t1 f1 o1 t2 f2 o2 s Hop)
            as (s2 & -> & Hv & Ht & _)
      end;
      (exists s2; split; [done|]; split; [done|]; by rewrite Ht, mutations_app).
  - assert (b = (destination, None)) as Hb.
    { subst b. unfold destination_range. destruct destinationNode as [dn|]; [|done].
      simpl in Hlit. by rewrite Hlit. }
    assert (t = match willInsertNode env with
                | Some hook => hook sourceNodeText sourceNode destination destinationNode
                | None => sourceNodeText
                end) as Ht'.
    { subst t. unfold dropped_text. by rewrite Hlit. }
    rewrite <- Ht'. rewrite Hb. simpl fst. simpl snd.
    run_with ltac:(reflexivity). run_with ltac:(reflexivity).
    change (Buffer.indexFromPos (cm_value s) (node_from sourceNode))
      with (start doc a).
    change (Buffer.indexFromPos (cm_value s) destination)
      with (start doc (destination, None)).
    destruct (start doc a <? start doc (destination, None));
      match goal with
      | |- context [(cm_replaceRange env ?t1 ?f1 ?o1 ;; cm_replaceRange env ?t2 ?f2 ?o2)] =>
          destruct (two_edits_held t1 f1 o1 t2 f2 o2 s Hop)
            as (s2 & Hrun & Hv & Ht & _)
      end;
      rewrite (bind_Ok _ _ _ _ _ Hrun);
      rewrite when_log;
      (eexists; split; [reflexivity|]; simpl; split; [done|]);
      rewrite Ht, !mutations_app; simpl;
      destruct (didInsertNode env); simpl; by rewrite ?app_nil_r.
Qed.

(** The relocation on its own, as the function handed to [cm.operation]:
    it returns, issues its two mutations in the order the source and the
    destination call for, and for ranges that lie one before the other
    ends with the text of both edits taken at once. *)
Lemma dropOperation_offset_safe
    sourceNode sourceNodeText destination destinationNode s :
  let doc := cm_value s in
  let a := source_range sourceNode in
  let b := destination_range destination destinationNode in
  let t := dropped_text env sourceNode sourceNodeText destination destinationNode in
  wf_range doc a → wf_range doc b →
  ∃ s',
    cm_operation env
      (dropOperation env sourceNode sourceNodeText destination destinationNode) s
    = Ok tt s'
    ∧ mutations (trace s')
      = mutations (trace s)
        ++ (if start doc a <? start doc b
            then [ReplaceRange t (fst b) (snd b); ReplaceRange [] (fst a) (snd a)]
            else [ReplaceRange [] (fst a) (snd a); ReplaceRange t (fst b) (snd b)])
    ∧ (before doc a b →
       replaceRange (replaceRange doc t (fst b) (snd b)) [] (fst a) (snd a)
       = simultaneous doc (start doc a) (stop doc a) [] (start doc b) (stop doc b) t
       ∧ cm_value s'
         = simultaneous doc (start doc a) (stop doc a) [] (start doc b) (stop doc b) t)
    ∧ (before doc b a →
       replaceRange (replaceRange doc [] (fst a) (snd a)) t (fst b) (snd b)
       = simultaneous doc (start doc b) (stop doc b) t (start doc a) (stop doc a) []
       ∧ cm_value s'
         = simultaneous doc (start doc b) (stop doc b) t (start doc a) (stop doc a) []).
Proof.
  intros doc a b t Ha Hb.
  destruct (dropOperation_held sourceNode sourceNodeText destination
              destinationNode (set_cm_inOperation true s) eq_refl)
    as (s2 & Hrun & Hv & Hm).
  destruct (cm_operation_Ok _ s s2 Hrun) as (s' & Hop & Hq).
  exists s'. split; [done|]. split.
  { rewrite (quiet_mutations _ _ Hq). exact Hm. }
  rewrite (quiet_value _ _ Hq), Hv. simpl cm_value. fold doc a b t.
  pose proof Ha as (_ & _ & Hale). pose proof Hb as (_ & _ & Hble).
  split.
  - intros Hab. split; [by apply replace_then_clear|].
    destruct (start doc a <? start doc b) eqn:Hlt.
    + by apply replace_then_clear.
    + apply Nat.ltb_ge in Hlt. by apply clear_empty_then_replace.
  - intros Hba. split; [by apply clear_then_replace|].
    destruct (start doc a <? start doc b) eqn:Hlt.
    + apply Nat.ltb_lt in Hlt. unfold before in Hba. lia.
    + by apply clear_then_replace.
Qed.

(** C1: a drop handled by [dropOntoNode] is offset safe.  Take a drop on
    a drop target whose payload names a node of the tree, away from that
    node's own boundaries; let A be the source node's range, B the
    destination range (the destination literal's range, or the insertion
    point the drop resolves to) and [t] the text dropped in, A and B both
    naming places of the buffer.  Then:
    - [dropOntoNode] returns, and the buffer mutations it makes are
      exactly two: "replace B, clear A" when the source starts before the
      destination and "clear A, replace B" otherwise;
    - when A lies entirely before B, "replace B, then clear A" gives the
      text of both edits taken at once against the original offsets,
      and that is the buffer [dropOntoNode] leaves;
    - when B lies entirely before A, "clear A, then replace B" gives that
      text, and that is the buffer [dropOntoNode] leaves. *)
Theorem dropOntoNode_offset_safe destinationNode ev e el tree source s :
  events s !! ev = Some e →
  dom s !! ev_target e = Some el →
  isDropTarget (ev_target e) s = Ok true s →
  ast s = Some tree →
  nodeMap tree !! string_of_list_ascii (getData (ev_data e) "text/id")
  = Some source →
  let doc := cm_value s in
  let text := getRange doc (node_from source) (node_to source) in
  let pointer := coordsChar env (ev_pageX e) (ev_pageY e) in
  let drop := match el_line el, el_ch el with
              | Some l, Some c => (mkPos l c, text)
              | _, _ => (fst pointer, if snd pointer then newline :: text else text)
              end in
  let a := source_range source in
  let b := destination_range (fst drop) destinationNode in
  let t := dropped_text env source (snd drop) (fst drop) destinationNode in
  same_place (fst drop) (node_to source)
  || same_place (fst drop) (node_from source) = false →
  wf_range doc a → wf_range doc b →
  ∃ s',
    dropOntoNode env destinationNode ev s = Ok tt s'
    ∧ mutations (trace s')
      = mutations (trace s)
        ++ (if start doc a <? start doc b
            then [ReplaceRange t (fst b) (snd b); ReplaceRange [] (fst a) (snd a)]
            else [ReplaceRange [] (fst a) (snd a); ReplaceRange t (fst b) (snd b)])
    ∧ (before doc a b →
       replaceRange (replaceRange doc t (fst b) (snd b)) [] (fst a) (snd a)
       = simultaneous doc (start doc a) (stop doc a) [] (start doc b) (stop doc b) t
       ∧ cm_value s'
         = simultaneous doc (start doc a) (stop doc a) [] (start doc b) (stop doc b) t)
    ∧ (before doc b a →
       replaceRange (replaceRange doc [] (fst a) (snd a)) t (fst b) (snd b)
       = simultaneous doc (start doc b) (stop doc b) t (start doc a) (stop doc a) []
       ∧ cm_value s'
         = simultaneous doc (start doc b) (stop doc b) t (start doc a) (stop doc a) []).
Proof.
  intros Hev Hel Htarget Hast Hsrc doc text pointer drop a b t Hfar Ha Hb.
  destruct (dropOntoNode_runs_operation env destinationNode ev e el tree
              source s Hev Hel Htarget Hast Hsrc Hfar)
    as (s0 & Hrun & Hv & Hm).
  fold doc text pointer drop in Hrun, Hv.
  destruct (dropOperation_offset_safe source (snd drop) (fst drop)
              destinationNode s0) as (s' & Hop & Hmut & Hab & Hba).
  { rewrite Hv. exact Ha. }
  { rewrite Hv. exact Hb. }
  rewrite Hv in Hmut, Hab, Hba. fold doc a b t in Hmut, Hab, Hba.
  exists s'. split; [by rewrite Hrun|].
  split; [by rewrite Hmut, Hm|]. split; assumption.
Qed.

End drop_operation_spec.

Lemma dropOntoNode_offset_safe_witness :
  ∃ s',
    dropOntoNode Demo.env None 7 (DropExamples.dropping 8 "0") = Ok tt s'
    ∧ cm_value s' = txt " de fabc".
Proof.
  destruct (dropOntoNode_offset_safe Demo.env None 7 (DropExamples.drop_at 8 "0")
              (Demo.plain ["CodeMirror"; "blocks"])
              (Demo.parse (txt "abc de f")) DropExamples.word0
              (DropExamples.dropping 8 "0"))
    as (s' & Hrun & _ & Hab & _).
  - vm_compute. reflexivity.
  - vm_compute. reflexivity.
  - vm_compute. reflexivity.
  - reflexivity.
  - vm_compute. reflexivity.
  - vm_compute. reflexivity.
  - split; [vm_compute; reflexivity|]. split; [vm_compute; reflexivity|].
    vm_compute. lia.
  - split; [vm_compute; reflexivity|]. split; [vm_compute; reflexivity|].
    vm_compute. lia.
  - exists s'. split; [exact Hrun|].
    destruct Hab as [_ ->]; [vm_compute; lia|]. vm_compute. reflexivity.
Defined.

(** ** In-place editing: commit and refusal *)
Section saveEdit_spec.
Context (env : Env).

Lemma cm_replaceRange_run text from to s :
  ∃ s', cm_replaceRange env text from to s = Ok tt s'
        ∧ quiet
            (set_trace (trace s ++ [ReplaceRange text from to])
               (set_cm_value (Buffer.replaceRange (cm_value s) text from to) s))
            s'.
Proof.
  unfold cm_replaceRange, bind, modify, log, get. simpl.
  destruct (cm_inOperation s).
  - eexists. split; [reflexivity|]. by apply quiet_keep.
  - destruct (handleChange_safe env
                (set_trace (trace s ++ [ReplaceRange text from to])
                   (set_cm_value (Buffer.replaceRange (cm_value s) text from to) s)))
      as ([] & s' & Hrun & Hq).
    exists s'. split; [exact Hrun|done].
Qed.

Lemma mark_clear_run key s :
  mark_clear key s
  = Ok tt
      (if existsb (fun m => bool_decide (mark_key m = key)) (cm_marks s)
       then set_trace (trace s ++ [ClearMark key])
              (set_cm_marks
                 (List.filter
                    (fun m => negb (bool_decide (mark_key m = key)))
                    (cm_marks s)) s)
       else s).
Proof.
  unfold mark_clear, bind, get, modify, log. by destruct (existsb _ _).
Qed.

(** A commit: the edited text lexes. *)
Lemma saveEdit_commit node nodeEl ev e el s :
  events s !! ev = Some e →
  dom s !! nodeEl = Some el →
  parser_lex env (el_innerText el) = None →
  ∃ s' rest,
    saveEdit env node nodeEl ev s = Ok tt s'
    ∧ cm_value s'
      = Buffer.replaceRange (cm_value s)
          (committed_text node (el_innerText el))
          (node_from node) (Some (node_to node))
    ∧ trace s'
      = trace s ++ released node s
        ++ [ReplaceRange (committed_text node (el_innerText el))
              (node_from node) (Some (node_to node))]
        ++ rest
    ∧ mutations rest = []
    ∧ hasInvalidEdit s' = hasInvalidEdit s.
Proof.
  intros Hev Hel Hlex. unfold saveEdit, preventDefault.
  run_updEvent. run_getEl. unfold checkEditableEl. rewrite Hlex.
  run_with ltac:(run_updEl; reflexivity). simpl.
  unfold committed_text, released.
  assert (Hstep : ∀ st elt pre text,
            dom st !! nodeEl = Some elt →
            cm_value st = cm_value s → trace st = trace s ++ pre →
            hasInvalidEdit st = hasInvalidEdit s →
            el_innerText elt = text →
            ∃ s' rest,
              (e' <- getEl nodeEl ;;
               saveEditableEl env nodeEl (el_innerText e')
                 (Some (node_from node, node_to node))) st = Ok tt s'
              ∧ cm_value s'
                = Buffer.replaceRange (cm_value s) text
                    (node_from node) (Some (node_to node))
              ∧ trace s'
                = trace s ++ pre
                  ++ [ReplaceRange text (node_from node)
                        (Some (node_to node))] ++ rest
              ∧ mutations rest = []
              ∧ hasInvalidEdit s' = hasInvalidEdit s).
  { intros st elt pre text Hdom Hval Htr Hflag <-.
    run_getEl. unfold saveEditableEl, classList_remove.
    run_updEl. simpl. run_updEl. simpl. run_updEl. simpl.
    run_updEl. simpl. run_updEl. simpl.
    match goal with
    | |- context [cm_replaceRange env ?t ?f ?o ?st'] =>
        destruct (cm_replaceRange_run t f o st') as (s' & Hrun & Hq)
    end.
    destruct Hq as [Hqv Hqf (rest & Hqt & Hqm)]. simpl in *.
    exists s', rest. split; [exact Hrun|].
    split; [by rewrite Hqv, Hval|].
    split; [by rewrite Hqt, Htr, <- !app_assoc|].
    split; [done|]. congruence. }
  destruct (node_quarantine node) as [bookmark|].
  - run_with ltac:(run_updEl; apply mark_clear_run). simpl.
    destruct (existsb _ (cm_marks s)).
    + eapply (Hstep _ _ [ClearMark bookmark]);
        [simpl; by rewrite lookup_insert_eq|reflexivity..].
    + eapply (Hstep _ _ []);
        [simpl; by rewrite lookup_insert_eq|reflexivity
        |simpl; by rewrite app_nil_r|reflexivity..].
  - run_with ltac:(reflexivity).
    eapply (Hstep _ _ []);
      [simpl; by rewrite lookup_insert_eq|reflexivity
      |simpl; by rewrite app_nil_r|reflexivity..].
Qed.

Lemma ClassList_add_elem c l : c ∈ ClassList.add c l.
Proof.
  unfold ClassList.add, ClassList.contains. case_bool_decide; [done|].
  apply elem_of_app. right. apply elem_of_cons. by left.
Qed.

(** A refusal: the edited text does not lex. *)
Lemma saveEdit_refused node nodeEl ev e el err s :
  events s !! ev = Some e →
  dom s !! nodeEl = Some el →
  parser_lex env (el_innerText el) = Some err →
  ∃ s' el',
    saveEdit env node nodeEl ev s = Ok tt s'
    ∧ cm_value s' = cm_value s
    ∧ mutations (trace s') = mutations (trace s)
    ∧ timers s' = timers s ++ [TEditLiteral node ev]
    ∧ hasInvalidEdit s' = true
    ∧ events s' !! ev = Some (ev_set_defaultPrevented true e)
    ∧ dom s' !! nodeEl = Some el'
    ∧ "blocks-error" ∈ el_classList el'
    ∧ el_innerText el' = el_innerText el.
Proof.
  intros Hev Hel Hlex. unfold saveEdit, preventDefault.
  run_updEvent. run_getEl. unfold checkEditableEl. rewrite Hlex.
  unfold classList_add.
  destruct (parser_getExceptionMessage env err) as [e'|msg].
  - run_with ltac:(run_updEl; simpl; run_with ltac:(reflexivity);
                   run_with ltac:(reflexivity); reflexivity).
    simpl. run_with ltac:(reflexivity).
    eexists _, _. split; [reflexivity|]. simpl.
    split; [done|]. split; [by rewrite !mutations_app, !app_nil_r|].
    split; [done|]. split; [done|]. split; [apply lookup_insert_eq|].
    split; [apply lookup_insert_eq|]. simpl.
    split; [apply ClassList_add_elem|done].
  - run_with ltac:(run_updEl; simpl; run_updEl;
                   run_with ltac:(reflexivity); reflexivity).
    simpl. run_with ltac:(reflexivity).
    eexists _, _. split; [reflexivity|]. simpl.
    split; [done|]. split; [by rewrite !mutations_app, !app_nil_r|].
    split; [done|]. split; [done|]. split; [apply lookup_insert_eq|].
    split; [apply lookup_insert_eq|]. simpl.
    split; [apply ClassList_add_elem|done].
Qed.

(** [editLiteral] puts the node's element in edit mode. *)
Lemma editLiteral_enters node ev e el s :
  events s !! ev = Some e →
  dom s !! node_el node = Some el →
  ∃ s' el',
    editLiteral (Some node) ev s = Ok tt s'
    ∧ dom s' !! node_el node = Some el'
    ∧ el_contentEditable el' = true
    ∧ "blocks-editing" ∈ el_classList el'
    ∧ el_onblur el' = Some (CSaveEdit node (node_el node))
    ∧ el_innerText el' = el_innerText el
    ∧ cm_value s' = cm_value s
    ∧ trace s'
      = trace s
        ++ [SelectRange (node_el node)
              (match node_quarantine node with Some _ => 1 | None => 0 end)]
    ∧ hasInvalidEdit s' = hasInvalidEdit s
    ∧ timers s' = timers s
    ∧ cm_marks s' = cm_marks s
    ∧ (∀ ev', ev' ≠ ev → events s' !! ev' = events s !! ev').
Proof.
  intros Hev Hel. unfold editLiteral, stopPropagation, classList_add.
  run_updEvent. run_with ltac:(reflexivity). run_with ltac:(reflexivity).
  run_updEl. simpl. run_updEl. simpl. run_updEl. simpl. run_updEl. simpl.
  run_updEl. simpl.
  eexists _, _. split; [reflexivity|]. simpl.
  split; [apply lookup_insert_eq|]. simpl.
  split; [done|]. split; [apply ClassList_add_elem|].
  split; [done|]. split; [done|]. split; [done|].
  split; [done|].
  split; [done|]. split; [done|]. split; [done|].
  intros ev' Hne. by rewrite lookup_insert_ne.
Qed.

Lemma app_singleton_neq {A} (l : list A) x : l ++ [x] ≠ l.
Proof.
  intros H. apply (f_equal List.length) in H.
  rewrite length_app in H. simpl in H. lia.
Qed.

(** C3: when focus leaves an edited literal, [saveEdit] returns, and
    the buffer is mutated if and only if the edited text lexes.
    - If it lexes, the one mutation is the replacement of the node's
      range by the committed text.
    - If it does not, the buffer text is unchanged, no mutation is
      issued, and the callback that is left pending re-enters edit
      mode on the same node: run, it makes the node's element editable
      again, with this same [saveEdit] as its blur handler, still
      without touching the buffer. *)
Theorem saveEdit_mutates_iff_lexes node ev e el s :
  events s !! ev = Some e →
  dom s !! node_el node = Some el →
  ∃ s',
    saveEdit env node (node_el node) ev s = Ok tt s'
    ∧ (mutations (trace s') ≠ mutations (trace s)
       ↔ parser_lex env (el_innerText el) = None)
    ∧ (parser_lex env (el_innerText el) = None →
       cm_value s'
       = Buffer.replaceRange (cm_value s)
           (committed_text node (el_innerText el))
           (node_from node) (Some (node_to node))
       ∧ mutations (trace s')
         = mutations (trace s)
           ++ [ReplaceRange (committed_text node (el_innerText el))
                 (node_from node) (Some (node_to node))])
    ∧ (parser_lex env (el_innerText el) ≠ None →
       cm_value s' = cm_value s
       ∧ mutations (trace s') = mutations (trace s)
       ∧ timers s' = timers s ++ [TEditLiteral node ev]
       ∧ ∃ s'' el',
           runTimer (TEditLiteral node ev) s' = Ok tt s''
           ∧ dom s'' !! node_el node = Some el'
           ∧ el_contentEditable el' = true
           ∧ "blocks-editing" ∈ el_classList el'
           ∧ el_onblur el' = Some (CSaveEdit node (node_el node))
           ∧ cm_value s'' = cm_value s
           ∧ mutations (trace s'') = mutations (trace s)).
Proof.
  intros Hev Hel.
  destruct (parser_lex env (el_innerText el)) as [err|] eqn:Hlex.
  - destruct (saveEdit_refused node (node_el node) ev e el err s Hev Hel Hlex)
      as (s' & el1 & Hrun & Hv & Hm & Ht & Hf & Hev' & Hel' & Herr & Htxt).
    exists s'. split; [exact Hrun|]. split; [|split; [done|]].
    { split; [by rewrite Hm|done]. }
    intros _. split; [done|]. split; [done|]. split; [done|].
    destruct (editLiteral_enters node ev _ el1 s' Hev' Hel')
      as (s'' & el2 & Hrun2 & Hd2 & Hce & Hcl & Hob & _ & Hv2 & Ht2 & _).
    exists s'', el2. simpl. split; [exact Hrun2|].
    split; [done|]. split; [done|]. split; [done|]. split; [done|].
    split; [congruence|]. by rewrite Ht2, mutations_app, app_nil_r.
  - destruct (saveEdit_commit node (node_el node) ev e el s Hev Hel Hlex)
      as (s' & rest & Hrun & Hv & Ht & Hm & Hf).
    assert (Hmut : mutations (trace s')
                   = mutations (trace s)
                     ++ [ReplaceRange (committed_text node (el_innerText el))
                           (node_from node) (Some (node_to node))]).
    { rewrite Ht, !mutations_app, Hm, app_nil_r.
      assert (mutations (released node s) = []) as ->; [|done].
      unfold released. destruct (node_quarantine node); [|done].
      by destruct (existsb _ _). }
    exists s'. split; [exact Hrun|]. split; [|split; [done|done]].
    split; [done|]. intros _. rewrite Hmut. apply app_singleton_neq.
Qed.

(** The flag only ever goes up: a refusal raises it (see
    [saveEdit_refused]), and while it is up [cancelIfErrorExists] cancels
    the pointer event it is given; without it the event is left alone. *)
Lemma cancelIfErrorExists_raised ev e s :
  hasInvalidEdit s = true →
  events s !! ev = Some e →
  ∃ s', cancelIfErrorExists ev s = Ok tt s'
        ∧ events s' !! ev
          = Some (ev_set_propagationStopped true
                    (ev_set_defaultPrevented true e)).
Proof.
  intros Hf Hev. unfold cancelIfErrorExists. run_with ltac:(reflexivity).
  rewrite Hf. unfold preventDefault, stopPropagation. run_updEvent.
  erewrite updEvent_Ok by look. eexists. split; [reflexivity|].
  simpl. apply lookup_insert_eq.
Qed.

Lemma cancelIfErrorExists_clear ev s :
  hasInvalidEdit s = false → cancelIfErrorExists ev s = Ok tt s.
Proof.
  intros Hf. unfold cancelIfErrorExists. run_with ltac:(reflexivity).
  by rewrite Hf.
Qed.

(** C4 (the code departs from it): a successful commit does not clear
    the invalid-edit flag.  If the flag is up when an edit whose text
    lexes is committed, [saveEdit] returns with the flag still up, and
    [cancelIfErrorExists] goes on cancelling every pointer event. *)
Theorem commit_keeps_invalid_flag node nodeEl ev e el s :
  events s !! ev = Some e →
  dom s !! nodeEl = Some el →
  parser_lex env (el_innerText el) = None →
  hasInvalidEdit s = true →
  ∃ s',
    saveEdit env node nodeEl ev s = Ok tt s'
    ∧ hasInvalidEdit s' = true
    ∧ ∀ ev' e', events s' !! ev' = Some e' →
        ∃ s'', cancelIfErrorExists ev' s' = Ok tt s''
               ∧ events s'' !! ev'
                 = Some (ev_set_propagationStopped true
                           (ev_set_defaultPrevented true e')).
Proof.
  intros Hev Hel Hlex Hflag.
  destruct (saveEdit_commit node nodeEl ev e el s Hev Hel Hlex)
    as (s' & rest & Hrun & _ & _ & _ & Hf).
  exists s'. split; [exact Hrun|]. split; [congruence|].
  intros ev' e' Hev'. apply cancelIfErrorExists_raised; congruence.
Qed.

(** The commit of a quarantined node: when the text lexes, the
    bookmark is released first, then the one buffer mutation replaces
    the node's range by the text with exactly one blank appended. *)
Lemma saveEdit_quarantine_commit node nodeEl ev e el bookmark s :
  events s !! ev = Some e →
  dom s !! nodeEl = Some el →
  parser_lex env (el_innerText el) = None →
  node_quarantine node = Some bookmark →
  existsb (fun m => bool_decide (mark_key m = bookmark)) (cm_marks s) = true →
  ∃ s' rest,
    saveEdit env node nodeEl ev s = Ok tt s'
    ∧ trace s'
      = trace s
        ++ [ClearMark bookmark;
            ReplaceRange (el_innerText el ++ txt " ") (node_from node)
              (Some (node_to node))]
        ++ rest
    ∧ mutations rest = []
    ∧ cm_value s'
      = Buffer.replaceRange (cm_value s) (el_innerText el ++ txt " ")
          (node_from node) (Some (node_to node)).
Proof.
  intros Hev Hel Hlex Hq Hlive.
  destruct (saveEdit_commit node nodeEl ev e el s Hev Hel Hlex)
    as (s' & rest & Hrun & Hv & Ht & Hm & _).
  unfold committed_text, released in *. rewrite Hq, Hlive in *.
  exists s', rest. by rewrite Ht.
Qed.

End saveEdit_spec.

(** ** Quarantine: from the keystroke to the commit *)
Section quarantine_spec.
Context (env : Env).

Lemma insertionQuarantine_run ev e n el0 s :
  events s !! ev = Some e →
  head (rootNodes (parser_parse env (filler (cm_cursor s) ++ txt "x"))) = Some n →
  fst (render_node env n (dom s, cm_marks s)) !! node_el n = Some el0 →
  ∃ s1 bookmark el1,
    insertionQuarantine env ev s = Ok tt s1
    ∧ timers s1 = timers s ++ [TEditLiteral (quarantined n bookmark) ev]
    ∧ dom s1 !! node_el n = Some el1
    ∧ el_innerText el1 = intercepted e
    ∧ cm_value s1 = cm_value s
    ∧ trace s1 = trace s ++ [SetBookmark bookmark (cm_cursor s) (node_el n)]
    ∧ hasInvalidEdit s1 = hasInvalidEdit s
    ∧ events s1 !! ev = Some (ev_set_defaultPrevented true e)
    ∧ (∀ ev', ev' ≠ ev → events s1 !! ev' = events s !! ev')
    ∧ existsb (fun m => bool_decide (mark_key m = bookmark)) (cm_marks s1) = true.
Proof.
  intros Hev Hparse Hrender. unfold insertionQuarantine, preventDefault.
  run_updEvent. run_getEvent. run_with ltac:(reflexivity). simpl cm_cursor.
  change (cm_cursor (set_events ?x s)) with (cm_cursor s).
  fold (filler (cm_cursor s)). rewrite Hparse.
  run_with ltac:(reflexivity). simpl.
  run_with ltac:(apply updEl_Ok; simpl; exact Hrender).
  unfold cm_setBookmark.
  run_with ltac:(run_with ltac:(reflexivity); run_with ltac:(reflexivity);
                 run_with ltac:(reflexivity); reflexivity).
  simpl. eexists _, _, _. split; [reflexivity|]. simpl.
  split; [done|]. split; [apply lookup_insert_eq|]. split; [done|].
  split; [done|]. split; [done|]. split; [done|].
  split; [apply lookup_insert_eq|]. split.
  - intros ev' Hne. by rewrite lookup_insert_ne.
  - rewrite existsb_app. apply orb_true_iff. right. simpl.
    by rewrite bool_decide_eq_true_2.
Qed.

Lemma quarantineSession_run ev e blurEv e2 n el0 typed s :
  events s !! ev = Some e →
  events s !! blurEv = Some e2 →
  blurEv ≠ ev →
  timers s = [] →
  head (rootNodes (parser_parse env (filler (cm_cursor s) ++ txt "x"))) = Some n →
  fst (render_node env n (dom s, cm_marks s)) !! node_el n = Some el0 →
  parser_lex env typed = None →
  ∃ s' bookmark rest,
    quarantineSession env ev (node_el n) typed blurEv s = Ok tt s'
    ∧ cm_value s'
      = Buffer.replaceRange (cm_value s) (typed ++ txt " ")
          (node_from n) (Some (mkPos (line (node_to n)) (ch (node_from n))))
    ∧ mutations (trace s')
      = mutations (trace s)
        ++ [ReplaceRange (typed ++ txt " ") (node_from n)
              (Some (mkPos (line (node_to n)) (ch (node_from n))))]
    ∧ trace s'
      = trace s
        ++ [SetBookmark bookmark (cm_cursor s) (node_el n);
            SelectRange (node_el n) 1;
            ClearMark bookmark;
            ReplaceRange (typed ++ txt " ") (node_from n)
              (Some (mkPos (line (node_to n)) (ch (node_from n))))]
        ++ rest
    ∧ mutations rest = [].
Proof.
  intros Hev Hev2 Hne Htim Hparse Hrender Hlex. unfold quarantineSession.
  destruct (insertionQuarantine_run ev e n el0 s Hev Hparse Hrender)
    as (s1 & bookmark & el1 & Hrun1 & Ht1 & Hd1 & Htxt1 & Hv1 & Htr1 & Hf1
        & Hev1 & Hoth1 & Hlive1).
  rewrite (bind_Ok _ _ _ _ _ Hrun1).
  (* the deferred editLiteral *)
  destruct (editLiteral_enters (quarantined n bookmark) ev _ el1
              (set_timers [] s1) Hev1 Hd1)
    as (s2 & el2 & Hrun2 & Hd2 & Hce2 & Hcl2 & Hob2 & Htxt2 & Hv2 & Htr2 & Hf2
        & Htim2 & Hmk2 & Hoth2).
  simpl in Hd2, Hob2, Htr2, Hv2, Hmk2, Hoth2.
  assert (Hrt : runTimers s1 = Ok tt s2).
  { unfold runTimers. run_with ltac:(reflexivity). run_with ltac:(reflexivity).
    rewrite Ht1, Htim. simpl. unfold runTimer.
    by rewrite (bind_Ok _ _ _ _ _ Hrun2). }
  rewrite (bind_Ok _ _ _ _ _ Hrt).
  (* the user's input, then the blur *)
  run_with ltac:(unfold userInput; run_getEl; rewrite Hce2;
                 apply updEl_Ok; look).
  unfold blur. run_getEl. unfold el_set_innerText at 1. simpl el_onblur.
  rewrite Hob2.
  destruct (saveEdit_quarantine_commit env (quarantined n bookmark) (node_el n)
              blurEv e2 (el_set_innerText typed el2) bookmark
              (set_dom (<[node_el n := el_set_innerText typed el2]> (dom s2)) s2))
    as (s' & rest & Hrun & Htr & Hm & Hv).
  { simpl. rewrite Hoth2, Hoth1 by done. done. }
  { simpl. apply lookup_insert_eq. }
  { done. }
  { done. }
  { simpl. by rewrite Hmk2. }
  simpl in Htr, Hv.
  exists s', bookmark, rest. split; [exact Hrun|].
  split; [by rewrite Hv, Hv2, Hv1|].
  assert (Htrace : trace s'
                   = trace s
                     ++ [SetBookmark bookmark (cm_cursor s) (node_el n);
                         SelectRange (node_el n) 1;
                         ClearMark bookmark;
                         ReplaceRange (typed ++ txt " ") (node_from n)
                           (Some (mkPos (line (node_to n)) (ch (node_from n))))]
                     ++ rest).
  { rewrite Htr, Htr2, Htr1. by rewrite <- !app_assoc. }
  split; [|split; [exact Htrace|exact Hm]].
  rewrite Htrace, !mutations_app, Hm. simpl. by rewrite ?app_nil_r.
Qed.

(** C7: the commit of a quarantined edit.
    - Whenever [saveEdit] commits a node that carries a quarantine
      bookmark (its text lexes), it first releases the bookmark and then
      issues one buffer replacement, of the node's range by the text with
      exactly one blank appended.
    - Consequently a whole session (intercepted keystroke or paste,
      deferred [editLiteral], the user bringing the text to [typed],
      blur), on a parser that places the sentinel's node at the cursor,
      ends with [typed] followed by one blank inserted at the original
      cursor position and nothing else changed in the buffer: the
      sentinel never reaches it. *)
Theorem quarantine_commit_appends_separator :
  (∀ node nodeEl ev e el bookmark s,
     events s !! ev = Some e →
     dom s !! nodeEl = Some el →
     parser_lex env (el_innerText el) = None →
     node_quarantine node = Some bookmark →
     existsb (fun m => bool_decide (mark_key m = bookmark)) (cm_marks s) = true →
     ∃ s' rest,
       saveEdit env node nodeEl ev s = Ok tt s'
       ∧ trace s'
         = trace s
           ++ [ClearMark bookmark;
               ReplaceRange (el_innerText el ++ txt " ") (node_from node)
                 (Some (node_to node))]
           ++ rest
       ∧ mutations rest = []
       ∧ cm_value s'
         = Buffer.replaceRange (cm_value s) (el_innerText el ++ txt " ")
             (node_from node) (Some (node_to node)))
  ∧ (∀ ev e blurEv e2 n el0 typed s,
       events s !! ev = Some e →
       events s !! blurEv = Some e2 →
       blurEv ≠ ev →
       timers s = [] →
       head (rootNodes (parser_parse env (filler (cm_cursor s) ++ txt "x")))
       = Some n →
       node_from n = cm_cursor s →
       line (node_to n) = line (cm_cursor s) →
       fst (render_node env n (dom s, cm_marks s)) !! node_el n = Some el0 →
       parser_lex env typed = None →
       let i := Buffer.indexFromPos (cm_value s) (cm_cursor s) in
       ∃ s',
         quarantineSession env ev (node_el n) typed blurEv s = Ok tt s'
         ∧ cm_value s' = Buffer.splice (cm_value s) i i (typed ++ txt " ")
         ∧ mutations (trace s')
           = mutations (trace s)
             ++ [ReplaceRange (typed ++ txt " ") (cm_cursor s)
                   (Some (cm_cursor s))]).
Proof.
  split.
  - intros. by eapply saveEdit_quarantine_commit.
  - intros ev e blurEv e2 n el0 typed s Hev Hev2 Hne Htim Hparse Hfrom Hline
      Hrender Hlex i.
    destruct (quarantineSession_run ev e blurEv e2 n el0 typed s
                Hev Hev2 Hne Htim Hparse Hrender Hlex)
      as (s' & bookmark & rest & Hrun & Hv & Hm & _).
    assert (mkPos (line (node_to n)) (ch (node_from n)) = cm_cursor s) as Hto.
    { rewrite Hline, Hfrom. by destruct (cm_cursor s). }
    rewrite Hto, Hfrom in Hv, Hm.
    exists s'. split; [exact Hrun|]. split; [|exact Hm].
    rewrite Hv. unfold Buffer.replaceRange. fold i.
    by rewrite decide_False by lia.
Qed.

End quarantine_spec.

(** *** The session on the instance: "abc" typed into an empty buffer *)
Module QuarantineRuns.
Import Demo QuarantineExamples.

(** Pasting "abc" and leaving gives the same buffer as typing it. *)
Example paste_then_blur :
  cm_value (final (quarantineSession env 7 100 (txt "abc") 8 pasting))
  = txt "abc ".
Proof. vm_compute. reflexivity. Qed.

(** A text that does not lex is not committed. *)
Example invalid_then_blur :
  let r := quarantineSession env 7 100 (txt "(abc") 8 typing in
  cm_value (final r) = [] ∧ hasInvalidEdit (final r) = true.
Proof. vm_compute. split; reflexivity. Qed.

End QuarantineRuns.

Lemma quarantine_commit_witness :
  ∃ s',
    quarantineSession Demo.env 7 100 (txt "abc") 8 QuarantineExamples.typing
    = Ok tt s'
    ∧ cm_value s' = txt "abc ".
Proof.
  destruct (proj2 (quarantine_commit_appends_separator Demo.env)
              7 (Demo.event "keypress" Demo.wrapper) 8 (Demo.event "blur" 100)
              (Demo.literal 0 (mkPos 0 0) (mkPos 0 1))
              (Demo.element (Demo.literal 0 (mkPos 0 0) (mkPos 0 1)))
              (txt "abc") QuarantineExamples.typing)
    as (s' & Hrun & Hv & _).
  - vm_compute. reflexivity.
  - vm_compute. reflexivity.
  - discriminate.
  - vm_compute. reflexivity.
  - vm_compute. reflexivity.
  - vm_compute. reflexivity.
  - vm_compute. reflexivity.
  - vm_compute. reflexivity.
  - vm_compute. reflexivity.
  - exists s'. split; [exact Hrun|]. rewrite Hv. vm_compute. reflexivity.
Defined.

(** *** Edits on the instance *)
Module EditRuns.
Import Demo EditExamples.

Example valid_edit_commits :
  cm_value (final (blur env 101 7 (editing (txt "xyz")))) = txt "abc xyz f".
Proof. vm_compute. reflexivity. Qed.

Example invalid_edit_refused :
  let r := blur env 101 7 (editing (txt "(xyz")) in
  cm_value (final r) = txt "abc de f"
  ∧ timers (final r) = [TEditLiteral word1 7]
  ∧ hasInvalidEdit (final r) = true.
Proof. vm_compute. repeat split; reflexivity. Qed.

Example flag_survives_commit :
  cm_value corrected = txt "abc xyz f"
  ∧ hasInvalidEdit corrected = true
  ∧ ev_defaultPrevented
      <$> (events
             (final (cancelIfErrorExists 9
                       (with_event 9 (event "mousedown" wrapper) corrected)))
           !! 9)
    = Some true.
Proof. vm_compute. repeat split; reflexivity. Qed.

End EditRuns.

Lemma saveEdit_mutates_iff_lexes_witness :
  ∃ s',
    saveEdit Demo.env EditExamples.word1 101 7 (EditExamples.editing (txt "(xyz"))
    = Ok tt s'
    ∧ cm_value s' = txt "abc de f"
    ∧ mutations (trace s') = [].
Proof.
  destruct (saveEdit_mutates_iff_lexes Demo.env EditExamples.word1 7
              (Demo.event "blur" 101) (EditExamples.edited (txt "(xyz"))
              (EditExamples.editing (txt "(xyz")))
    as (s' & Hrun & _ & _ & Hbad).
  - vm_compute. reflexivity.
  - vm_compute. reflexivity.
  - exists s'. split; [exact Hrun|].
    destruct Hbad as (Hv & Hm & _); [vm_compute; discriminate|].
    split; [rewrite Hv|rewrite Hm]; vm_compute; reflexivity.
Defined.

Lemma commit_keeps_invalid_flag_witness :
  ∃ s',
    saveEdit Demo.env EditExamples.word1 101 7
      (set_hasInvalidEdit true (EditExamples.editing (txt "xyz")))
    = Ok tt s'
    ∧ hasInvalidEdit s' = true.
Proof.
  destruct (commit_keeps_invalid_flag Demo.env EditExamples.word1 101 7
              (Demo.event "blur" 101) (EditExamples.edited (txt "xyz"))
              (set_hasInvalidEdit true (EditExamples.editing (txt "xyz"))))
    as (s' & Hrun & Hflag & _).
  - vm_compute. reflexivity.
  - vm_compute. reflexivity.
  - vm_compute. reflexivity.
  - reflexivity.
  - exists s'. split; [exact Hrun|exact Hflag].
Defined.

(** ** Navigation *)
Section navigation_spec.

Lemma isNodeHidden_missing s :
  isNodeHidden None s = Throw (TypeError "node is undefined") s.
Proof. done. Qed.

Lemma isNodeHidden_unbound n s :
  dom s !! node_el n = None →
  isNodeHidden (Some n) s = Throw (TypeError "element is undefined") s.
Proof.
  intros H. unfold isNodeHidden. run_with ltac:(reflexivity).
  erewrite bind_Throw; [done|]. unfold getEl. by rewrite H.
Qed.

Lemma isNodeHidden_bound n e s :
  dom s !! node_el n = Some e →
  isNodeHidden (Some n) s
  = Ok (ClassList.contains "blocks-hidden" (el_classList e)
        || under_hidden (dom s) e) s.
Proof.
  intros H. unfold isNodeHidden. run_with ltac:(reflexivity).
  run_getEl. by run_with ltac:(reflexivity).
Qed.

(** With nothing visible the loop can only throw or go on: it never
    comes back with a node, whatever the successor function. *)
Lemma skipHidden_all_hidden fuel next cur s :
  all_hidden s →
  match skipHidden fuel next cur s with
  | Ok (Some _) _ => False
  | Ok None s' => s' = s
  | Throw _ s' => s' = s
  end.
Proof.
  intros Hall. revert cur. induction fuel as [|fuel IH]; intros cur; simpl; [done|].
  destruct cur as [n|].
  - destruct (dom s !! node_el n) as [e|] eqn:He.
    + rewrite (bind_Ok _ _ _ _ _ (isNodeHidden_bound _ _ _ He)).
      rewrite (Hall _ _ He). simpl. apply IH.
    + by rewrite (bind_Throw _ _ _ _ _ (isNodeHidden_unbound _ _ He)).
  - by rewrite (bind_Throw _ _ _ _ _ (isNodeHidden_missing s)).
Qed.

(** On a successor function that wraps around, a hidden node that is its
    own successor keeps the loop going for ever. *)
Lemma skipHidden_loops fuel next n e s :
  next n = Some n →
  dom s !! node_el n = Some e →
  ClassList.contains "blocks-hidden" (el_classList e) = true →
  skipHidden fuel next (Some n) s = Ok None s.
Proof.
  intros Hnext He Hh. induction fuel as [|fuel IH]; simpl; [done|].
  rewrite (bind_Ok _ _ _ _ _ (isNodeHidden_bound _ _ _ He)).
  rewrite Hh. simpl. by rewrite Hnext.
Qed.

(** C6 (the code departs from it): the traversal has no case for "no
    visible node".
    - When the tree has no node after (before) the place navigation
      starts from, [selectNextNode] ([selectPrevNode]) passes the
      missing node to [isNodeHidden], which reads its [el]: a TypeError,
      not an empty result.
    - When every element is hidden, neither function ever returns: for
      every amount of fuel it has thrown or is still looping. *)
Theorem navigation_without_visible_node ev selected tree s :
  ast s = Some tree →
  getSelectedNode s = Ok selected s →
  (getNodeAfter tree (navigation_start selected s) = None →
   ∀ fuel, selectNextNode (S fuel) ev s
           = Throw (TypeError "node is undefined") s)
  ∧ (getNodeBefore tree (navigation_start selected s) = None →
     ∀ fuel, selectPrevNode (S fuel) ev s
             = Throw (TypeError "node is undefined") s)
  ∧ (all_hidden s →
     ∀ fuel, (∀ s', selectNextNode fuel ev s ≠ Ok (Some tt) s')
             ∧ (∀ s', selectPrevNode fuel ev s ≠ Ok (Some tt) s')).
Proof.
  intros Hast Hsel. split; [|split].
  - intros Hnone fuel. unfold selectNextNode.
    rewrite (bind_Ok _ _ _ _ _ Hsel). run_with ltac:(reflexivity).
    run_with ltac:(apply getAst_Ok; exact Hast).
    fold (navigation_start selected s). rewrite Hnone.
    erewrite bind_Throw; [|reflexivity]. reflexivity.
  - intros Hnone fuel. unfold selectPrevNode.
    rewrite (bind_Ok _ _ _ _ _ Hsel). run_with ltac:(reflexivity).
    run_with ltac:(apply getAst_Ok; exact Hast).
    fold (navigation_start selected s). rewrite Hnone.
    erewrite bind_Throw; [|reflexivity]. reflexivity.
  - intros Hall fuel. split; intros s'.
    + unfold selectNextNode.
      rewrite (bind_Ok _ _ _ _ _ Hsel). run_with ltac:(reflexivity).
      run_with ltac:(apply getAst_Ok; exact Hast).
      pose proof (skipHidden_all_hidden fuel
                    (fun n => getNodeAfter tree (AtNode n))
                    (getNodeAfter tree (navigation_start selected s)) s Hall) as H.
      fold (navigation_start selected s). unfold bind at 1.
      destruct (skipHidden _ _ _ s) as [[found|] s1|x s1]; [done|discriminate..].
    + unfold selectPrevNode.
      rewrite (bind_Ok _ _ _ _ _ Hsel). run_with ltac:(reflexivity).
      run_with ltac:(apply getAst_Ok; exact Hast).
      pose proof (skipHidden_all_hidden fuel
                    (fun n => getNodeBefore tree (AtNode n))
                    (getNodeBefore tree (navigation_start selected s)) s Hall) as H.
      fold (navigation_start selected s). unfold bind at 1.
      destruct (skipHidden _ _ _ s) as [[found|] s1|x s1]; [done|discriminate..].
Qed.

End navigation_spec.

(** *** Navigation on the instance *)
Module NavigationRuns.
Import Demo NavigationExamples.

(** From the first word, Tab selects the second. *)
Example next_from_first :
  activeElement (final (selectNextNode 5 7 at_first)) = 101.
Proof. vm_compute. reflexivity. Qed.

(** From the last word there is nothing to select: a TypeError. *)
Example next_from_last :
  selectNextNode 5 7 at_last = Throw (TypeError "node is undefined") at_last.
Proof. vm_compute. reflexivity. Qed.

(** A hidden last word: the traversal runs past it and throws as well. *)
Example next_onto_hidden_last :
  match selectNextNode 5 7
          (with_element 102
             (mkElement "block-node-2" ["blocks-node"; "blocks-hidden"]
                [wrapper; document_body] None None [] "" "" false None None None)
             (with_event 7 (event "keydown" 101)
                (set_activeElement 101 (editor (txt "abc de f")))))
  with
  | Throw e _ => e = TypeError "node is undefined"
  | Ok _ _ => False
  end.
Proof. vm_compute. reflexivity. Qed.

End NavigationRuns.

Lemma navigation_without_visible_node_witness :
  selectNextNode 1 7 NavigationExamples.at_last
  = Throw (TypeError "node is undefined") NavigationExamples.at_last.
Proof.
  refine (proj1 (navigation_without_visible_node 7
                   (Some NavigationExamples.word2)
                   (Demo.parse (txt "abc de f"))
                   NavigationExamples.at_last _ _) _ 0).
  - vm_compute. reflexivity.
  - vm_compute. reflexivity.
  - vm_compute. reflexivity.
Defined.

(** * Further properties of the class *)

(** ** Resolving elements to nodes *)

Lemma climb_nearest d el parents :
  match climb d el parents with
  | inr found =>
      ∃ pre post,
        el :: parents = pre ++ default document_body found :: post
        ∧ (∀ y, y ∈ pre →
             y ≠ document_body
             ∧ ∃ e, d !! y = Some e
                    ∧ ClassList.contains "blocks-node" (el_classList e) = false)
        ∧ match found with
          | Some x =>
              x ≠ document_body
              ∧ ∃ e, d !! x = Some e
                     ∧ ClassList.contains "blocks-node" (el_classList e) = true
          | None => True
          end
  | inl _ => True
  end.
Proof.
  revert el. induction parents as [|p ps IH]; intros el; simpl.
  - case_bool_decide as Hb.
    + exists [], []. subst. split; [done|]. split; [|done].
      intros y Hy. by apply elem_of_nil in Hy.
    + destruct (d !! el) as [e|] eqn:He; [|done].
      destruct (ClassList.contains "blocks-node" (el_classList e)) eqn:Hc; [|done].
      exists [], []. split; [done|]. split; [|by eauto].
      intros y Hy. by apply elem_of_nil in Hy.
  - case_bool_decide as Hb.
    + exists [], (p :: ps). subst. split; [done|]. split; [|done].
      intros y Hy. by apply elem_of_nil in Hy.
    + destruct (d !! el) as [e|] eqn:He; [|done].
      destruct (ClassList.contains "blocks-node" (el_classList e)) eqn:Hc.
      * exists [], (p :: ps). split; [done|]. split; [|by eauto].
        intros y Hy. by apply elem_of_nil in Hy.
      * specialize (IH p). destruct (climb d p ps) as [x|found]; [done|].
        destruct IH as (pre & post & Heq & Hpre & Hfound).
        exists (el :: pre), post. split; [by rewrite Heq|]. split; [|done].
        intros y Hy. apply elem_of_cons in Hy as [->|Hy]; [by eauto|by apply Hpre].
Qed.

(** X1: [findNearestNodeEl] answers with the nearest enclosing node
    element.  When it returns an element, that element is the start
    element or one of its ancestors, it carries the class blocks-node, it
    is not the document body, and nothing nearer on the way up carries the
    class or is the body; when it returns null, the way up reached the
    body through elements none of which carries the class.  It changes
    nothing. *)
Theorem findNearestNodeEl_nearest el e found s s' :
  dom s !! el = Some e →
  findNearestNodeEl el s = Ok found s' →
  s' = s
  ∧ ∃ pre post,
      el :: el_parents e = pre ++ default document_body found :: post
      ∧ (∀ y, y ∈ pre →
           y ≠ document_body
           ∧ ∃ a, dom s !! y = Some a
                  ∧ ClassList.contains "blocks-node" (el_classList a) = false)
      ∧ match found with
        | Some x =>
            x ≠ document_body
            ∧ ∃ a, dom s !! x = Some a
                   ∧ ClassList.contains "blocks-node" (el_classList a) = true
        | None => True
        end.
Proof.
  intros He. unfold findNearestNodeEl. rewrite He.
  pose proof (climb_nearest (dom s) el (el_parents e)) as H.
  destruct (climb (dom s) el (el_parents e)) as [x|r]; [done|].
  intros [= <- <-]. split; [done|exact H].
Qed.

Lemma substring_all s : String.substring 0 (String.length s) s = s.
Proof. induction s as [|c s IH]; simpl; [done|]. by rewrite IH. Qed.

(** The id the renderer gives a node's element is matched to the node's
    id, cut at the first line end. *)
Lemma match_block_node_id k :
  match_block_node ("block-node-" +:+ k) = Some (upto_eol k).
Proof.
  unfold match_block_node, String.app. simpl.
  assert (String.prefix "" k = true) as -> by (by destruct k).
  simpl. by rewrite Nat.sub_0_r, substring_all.
Qed.

(** X2: an element that carries the class blocks-node and whose id is
    "block-node-" followed by a key resolves, through [findNodeFromEl], to
    whatever the current tree's [nodeMap] holds under that key (cut at the
    first line end): the node when the key is current, nothing when it is
    not.  The state is left alone. *)
Theorem findNodeFromEl_of_node_element el e k tree s :
  el ≠ document_body →
  dom s !! el = Some e →
  ClassList.contains "blocks-node" (el_classList e) = true →
  el_id e = "block-node-" +:+ k →
  ast s = Some tree →
  findNodeFromEl el s = Ok (nodeMap tree !! upto_eol k) s.
Proof.
  intros Hb He Hc Hid Hast. unfold findNodeFromEl.
  assert (Hnear : findNearestNodeEl el s = Ok (Some el) s).
  { unfold findNearestNodeEl. rewrite He.
    destruct (el_parents e); simpl; rewrite bool_decide_eq_false_2 by done;
      by rewrite He, Hc. }
  rewrite (bind_Ok _ _ _ _ _ Hnear). run_getEl.
  rewrite Hid, match_block_node_id.
  by run_with ltac:(apply getAst_Ok; exact Hast).
Qed.

Lemma findNodeFromEl_of_node_element_witness :
  findNodeFromEl 101 (Demo.editor (txt "abc de f"))
  = Ok (Some EditExamples.word1) (Demo.editor (txt "abc de f")).
Proof.
  refine (eq_trans
            (findNodeFromEl_of_node_element 101
               (Demo.element EditExamples.word1) "1"
               (Demo.parse (txt "abc de f")) (Demo.editor (txt "abc de f"))
               _ _ _ _ _) _).
  - discriminate.
  - vm_compute. reflexivity.
  - vm_compute. reflexivity.
  - vm_compute. reflexivity.
  - vm_compute. reflexivity.
  - vm_compute. reflexivity.
Defined.

Lemma findNearestNodeEl_nearest_witness :
  ∃ pre post,
    [101; Demo.wrapper; document_body] = pre ++ 101 :: post.
Proof.
  destruct (findNearestNodeEl_nearest 101 (Demo.element EditExamples.word1)
              (Some 101) (Demo.editor (txt "abc de f"))
              (Demo.editor (txt "abc de f")))
    as (_ & pre & post & Heq & _).
  - vm_compute. reflexivity.
  - vm_compute. reflexivity.
  - exists pre, post. exact Heq.
Defined.

(** ** The dispatcher and the drag handlers *)
Section dispatch_more.
Context (env : Env).

(** X3: an event whose target lies in no node is ignored by every handler
    the dispatcher builds without the null-node option, whatever the
    handler table: nothing is called and the state, the event included,
    is as it was. *)
Theorem nodeEventHandler_outside_nodes handlers ev e s :
  events s !! ev = Some e →
  findNodeFromEl (ev_target e) s = Ok None s →
  nodeEventHandler env handlers false ev s = Ok None s.
Proof.
  intros Hev Hnode. unfold nodeEventHandler. run_getEvent.
  by rewrite (bind_Ok _ _ _ _ _ Hnode).
Qed.


(** X5: a drop on the element of a node that is neither a literal nor a
    blank, and that is not marked as a drop target, is not taken: the
    handler returns at once, without cancelling the event, and the
    state is as it was. *)
Theorem dropOntoNode_off_target destinationNode ev e el n s :
  events s !! ev = Some e →
  dom s !! ev_target e = Some el →
  ClassList.contains "blocks-drop-target" (el_classList el) = false →
  findNodeFromEl (ev_target e) s = Ok (Some n) s →
  node_type n ∉ ["literal"; "blank"] →
  isDropTarget (ev_target e) s = Ok false s
  ∧ dropOntoNode env destinationNode ev s = Ok tt s.
Proof.
  intros Hev Hel Hmark Hnode Htype.
  assert (Ht : isDropTarget (ev_target e) s = Ok false s).
  { unfold isDropTarget.
    rewrite (bind_Ok _ _ _ _ _ (classList_contains_Ok _ _ _ _ Hel)), Hmark.
    rewrite (bind_Ok _ _ _ _ _ Hnode).
    by rewrite bool_decide_eq_false_2. }
  split; [done|]. unfold dropOntoNode. run_getEvent.
  by rewrite (bind_Ok _ _ _ _ _ Ht).
Qed.

End dispatch_more.

Lemma nodeEventHandler_outside_nodes_witness :
  onclick Demo.env 7 (StructuralExamples.on_background "click")
  = Ok None (StructuralExamples.on_background "click").
Proof.
  apply (nodeEventHandler_outside_nodes Demo.env (HFunction SelectNode) 7
           (Demo.event "click" Demo.wrapper)).
  - vm_compute. reflexivity.
  - vm_compute. reflexivity.
Defined.


Lemma dropOntoNode_off_target_witness :
  isDropTarget 101 (StructuralExamples.on_expression "drop")
  = Ok false (StructuralExamples.on_expression "drop")
  ∧ dropOntoNode Demo.env (Some StructuralExamples.expression) 7
      (StructuralExamples.on_expression "drop")
    = Ok tt (StructuralExamples.on_expression "drop").
Proof.
  apply (dropOntoNode_off_target Demo.env (Some StructuralExamples.expression)
           7 (Demo.event "drop" 101)
           (Demo.element StructuralExamples.expression)
           StructuralExamples.expression).
  - vm_compute. reflexivity.
  - vm_compute. reflexivity.
  - reflexivity.
  - vm_compute. reflexivity.
  - apply (bool_decide_unpack _). vm_compute. exact I.
Defined.

(** ** Dragging *)

Lemma ClassList_remove_not_elem c l : c ∉ ClassList.remove c l.
Proof.
  unfold ClassList.remove. intros Hin.
  apply list_elem_of_In, filter_In in Hin as [_ Hc].
  by rewrite bool_decide_eq_true_2 in Hc.
Qed.

Lemma ClassList_remove_absent c l : c ∉ l → ClassList.remove c l = l.
Proof.
  unfold ClassList.remove. induction l as [|x l IH]; simpl; [done|].
  intros Hno. rewrite bool_decide_eq_false_2.
  - simpl. f_equal. apply IH. intros Hin. apply Hno. apply elem_of_cons. by right.
  - intros ->. apply Hno. apply elem_of_cons. by left.
Qed.

Lemma ClassList_remove_add c l :
  c ∉ l → ClassList.remove c (ClassList.add c l) = l.
Proof.
  intros Hno. unfold ClassList.add, ClassList.contains.
  rewrite bool_decide_eq_false_2 by done.
  unfold ClassList.remove. rewrite List.filter_app. simpl.
  rewrite bool_decide_eq_true_2 by done. simpl. rewrite app_nil_r.
  by apply ClassList_remove_absent.
Qed.

Lemma getData_setData d format v : getData (setData d format v) format = v.
Proof.
  induction d as [|[k w] rest IH]; simpl.
  - by rewrite bool_decide_eq_true_2.
  - case_bool_decide as Hk; simpl.
    + by rewrite bool_decide_eq_true_2.
    + by rewrite bool_decide_eq_false_2.
Qed.

Lemma getData_setData_ne d format other v :
  format ≠ other → getData (setData d format v) other = getData d other.
Proof.
  intros Hne. induction d as [|[k w] rest IH]; simpl.
  - by rewrite bool_decide_eq_false_2.
  - case_bool_decide as Hk; simpl.
    + subst k. by rewrite !bool_decide_eq_false_2.
    + case_bool_decide; [done|apply IH].
Qed.

Lemma isDropTarget_element el b s s' :
  isDropTarget el s = Ok b s' → is_Some (dom s !! el).
Proof.
  unfold isDropTarget, classList_contains, bind, getEl.
  by destruct (dom s !! el); eauto.
Qed.

(** X6: what [startDraggingNode] puts on the drag event is what
    [dropOntoNode] reads back: the 'text/id' payload is the node's id, so
    that, in the tree the node came from, the payload resolves to the node
    again; the 'text/plain' payload is the node's text in the buffer. The
    event is stopped, the drag image is the node's element, and the buffer
    is not touched. *)
Theorem startDraggingNode_payload n ev e el s :
  events s !! ev = Some e →
  dom s !! node_el n = Some el →
  ∃ s' e',
    startDraggingNode (Some n) ev s = Ok tt s'
    ∧ events s' !! ev = Some e'
    ∧ getData (ev_data e') "text/id" = txt (node_id n)
    ∧ getData (ev_data e') "text/plain"
      = Buffer.getRange (cm_value s) (node_from n) (node_to n)
    ∧ ev_effectAllowed e' = "move"
    ∧ ev_dragImage e' = Some (node_el n)
    ∧ ev_propagationStopped e' = true
    ∧ cm_value s' = cm_value s
    ∧ trace s' = trace s
    ∧ (∀ tree, ast s = Some tree →
               nodeMap tree !! node_id n = Some n →
               drop_source s' e' = Some n).
Proof.
  intros Hev Hel. unfold startDraggingNode, stopPropagation, classList_add.
  eexists _, _. split.
  { run_updEvent. simpl. rewrite (bind_Ok _ _ _ _ _ (eq_refl : ret n _ = _)).
    run_updEl. run_updEvent. run_updEvent.
    unfold cm_getRange at 1. rewrite bind_assoc.
    rewrite (bind_Ok _ _ _ _ _ (eq_refl : get _ = _)).
    rewrite (bind_Ok _ _ _ _ _ (eq_refl : ret _ _ = _)).
    run_updEvent. apply updEvent_Ok. look. }
  simpl. split; [by rewrite lookup_insert_eq|]. simpl.
  split; [apply getData_setData|].
  split; [by rewrite getData_setData_ne, getData_setData|].
  repeat (split; [done|]).
  intros tree Hast Hn. unfold drop_source. simpl. rewrite Hast.
  rewrite getData_setData. unfold txt.
  by rewrite string_of_list_ascii_of_string.
Qed.

(** X7: a drag that starts and ends on a node leaves the document as it
    found it: the class 'blocks-dragging' that [startDraggingNode] adds to
    the node's element is taken off again by [stopDraggingNode], and no
    other element changes. *)
Theorem drag_start_stop_restores_dom n ev e el s :
  events s !! ev = Some e →
  dom s !! node_el n = Some el →
  "blocks-dragging" ∉ el_classList el →
  ∃ s',
    (startDraggingNode (Some n) ev ;; stopDraggingNode (Some n)) s = Ok tt s'
    ∧ dom s' = dom s
    ∧ cm_value s' = cm_value s
    ∧ trace s' = trace s.
Proof.
  intros Hev Hel Hno.
  eexists. split.
  { unfold startDraggingNode, stopPropagation, classList_add.
    rewrite !bind_assoc.
    run_updEvent. simpl. rewrite bind_assoc.
    rewrite (bind_Ok _ _ _ _ _ (eq_refl : ret n _ = _)). rewrite bind_assoc.
    run_updEl. rewrite bind_assoc. run_updEvent.
    rewrite bind_assoc. run_updEvent.
    unfold cm_getRange at 1. rewrite !bind_assoc.
    rewrite (bind_Ok _ _ _ _ _ (eq_refl : get _ = _)).
    rewrite (bind_Ok _ _ _ _ _ (eq_refl : ret _ _ = _)).
    rewrite bind_assoc. run_updEvent. run_updEvent.
    unfold stopDraggingNode. rewrite (bind_Ok _ _ _ _ _ (eq_refl : ret n _ = _)).
    unfold classList_remove. apply updEl_Ok. look. }
  simpl. split; [|done].
  rewrite insert_insert_eq. destruct el; simpl in *.
  rewrite ClassList_remove_add by done. by apply insert_id.
Qed.

(** X8: when the target of a dragleave is a drop target,
    [handleDragLeave] takes the class 'blocks-over-target' off both the
    target and the element of the node the event was dispatched for; every
    other element is as it was, and the buffer is not touched. *)
Theorem handleDragLeave_clears_mark node ev e s :
  events s !! ev = Some e →
  isDropTarget (ev_target e) s = Ok true s →
  (∀ n, node = Some n → is_Some (dom s !! node_el n)) →
  ∃ s',
    handleDragLeave node ev s = Ok tt s'
    ∧ (∀ x, x = ev_target e ∨ (∃ n, node = Some n ∧ x = node_el n) →
            ∃ el, dom s' !! x = Some el
                  ∧ "blocks-over-target" ∉ el_classList el)
    ∧ (∀ x, x ≠ ev_target e → (∀ n, node = Some n → x ≠ node_el n) →
            dom s' !! x = dom s !! x)
    ∧ cm_value s' = cm_value s
    ∧ trace s' = trace s.
Proof.
  intros Hev Ht Hnode.
  destruct (isDropTarget_element _ _ _ _ Ht) as [el Hel].
  unfold handleDragLeave, stopPropagation, classList_remove.
  run_getEvent. rewrite (bind_Ok _ _ _ _ _ Ht).
  run_updEvent. run_updEl.
  destruct node as [n|].
  - destruct (Hnode n eq_refl) as [eln Heln].
    destruct (decide (node_el n = ev_target e)) as [Heq|Hne].
    + eexists. split; [apply updEl_Ok; simpl; rewrite Heq; apply lookup_insert_eq|].
      simpl. rewrite Heq, insert_insert_eq. split; [|split; [|done]].
      * intros x [->|(? & [= <-] & ->)].
        -- eexists. split; [apply lookup_insert_eq|].
           simpl. apply ClassList_remove_not_elem.
        -- rewrite Heq. eexists. split; [apply lookup_insert_eq|].
           simpl. apply ClassList_remove_not_elem.
      * intros x Hx _. by rewrite lookup_insert_ne.
    + eexists. split.
      { apply updEl_Ok. simpl. rewrite lookup_insert_ne by done. exact Heln. }
      simpl. split; [|split; [|done]].
      * intros x [->|(? & [= <-] & ->)].
        -- rewrite lookup_insert_ne by done. rewrite lookup_insert_eq.
           eexists. split; [done|]. simpl. apply ClassList_remove_not_elem.
        -- rewrite lookup_insert_eq.
           eexists. split; [done|]. simpl. apply ClassList_remove_not_elem.
      * intros x Hx Hn. rewrite !lookup_insert_ne; [done|done|].
        intros Hc. by apply (Hn n).
  - eexists. split; [done|]. simpl. split; [|split; [|done]].
    + intros x [->|(? & [=] & _)]. rewrite lookup_insert_eq.
      eexists. split; [done|]. simpl. apply ClassList_remove_not_elem.
    + intros x Hx _. by rewrite lookup_insert_ne.
Qed.

Lemma startDraggingNode_payload_witness :
  ∃ s' e',
    startDraggingNode (Some EditExamples.word1) 7 DispatcherExamples.on_literal
    = Ok tt s'
    ∧ events s' !! 7 = Some e'
    ∧ getData (ev_data e') "text/id" = txt "1"
    ∧ getData (ev_data e') "text/plain" = txt "de"
    ∧ drop_source s' e' = Some EditExamples.word1.
Proof.
  destruct (startDraggingNode_payload EditExamples.word1 7
              (Demo.event "dragstart" 101) (Demo.element EditExamples.word1)
              DispatcherExamples.on_literal)
    as (s' & e' & Hrun & Hev & Hid & Hplain & _ & _ & _ & _ & _ & Hsource).
  - vm_compute. reflexivity.
  - vm_compute. reflexivity.
  - exists s', e'. repeat split; try assumption.
    apply (Hsource (Demo.parse (txt "abc de f"))); vm_compute; reflexivity.
Defined.

Lemma drag_start_stop_restores_dom_witness :
  ∃ s',
    (startDraggingNode (Some EditExamples.word1) 7 ;;
     stopDraggingNode (Some EditExamples.word1)) DispatcherExamples.on_literal
    = Ok tt s'
    ∧ dom s' = dom DispatcherExamples.on_literal.
Proof.
  destruct (drag_start_stop_restores_dom EditExamples.word1 7
              (Demo.event "dragstart" 101) (Demo.element EditExamples.word1)
              DispatcherExamples.on_literal)
    as (s' & Hrun & Hdom & _).
  - vm_compute. reflexivity.
  - vm_compute. reflexivity.
  - apply (bool_decide_unpack _). vm_compute. exact I.
  - by exists s'.
Defined.

Lemma handleDragLeave_clears_mark_witness :
  ∃ s',
    handleDragLeave (Some EditExamples.word1) 7 DispatcherExamples.on_literal
    = Ok tt s'
    ∧ ∃ el, dom s' !! 101 = Some el
            ∧ "blocks-over-target" ∉ el_classList el.
Proof.
  destruct (handleDragLeave_clears_mark (Some EditExamples.word1) 7
              (Demo.event "dragstart" 101) DispatcherExamples.on_literal)
    as (s' & Hrun & Hclear & _).
  - vm_compute. reflexivity.
  - vm_compute. reflexivity.
  - intros n [= <-]. vm_compute. eauto.
  - exists s'. split; [done|]. apply Hclear. by left.
Defined.

(** ** Markers *)
Section markers.
Context (env : Env).

Lemma checkOptions_supported options s :
  Forall (fun kv => kv.1 ∈ supportedOptions) options →
  checkOptions options s = Ok tt s.
Proof.
  induction 1 as [|[k v] rest Hk _ IH]; simpl; [done|].
  by rewrite bool_decide_eq_true_2.
Qed.

Lemma set_dom_id s : set_dom (dom s) s = s.
Proof. by destruct s. Qed.

Lemma updEl_when {A} (o : option A) w (f : A → Element → Element) el s :
  dom s !! w = Some el →
  match o with Some v => updEl w (f v) | None => ret tt end s
  = Ok tt (set_dom (<[w := match o with Some v => f v el | None => el end]>
                      (dom s)) s).
Proof.
  intros Hel. destruct o; [by apply updEl_Ok|].
  by rewrite insert_id, set_dom_id.
Qed.

Lemma decorate_passes pre marks from to options s :
  Forall (passed_over s) pre →
  decorate (pre ++ marks) from to options s = decorate marks from to options s.
Proof.
  induction 1 as [|m pre Hm _ IH]; simpl; [done|].
  unfold passed_over in Hm. destruct (mark_replacedWith m) as [w|]; [|done].
  destruct Hm as (e & He & Hc).
  by rewrite (bind_Ok _ _ _ _ _ (classList_contains_Ok _ _ _ _ He)), Hc.
Qed.

Lemma decorate_node mark rest from to options w el s :
  mark_replacedWith mark = Some w →
  dom s !! w = Some el →
  ClassList.contains "blocks-node" (el_classList el) = true →
  decorate (mark :: rest) from to options s
  = Ok (Some (mark_key mark, options))
      (set_cm_marks
         (map (set_MARKER (mark_key mark) (Some options)) (cm_marks s))
         (set_dom (<[w := decorated options el]> (dom s)) s)).
Proof.
  intros Hw Hel Hnode. simpl. rewrite Hw.
  rewrite (bind_Ok _ _ _ _ _ (classList_contains_Ok _ _ _ _ Hel)), Hnode.
  rewrite (bind_Ok _ _ _ _ _ (updEl_when _ w el_set_cssText el s Hel)).
  erewrite bind_Ok;
    [|apply (updEl_when _ w
               (fun cls e => el_set_classList (el_classList e ++ tokens cls) e));
      look].
  erewrite bind_Ok; [|apply (updEl_when _ w el_set_title); look].
  simpl. unfold bind, modify, ret. simpl.
  by rewrite !insert_insert_eq.
Qed.

Lemma set_MARKER_range key o m :
  mark_from (set_MARKER key o m) = mark_from m
  ∧ mark_to (set_MARKER key o m) = mark_to m
  ∧ mark_key (set_MARKER key o m) = mark_key m
  ∧ mark_replacedWith (set_MARKER key o m) = mark_replacedWith m.
Proof. unfold set_MARKER. by case_bool_decide. Qed.

Lemma filter_map_set_MARKER (P : Pos → Pos → bool) key o marks :
  List.filter (fun m => P (mark_from m) (mark_to m))
    (map (set_MARKER key o) marks)
  = map (set_MARKER key o)
      (List.filter (fun m => P (mark_from m) (mark_to m)) marks).
Proof.
  induction marks as [|m marks IH]; simpl; [done|].
  destruct (set_MARKER_range key o m) as (-> & -> & _).
  destruct (P (mark_from m) (mark_to m)); simpl; by rewrite IH.
Qed.

Lemma markText_decorates from to options pre mark rest w el s :
  options ≠ [] →
  Forall (fun kv => kv.1 ∈ supportedOptions) options →
  cm_findMarks s from to = pre ++ mark :: rest →
  Forall (passed_over s) pre →
  mark_replacedWith mark = Some w →
  dom s !! w = Some el →
  ClassList.contains "blocks-node" (el_classList el) = true →
  markText from to options s
  = Ok (Some (mark_key mark, options))
      (set_cm_marks
         (map (set_MARKER (mark_key mark) (Some options)) (cm_marks s))
         (set_dom (<[w := decorated options el]> (dom s)) s)).
Proof.
  intros Hne Hsup Hfound Hpre Hw Hel Hnode.
  unfold markText. rewrite (bind_Ok _ _ _ _ _ (checkOptions_supported _ _ Hsup)).
  destruct options as [|o options']; [done|].
  rewrite (bind_Ok _ _ _ _ _ (eq_refl : get _ = _)).
  rewrite Hfound, decorate_passes by done.
  by apply decorate_node.
Qed.

Lemma split_tokens_run cs cur :
  existsb is_token_space cs = false →
  cur ≠ [] ∨ cs ≠ [] →
  split_tokens cs cur = [string_of_list_ascii (rev cur ++ cs)].
Proof.
  revert cur. induction cs as [|c rest IH]; intros cur Hno Hne; simpl in *.
  - destruct cur; [by destruct Hne|]. by rewrite app_nil_r.
  - apply orb_false_iff in Hno as [Hc Hrest]. rewrite Hc.
    rewrite IH by (done || by left). simpl. by rewrite <- app_assoc.
Qed.

Lemma tokens_valid c : token_error c = None → tokens c = [c].
Proof.
  unfold token_error, tokens. case_bool_decide as Hc; [done|].
  destruct (existsb _ _) eqn:Hno; [done|]. intros _.
  rewrite split_tokens_run; [simpl; by rewrite string_of_list_ascii_of_string|done|].
  right. intros Hnil. apply Hc.
  by rewrite <- (string_of_list_ascii_of_string c), Hnil.
Qed.

Lemma clear_step {A} (o : option A) marker w (f : Element → Element) el s :
  bm_replacedWith marker = Some w →
  dom s !! w = Some el →
  match o with
  | Some _ => w <- replacedWith marker ;; updEl w f
  | None => ret tt
  end s
  = Ok tt (set_dom (<[w := match o with Some _ => f el | None => el end]>
                      (dom s)) s).
Proof.
  intros Hw Hel. destruct o.
  - unfold replacedWith. rewrite Hw.
    rewrite (bind_Ok _ _ _ _ _ (eq_refl : ret w _ = _)). by apply updEl_Ok.
  - by rewrite insert_id, set_dom_id.
Qed.

Lemma BlockMarker_clear_run marker w el s :
  bm_replacedWith marker = Some w →
  dom s !! w = Some el →
  (∀ cls, option_value (bm_options marker) "className" = Some cls →
          token_error cls = None) →
  BlockMarker_clear marker s
  = Ok tt
      (set_cm_marks (map (set_MARKER (bm_cmMarker marker) None) (cm_marks s))
         (set_dom (<[w := cleared (bm_options marker) el]> (dom s)) s)).
Proof.
  intros Hw Hel Htok. unfold BlockMarker_clear.
  rewrite (bind_Ok _ _ _ _ _
             (clear_step _ marker w (el_set_cssText "") el s Hw Hel)).
  erewrite bind_Ok; [|apply (clear_step _ marker w (el_set_title "")); [done|look]].
  destruct (option_value (bm_options marker) "className") as [cls|] eqn:Hcls.
  - unfold replacedWith. rewrite Hw. rewrite bind_assoc.
    rewrite (bind_Ok _ _ _ _ _ (eq_refl : ret w _ = _)).
    erewrite bind_Ok; [|apply DOMTokenList_remove_Ok; [look|by apply Htok]].
    simpl. unfold modify. simpl.
    unfold cleared. rewrite Hcls. by rewrite !insert_insert_eq.
  - rewrite (bind_Ok _ _ _ _ _ (eq_refl : ret tt _ = _)).
    unfold modify. simpl. unfold cleared. rewrite Hcls.
    by rewrite !insert_insert_eq.
Qed.

Lemma set_MARKER_None_blockMarker key m bm :
  blockMarker (set_MARKER key None m) = Some bm → bm_cmMarker bm ≠ key.
Proof.
  unfold blockMarker, set_MARKER. case_bool_decide as Hk; simpl; [done|].
  destruct (mark_MARKER m); [|done]. by intros [= <-].
Qed.

(** X9: when the first mark in the range that is not passed over replaces
    the text with a node's element, [markText] decorates that element and
    hands nothing to the editor: no editor mark is added and no editor
    call is made.  The marker it returns is then found again by
    [findMarks] over the same range and by [getAllMarks]. *)
Theorem markText_marker_is_found from to options pre mark rest w el s :
  options ≠ [] →
  Forall (fun kv => kv.1 ∈ supportedOptions) options →
  cm_findMarks s from to = pre ++ mark :: rest →
  Forall (passed_over s) pre →
  mark_replacedWith mark = Some w →
  dom s !! w = Some el →
  ClassList.contains "blocks-node" (el_classList el) = true →
  let marker := mkBlockMarker (mark_key mark) (Some w) options in
  ∃ s1 found all,
    markText from to options s = Ok (Some (mark_key mark, options)) s1
    ∧ dom s1 = <[w := decorated options el]> (dom s)
    ∧ findMarks from to s1 = Ok found s1 ∧ marker ∈ found
    ∧ getAllMarks s1 = Ok all s1 ∧ marker ∈ all
    ∧ List.length (cm_marks s1) = List.length (cm_marks s)
    ∧ cm_value s1 = cm_value s
    ∧ trace s1 = trace s.
Proof.
  intros Hne Hsup Hfound Hpre Hw Hel Hnode marker.
  eexists _, _, _. split; [by eapply markText_decorates|].
  assert (mark ∈ cm_findMarks s from to) as Hin.
  { rewrite Hfound. apply elem_of_app. right. apply elem_of_cons. by left. }
  assert (blockMarker (set_MARKER (mark_key mark) (Some options) mark)
          = Some marker) as Hmarker.
  { unfold blockMarker, set_MARKER. rewrite bool_decide_eq_true_2 by done.
    simpl. by rewrite Hw. }
  simpl. split; [done|]. split; [reflexivity|]. split.
  { apply list_elem_of_omap. eexists. split; [|exact Hmarker].
    unfold cm_findMarks. simpl.
    rewrite (filter_map_set_MARKER
               (fun f t => (Buffer.indexFromPos (cm_value s) f
                            <? Buffer.indexFromPos (cm_value s) to)
                           && (Buffer.indexFromPos (cm_value s) from
                               <? Buffer.indexFromPos (cm_value s) t))).
    apply list_elem_of_fmap_2. exact Hin. }
  split; [reflexivity|]. split.
  { apply list_elem_of_omap. eexists. split; [|exact Hmarker].
    simpl. apply list_elem_of_fmap_2.
    unfold cm_findMarks in Hin.
    apply list_elem_of_In, filter_In in Hin as [Hin _].
    by apply list_elem_of_In. }
  split; [by rewrite length_map|done].
Qed.

(** X10: [markText] on a node and then [clear] on the marker it
    returned, for options whose class name, when there is one, is a single
    class token (not empty, no white space).  The marker is gone: no mark
    of the editor carries a marker for that key any more.  The class named
    by the options is not on the element, and when the element did not
    have it before the marking its class list is what it was.  The inline
    style and the title are not restored: where the options set them they
    end up empty.  The buffer is not touched and the editor is not
    called. *)
Theorem markText_then_clear from to options pre mark rest w el s :
  options ≠ [] →
  Forall (fun kv => kv.1 ∈ supportedOptions) options →
  (∀ cls, option_value options "className" = Some cls →
          token_error cls = None) →
  cm_findMarks s from to = pre ++ mark :: rest →
  Forall (passed_over s) pre →
  mark_replacedWith mark = Some w →
  dom s !! w = Some el →
  ClassList.contains "blocks-node" (el_classList el) = true →
  let marker := mkBlockMarker (mark_key mark) (Some w) options in
  ∃ s2 el2 all,
    (markText from to options ;; BlockMarker_clear marker) s = Ok tt s2
    ∧ getAllMarks s2 = Ok all s2
    ∧ (∀ m, m ∈ all → bm_cmMarker m ≠ mark_key mark)
    ∧ dom s2 = <[w := el2]> (dom s)
    ∧ (∀ cls, option_value options "className" = Some cls →
              (cls ∉ el_classList el2)
              ∧ (cls ∉ el_classList el → el_classList el2 = el_classList el))
    ∧ (option_value options "className" = None →
       el_classList el2 = el_classList el)
    ∧ el_cssText el2
      = match option_value options "css" with
        | Some _ => ""
        | None => el_cssText el
        end
    ∧ el_title el2
      = match option_value options "title" with
        | Some _ => ""
        | None => el_title el
        end
    ∧ cm_value s2 = cm_value s
    ∧ trace s2 = trace s.
Proof.
  intros Hne Hsup Htok Hfound Hpre Hw Hel Hnode marker.
  eexists _, (cleared options (decorated options el)), _. split.
  { erewrite bind_Ok; [|by eapply markText_decorates].
    apply (BlockMarker_clear_run marker w); [done|look|done]. }
  simpl. split; [reflexivity|]. split.
  { intros m Hm. apply list_elem_of_omap in Hm as (x & Hx & Hbm).
    apply list_elem_of_fmap in Hx as (x0 & -> & _).
    by apply set_MARKER_None_blockMarker in Hbm. }
  split; [by rewrite insert_insert_eq|].
  unfold cleared, decorated.
  destruct (option_value options "className") as [cls|] eqn:Hcls.
  - rewrite (tokens_valid cls (Htok cls eq_refl)).
    destruct (option_value options "css"), (option_value options "title");
      simpl; split_and!; try done;
      intros cls' [= <-];
      (split; [apply ClassList_remove_not_elem|]);
      intros Hno; unfold ClassList.remove; rewrite List.filter_app; simpl;
      (rewrite bool_decide_eq_true_2 by done); simpl; rewrite app_nil_r;
      by apply ClassList_remove_absent.
  - destruct (option_value options "css"), (option_value options "title");
      simpl; by split_and!.
Qed.

(** X11: when no mark in the range replaces the text with a node's
    element, [markText] passes the call through to the editor and returns
    nothing, not the editor's marker.  For a range that is not empty the
    editor adds one mark; it carries no block marker, so [getAllMarks]
    answers as before, and no element changes. *)
Theorem markText_passes_through from to options s :
  options ≠ [] →
  Forall (fun kv => kv.1 ∈ supportedOptions) options →
  Forall (passed_over s) (cm_findMarks s from to) →
  Buffer.indexFromPos (cm_value s) from < Buffer.indexFromPos (cm_value s) to →
  ∃ s1 m all,
    markText from to options s = Ok None s1
    ∧ trace s1 = trace s ++ [CmMarkText from to options]
    ∧ cm_marks s1 = cm_marks s ++ [m]
    ∧ (mark_from m, mark_to m, mark_options m) = (from, to, options)
    ∧ getAllMarks s = Ok all s
    ∧ getAllMarks s1 = Ok all s1
    ∧ dom s1 = dom s
    ∧ cm_value s1 = cm_value s.
Proof.
  intros Hne Hsup Hpass Hlt. destruct options as [|o options']; [done|].
  eexists _, _, _. split.
  { unfold markText. rewrite (bind_Ok _ _ _ _ _ (checkOptions_supported _ _ Hsup)).
    rewrite (bind_Ok _ _ _ _ _ (eq_refl : get _ = _)).
    rewrite <- (app_nil_r (cm_findMarks s from to)).
    rewrite decorate_passes by done. simpl.
    unfold cm_markText, bind, get. rewrite (proj2 (Nat.ltb_lt _ _) Hlt).
    unfold when, modify, log, ret. simpl. reflexivity. }
  simpl. split_and!; try done.
  unfold getAllMarks, bind, get, ret. simpl.
  by rewrite omap_app, app_nil_r.
Qed.

(** X30: [clear] on a marker whose class name is not a single class
    token (it is made of several, or holds other white space) throws the
    DOM's exception from [classList.remove] and never reaches the
    deletion of the marker: the editor's marks still carry it, so
    [getAllMarks] answers as before.  The inline style and the title have
    already been emptied where the options set them; the class list and
    the buffer are what they were. *)
Theorem BlockMarker_clear_invalid_className marker w el cls x s :
  bm_replacedWith marker = Some w →
  dom s !! w = Some el →
  option_value (bm_options marker) "className" = Some cls →
  token_error cls = Some x →
  ∃ s' el',
    BlockMarker_clear marker s = Throw x s'
    ∧ cm_marks s' = cm_marks s
    ∧ getAllMarks s' = Ok (omap blockMarker (cm_marks s)) s'
    ∧ dom s' = <[w := el']> (dom s)
    ∧ el_classList el' = el_classList el
    ∧ el_cssText el'
      = match option_value (bm_options marker) "css" with
        | Some _ => ""
        | None => el_cssText el
        end
    ∧ el_title el'
      = match option_value (bm_options marker) "title" with
        | Some _ => ""
        | None => el_title el
        end
    ∧ cm_value s' = cm_value s.
Proof.
  intros Hw Hel Hcls Hbad. unfold BlockMarker_clear.
  rewrite (bind_Ok _ _ _ _ _
             (clear_step _ marker w (el_set_cssText "") el s Hw Hel)).
  erewrite bind_Ok; [|apply (clear_step _ marker w (el_set_title "")); [done|look]].
  rewrite Hcls. unfold replacedWith. rewrite Hw. rewrite bind_assoc.
  rewrite (bind_Ok _ _ _ _ _ (eq_refl : ret w _ = _)).
  erewrite bind_Throw; [|eapply DOMTokenList_invalid; [look|exact Hbad]].
  eexists _, _. split; [reflexivity|]. simpl.
  split; [done|]. split; [done|]. split; [by rewrite insert_insert_eq|].
  by destruct (option_value (bm_options marker) "css"),
       (option_value (bm_options marker) "title").
Qed.

End markers.

Lemma markText_marker_is_found_witness :
  ∃ s1 found,
    markText (mkPos 0 4) (mkPos 0 6) [("className", "hl")]
      (Demo.editor (txt "abc de f"))
    = Ok (Some (101, [("className", "hl")])) s1
    ∧ findMarks (mkPos 0 4) (mkPos 0 6) s1 = Ok found s1
    ∧ mkBlockMarker 101 (Some 101) [("className", "hl")] ∈ found.
Proof.
  destruct (markText_marker_is_found (mkPos 0 4) (mkPos 0 6)
              [("className", "hl")] []
              (mkMark 101 (mkPos 0 4) (mkPos 0 6) (Some 101) [] None) []
              101 (Demo.element EditExamples.word1)
              (Demo.editor (txt "abc de f")))
    as (s1 & found & all & Hrun & _ & Hfind & Hin & _).
  - discriminate.
  - repeat constructor.
  - vm_compute. reflexivity.
  - constructor.
  - reflexivity.
  - vm_compute. reflexivity.
  - reflexivity.
  - by exists s1, found.
Defined.

Lemma markText_then_clear_witness :
  ∃ s2 el2,
    (markText (mkPos 0 4) (mkPos 0 6) [("className", "hl"); ("title", "t")] ;;
     BlockMarker_clear
       (mkBlockMarker 101 (Some 101) [("className", "hl"); ("title", "t")]))
      (Demo.editor (txt "abc de f"))
    = Ok tt s2
    ∧ dom s2 = <[101 := el2]> (dom (Demo.editor (txt "abc de f")))
    ∧ el_classList el2 = ["blocks-node"; "blocks-literal"]
    ∧ el_title el2 = "".
Proof.
  destruct (markText_then_clear (mkPos 0 4) (mkPos 0 6)
              [("className", "hl"); ("title", "t")] []
              (mkMark 101 (mkPos 0 4) (mkPos 0 6) (Some 101) [] None) []
              101 (Demo.element EditExamples.word1)
              (Demo.editor (txt "abc de f")))
    as (s2 & el2 & all & Hrun & _ & _ & Hdom & Hcls & _ & Hcss & Htitle & _).
  - discriminate.
  - repeat constructor.
  - intros cls [= <-]. reflexivity.
  - vm_compute. reflexivity.
  - constructor.
  - reflexivity.
  - vm_compute. reflexivity.
  - reflexivity.
  - exists s2, el2. split; [exact Hrun|]. split; [exact Hdom|].
    split; [|exact Htitle].
    destruct (Hcls "hl" eq_refl) as [_ Hsame].
    apply Hsame. apply (bool_decide_unpack _). vm_compute. exact I.
Defined.

Lemma markText_passes_through_witness :
  ∃ s1 m,
    markText (mkPos 0 4) (mkPos 0 6) [("css", "color: red")]
      StructuralExamples.with_widget
    = Ok None s1
    ∧ trace s1 = [CmMarkText (mkPos 0 4) (mkPos 0 6) [("css", "color: red")]]
    ∧ cm_marks s1 = cm_marks StructuralExamples.with_widget ++ [m].
Proof.
  destruct (markText_passes_through (mkPos 0 4) (mkPos 0 6)
              [("css", "color: red")] StructuralExamples.with_widget)
    as (s1 & m & all & Hrun & Htrace & Hmarks & _).
  - discriminate.
  - repeat constructor.
  - assert (cm_findMarks StructuralExamples.with_widget (mkPos 0 4) (mkPos 0 6)
            = [mkMark 101 (mkPos 0 4) (mkPos 0 6) (Some 101) [] None]) as ->
      by (vm_compute; reflexivity).
    constructor; [|constructor].
    exists (Demo.plain ["widget"]). split; [vm_compute; reflexivity|reflexivity].
  - vm_compute. lia.
  - by exists s1, m.
Defined.

(** ** Keeping the tree in step with the buffer *)
Section sync.
Context (env : Env).

Global Instance steady_preorder : PreOrder steady.
Proof. apply _. Qed.

Lemma mark_clear_steady key : safe steady (mark_clear key).
Proof.
  unfold mark_clear. apply safe_bind; [apply _|apply safe_get; apply _|].
  intros s0. destruct (existsb _ _); [|apply safe_ret; apply _].
  apply safe_bind; [apply _| |intros]; by apply safe_modify.
Qed.

Lemma render_run s :
  ∃ s', render env s = Ok tt s'
        ∧ ast s' = Some (parser_parse env (cm_value s))
        ∧ steady s s' ∧ quiet s s'.
Proof.
  destruct (render_safe env s) as ([] & s' & Hrun & Hq).
  exists s'. split; [done|]. split; [|split; [|done]].
  - revert Hrun. unfold render.
    rewrite (bind_Ok _ _ _ _ _ (eq_refl : get _ = _)).
    rewrite (bind_Ok _ _ _ _ _ (eq_refl : modify _ _ = _)).
    assert (safe (same ast)
              (_clearMarks ;;
               forEach (rootNodes (parser_parse env (cm_value s)))
                 (renderNode env))) as Htail.
    { unfold _clearMarks.
      apply safe_bind; [apply _| |intros _].
      - apply safe_bind; [apply _|apply safe_get; apply _|intros s1].
        apply safe_forEach; [apply _|intros mark].
        unfold mark_clear.
        apply safe_bind; [apply _|apply safe_get; apply _|intros s2].
        destruct (existsb _ _); [|apply safe_ret; apply _].
        apply safe_bind; [apply _| |intros]; by apply safe_modify.
      - apply safe_forEach; [apply _|intros node]. by apply safe_modify. }
    match goal with
    | |- ?m ?st = _ → _ => destruct (Htail st) as ([] & s1 & Hrun1 & Hsame)
    end.
    rewrite Hrun1. intros [= <-]. by rewrite Hsame.
  - revert Hrun. unfold render.
    rewrite (bind_Ok _ _ _ _ _ (eq_refl : get _ = _)).
    rewrite (bind_Ok _ _ _ _ _ (eq_refl : modify _ _ = _)).
    assert (safe steady
              (_clearMarks ;;
               forEach (rootNodes (parser_parse env (cm_value s)))
                 (renderNode env))) as Htail.
    { unfold _clearMarks.
      apply safe_bind; [apply _| |intros _].
      - apply safe_bind; [apply _|apply safe_get; apply _|intros s1].
        apply safe_forEach; [apply _|intros mark]. apply mark_clear_steady.
      - apply safe_forEach; [apply _|intros node]. by apply safe_modify. }
    match goal with
    | |- ?m ?st = _ → _ => destruct (Htail st) as ([] & s1 & Hrun1 & Hsame)
    end.
    rewrite Hrun1. intros [= <-]. exact Hsame.
Qed.


Lemma cm_replaceRange_syncs text from to s :
  cm_inOperation s = false →
  ∃ s',
    cm_replaceRange env text from to s = Ok tt s'
    ∧ cm_value s' = Buffer.replaceRange (cm_value s) text from to
    ∧ mutations (trace s')
      = mutations (trace s) ++ [ReplaceRange text from to]
    ∧ events s' = events s
    ∧ hasInvalidEdit s' = hasInvalidEdit s
    ∧ (blockMode s ≠ Off → ast s' = Some (parser_parse env (cm_value s'))).
Proof.
  intros Hop. unfold cm_replaceRange, bind, modify, log, get. simpl.
  rewrite Hop. unfold handleChange.
  rewrite (bind_Ok _ _ _ _ _ (eq_refl : get _ = _)). simpl.
  destruct (blockMode s) eqn:Hmode.
  - eexists. split; [reflexivity|]. simpl.
    rewrite mutations_app. by split_and!.
  - match goal with
    | |- ∃ s', render env ?st = _ ∧ _ =>
        destruct (render_run st) as (s' & Hrun & Hast & Hst & [Hv Hf (l & Ht & Hm)])
    end.
    simpl in *. exists s'. split; [done|]. unfold steady, same in Hst.
    simpl in Hst. injection Hst as Hval Hev _ _ _ _.
    split; [done|]. split.
    { rewrite Ht, !mutations_app, Hm. simpl. by rewrite app_nil_r. }
    split; [done|]. split; [done|]. intros _. by rewrite Hv.
Qed.

End sync.

(** ** The keyboard *)
Section keyboard.
Context (env : Env) (keys : Keys).


(** X14: a key that is not bound to anything is not consumed.  When the
    key is none of the four the class handles itself (Enter on an editable
    node, Backspace on a node, Tab, Shift-Tab) and the key map has no
    command for it, [handleKeyDown] returns without cancelling the event:
    the state, the event included, is as it was. *)
Theorem handleKeyDown_unbound_key fuel ev e sel s :
  events s !! ev = Some e →
  getSelectedNode s = Ok sel s →
  keyName keys e ∉ ["Tab"; "Shift-Tab"] →
  (keyName keys e = "Enter" → is_editable sel = false) →
  (keyName keys e = "Backspace" → sel = None) →
  keyMap keys (keyName keys e) = None →
  handleKeyDown env keys fuel ev s = Ok (Some tt) s.
Proof.
  intros Hev Hsel Htab Henter Hback Hmap. unfold handleKeyDown.
  run_getEvent. rewrite (bind_Ok _ _ _ _ _ Hsel).
  assert (bool_decide (keyName keys e = "Enter") && is_editable sel = false)
    as ->.
  { case_bool_decide as Hk; [by apply Henter|done]. }
  assert (bool_decide (keyName keys e = "Backspace")
          && bool_decide (is_Some sel) = false) as ->.
  { case_bool_decide as Hk; [|done]. by rewrite (Hback Hk). }
  rewrite !bool_decide_eq_false_2, Hmap; [done|..];
    intros Hk; apply Htab; rewrite Hk; set_solver.
Qed.

(** X15: Backspace on a selected node deletes it and consumes the key:
    the node's range is replaced by the empty text in one mutation, and
    the event ends with its default prevented and its propagation
    stopped. *)
Theorem handleKeyDown_backspace fuel ev e n s :
  events s !! ev = Some e →
  getSelectedNode s = Ok (Some n) s →
  keyName keys e = "Backspace" →
  ∃ s',
    handleKeyDown env keys fuel ev s = Ok (Some tt) s'
    ∧ cm_value s'
      = Buffer.replaceRange (cm_value s) [] (node_from n) (Some (node_to n))
    ∧ mutations (trace s')
      = mutations (trace s) ++ [ReplaceRange [] (node_from n) (Some (node_to n))]
    ∧ events s' !! ev
      = Some (ev_set_propagationStopped true (ev_set_defaultPrevented true e)).
Proof.
  intros Hev Hsel Hkey. unfold handleKeyDown.
  run_getEvent. rewrite (bind_Ok _ _ _ _ _ Hsel). rewrite Hkey. simpl.
  rewrite bind_assoc.
  unfold deleteSelectedNodes. rewrite bind_assoc.
  rewrite (bind_Ok _ _ _ _ _ Hsel).
  assert (∃ s1, cm_replaceRange env [] (node_from n) (Some (node_to n)) s
                = Ok tt s1
                ∧ cm_value s1
                  = Buffer.replaceRange (cm_value s) [] (node_from n)
                      (Some (node_to n))
                ∧ mutations (trace s1)
                  = mutations (trace s)
                    ++ [ReplaceRange [] (node_from n) (Some (node_to n))]
                ∧ events s1 = events s) as (s1 & Hrun & Hv & Hm & He).
  { destruct (cm_inOperation s) eqn:Hop.
    - eexists. split; [by apply cm_replaceRange_held|]. simpl.
      rewrite mutations_app. by split_and!.
    - destruct (cm_replaceRange_syncs env [] (node_from n)
                  (Some (node_to n)) s Hop)
        as (s1 & Hrun & Hv & Hm & He & _).
      by exists s1. }
  rewrite (bind_Ok _ _ _ _ _ Hrun).
  rewrite (bind_Ok _ _ _ _ _ (eq_refl : ret _ _ = _)).
  unfold preventDefault, stopPropagation.
  erewrite bind_Ok; [|apply updEvent_Ok; rewrite He; exact Hev].
  erewrite bind_Ok; [|apply updEvent_Ok; look].
  eexists. split; [reflexivity|]. simpl.
  split; [done|]. split; [done|]. by rewrite lookup_insert_eq.
Qed.

Lemma getRange_replaceRange doc from to :
  Buffer.indexFromPos doc from ≤ Buffer.indexFromPos doc to →
  Buffer.replaceRange doc (Buffer.getRange doc from to) from (Some to) = doc.
Proof.
  intros Hle. unfold Buffer.replaceRange, Buffer.getRange, Buffer.splice.
  rewrite decide_False by lia.
  set (i := Buffer.indexFromPos doc from) in *.
  set (j := Buffer.indexFromPos doc to) in *.
  rewrite app_assoc.
  assert (take i doc = take i (take j doc)) as ->
    by (by rewrite take_take, Nat.min_l by lia).
  by rewrite !take_drop.
Qed.

(** X16: Escape in an element under edit gives up the edit.  The
    element's text is set back to the text remembered when the edit
    began, whatever was typed since, and the blur that follows commits
    that text over the node's range; for a
    quarantined node the commit appends its blank.  When the remembered
    text is what the buffer holds over the node's range, and the node is
    not quarantined and its range is in order, the buffer ends up as it
    was. *)
Theorem handleEditKeyDown_escape self ev e blurEv be node el s :
  events s !! ev = Some e →
  events s !! blurEv = Some be →
  blurEv ≠ ev →
  keyName keys (codemirrorIgnore keys (ev_set_propagationStopped true e))
  = "Esc" →
  dom s !! self = Some el →
  el_onblur el = Some (CSaveEdit node self) →
  parser_lex env (default [] (el_oldText el)) = None →
  ∃ s',
    handleEditKeyDown env keys self ev blurEv s = Ok tt s'
    ∧ cm_value s'
      = Buffer.replaceRange (cm_value s)
          (committed_text node (default [] (el_oldText el)))
          (node_from node) (Some (node_to node))
    ∧ hasInvalidEdit s' = hasInvalidEdit s
    ∧ (node_quarantine node = None →
       el_oldText el
       = Some (Buffer.getRange (cm_value s) (node_from node) (node_to node)) →
       Buffer.indexFromPos (cm_value s) (node_from node)
       ≤ Buffer.indexFromPos (cm_value s) (node_to node) →
       cm_value s' = cm_value s).
Proof.
  intros Hev Hblur Hne Hkey Hel Honblur Hlex.
  unfold handleEditKeyDown, stopPropagation, preventDefault.
  run_updEvent. run_updEvent. run_getEvent. rewrite Hkey. simpl.
  run_updEl. run_updEvent. unfold blur. run_getEl. simpl. rewrite Honblur.
  match goal with
  | |- context [saveEdit env node self blurEv ?st] =>
      destruct (saveEdit_commit env node self blurEv be
                  (el_set_innerText (default [] (el_oldText el)) el) st)
        as (s' & rest & Hrun & Hv & Ht & Hm & Hf)
  end.
  { simpl. by rewrite !lookup_insert_ne by done. }
  { simpl. apply lookup_insert_eq. }
  { done. }
  simpl in *. exists s'. split; [done|]. split; [done|]. split; [done|].
  intros Hq Hold Hle. rewrite Hv. unfold committed_text. rewrite Hq, Hold.
  simpl. by apply getRange_replaceRange.
Qed.

(** X17: any key other than Enter, Tab and Escape in an element under
    edit is left to the browser: [handleEditKeyDown] keeps the event from
    the editor (propagation stopped, marked to be ignored) and does
    nothing else: the default is not prevented, the element keeps its
    text and its focus, and nothing is committed. *)
Theorem handleEditKeyDown_other_key self ev e blurEv s :
  events s !! ev = Some e →
  keyName keys (codemirrorIgnore keys (ev_set_propagationStopped true e))
  ∉ ["Enter"; "Tab"; "Esc"] →
  handleEditKeyDown env keys self ev blurEv s
  = Ok tt
      (set_events
         (<[ev := codemirrorIgnore keys (ev_set_propagationStopped true e)]>
            (events s)) s).
Proof.
  intros Hev Hkey. unfold handleEditKeyDown, stopPropagation.
  run_updEvent. run_updEvent. run_getEvent.
  rewrite bool_decide_eq_false_2 by done.
  unfold ret. simpl. by rewrite insert_insert_eq.
Qed.

End keyboard.


Lemma handleKeyDown_unbound_key_witness :
  handleKeyDown Demo.env KeyExamples.keys 3 7 (KeyExamples.pressing "a")
  = Ok (Some tt) (KeyExamples.pressing "a").
Proof.
  apply (handleKeyDown_unbound_key Demo.env KeyExamples.keys 3 7
           (KeyExamples.key "a" 102) (Some NavigationExamples.word2)).
  - vm_compute. reflexivity.
  - vm_compute. reflexivity.
  - apply (bool_decide_unpack _). vm_compute. exact I.
  - vm_compute. discriminate.
  - vm_compute. discriminate.
  - reflexivity.
Defined.

Lemma handleKeyDown_backspace_witness :
  ∃ s',
    handleKeyDown Demo.env KeyExamples.keys 3 7 (KeyExamples.pressing "008")
    = Ok (Some tt) s'
    ∧ cm_value s' = txt "abc de ".
Proof.
  destruct (handleKeyDown_backspace Demo.env KeyExamples.keys 3 7
              (KeyExamples.key "008" 102) NavigationExamples.word2
              (KeyExamples.pressing "008"))
    as (s' & Hrun & Hv & _).
  - vm_compute. reflexivity.
  - vm_compute. reflexivity.
  - reflexivity.
  - exists s'. split; [exact Hrun|]. rewrite Hv. vm_compute. reflexivity.
Defined.

Lemma handleEditKeyDown_escape_witness :
  ∃ s',
    handleEditKeyDown Demo.env KeyExamples.keys 101 7 8
      (KeyExamples.typing_in (txt "zzz") "027")
    = Ok tt s'
    ∧ cm_value s' = txt "abc de f".
Proof.
  destruct (handleEditKeyDown_escape Demo.env KeyExamples.keys 101 7
              (KeyExamples.key "027" 101) 8 (Demo.event "blur" 101)
              EditExamples.word1 (EditExamples.edited (txt "zzz"))
              (KeyExamples.typing_in (txt "zzz") "027"))
    as (s' & Hrun & _ & _ & Hsame).
  - vm_compute. reflexivity.
  - vm_compute. reflexivity.
  - discriminate.
  - reflexivity.
  - vm_compute. reflexivity.
  - reflexivity.
  - reflexivity.
  - exists s'. split; [exact Hrun|]. apply Hsame.
    + reflexivity.
    + vm_compute. reflexivity.
    + vm_compute. lia.
Defined.

Lemma handleEditKeyDown_other_key_witness :
  dom (final (handleEditKeyDown Demo.env KeyExamples.keys 101 7 8
                (KeyExamples.typing_in (txt "zzz") "a")))
  = dom (KeyExamples.typing_in (txt "zzz") "a").
Proof.
  rewrite (handleEditKeyDown_other_key Demo.env KeyExamples.keys 101 7
             (KeyExamples.key "a" 101) 8
             (KeyExamples.typing_in (txt "zzz") "a")).
  - reflexivity.
  - vm_compute. reflexivity.
  - apply (bool_decide_unpack _). vm_compute. exact I.
Defined.

(** ** Checking and saving an edit *)
Section saving.
Context (env : Env).

(** X18: [checkEditableEl] returns the lexer's verdict and never throws,
    also when extracting the message of the lexer's exception throws.  It
    writes to the element only: on acceptance the title is emptied and the
    class list is left as it is (a 'blocks-error' class stays); on refusal
    the class 'blocks-error' is on the element and the title is the
    extracted message, or what it was when there is none.  The buffer, the
    invalid-edit flag and the timers are not touched. *)
Theorem checkEditableEl_verdict nodeEl text el s :
  dom s !! nodeEl = Some el →
  ∃ s' el',
    checkEditableEl env nodeEl text s
    = Ok (match parser_lex env text with None => true | Some _ => false end) s'
    ∧ dom s' = <[nodeEl := el']> (dom s)
    ∧ match parser_lex env text with
      | None => el' = el_set_title "" el
      | Some err =>
          "blocks-error" ∈ el_classList el'
          ∧ el_title el'
            = match parser_getExceptionMessage env err with
              | inr msg => msg
              | inl _ => el_title el
              end
          ∧ el_innerText el' = el_innerText el
          ∧ el_onblur el' = el_onblur el
      end
    ∧ cm_value s' = cm_value s
    ∧ mutations (trace s') = mutations (trace s)
    ∧ hasInvalidEdit s' = hasInvalidEdit s
    ∧ timers s' = timers s
    ∧ events s' = events s.
Proof.
  intros Hel. unfold checkEditableEl.
  destruct (parser_lex env text) as [err|].
  - unfold classList_add.
    destruct (parser_getExceptionMessage env err) as [e'|msg].
    + run_updEl. run_with ltac:(reflexivity). run_with ltac:(reflexivity).
      eexists _, _. split; [reflexivity|]. simpl.
      split; [reflexivity|]. simpl.
      split; [by split; [apply ClassList_add_elem|]|].
      split; [done|]. split; [by rewrite !mutations_app, !app_nil_r|done].
    + run_updEl. run_updEl. run_with ltac:(reflexivity).
      eexists _, _. split; [reflexivity|]. simpl.
      split; [by rewrite insert_insert_eq|]. simpl.
      split; [by split; [apply ClassList_add_elem|]|].
      split; [done|]. split; [by rewrite !mutations_app, !app_nil_r|done].
  - run_updEl. eexists _, _. split; [reflexivity|]. simpl. by split_and!.
Qed.

Lemma saveWhiteSpace_commit ws el l c s :
  dom s !! ws = Some el →
  el_line el = Some l →
  el_ch el = Some c →
  parser_lex env (txt " " ++ el_innerText el) = None →
  ∃ s',
    saveWhiteSpace env ws s = Ok tt s'
    ∧ cm_value s'
      = Buffer.replaceRange (cm_value s) (txt " " ++ el_innerText el)
          (mkPos l c) (Some (mkPos l c))
    ∧ mutations (trace s')
      = mutations (trace s)
        ++ [ReplaceRange (txt " " ++ el_innerText el)
              (mkPos l c) (Some (mkPos l c))]
    ∧ hasInvalidEdit s' = hasInvalidEdit s.
Proof.
  intros Hel Hl Hc Hlex. unfold saveWhiteSpace.
  rewrite (bind_Ok _ _ _ _ _ (getLocationFromEl_Ok _ _ _ Hel)), Hl, Hc.
  run_getEl. unfold checkEditableEl. rewrite Hlex.
  run_with ltac:(run_updEl; reflexivity). simpl.
  run_getEl. simpl. unfold saveEditableEl, classList_remove.
  run_updEl. simpl. run_updEl. simpl. run_updEl. simpl.
  run_updEl. simpl. run_updEl. simpl.
  match goal with
  | |- context [cm_replaceRange env ?t ?f ?o ?st'] =>
      destruct (cm_replaceRange_run env t f o st') as (s' & Hrun & Hq)
  end.
  destruct Hq as [Hqv Hqf (rest & Hqt & Hqm)]. simpl in *.
  exists s'. split; [exact Hrun|]. split; [done|]. split; [|done].
  rewrite Hqt, !mutations_app, Hqm. simpl. by rewrite app_nil_r.
Qed.

(** X19: a white-space edit that lexes is an insertion, not a
    replacement: [saveWhiteSpace] writes one blank and the element's text
    at the element's location, both ends of the range being that
    location, so nothing is removed and the buffer grows by the length of
    the text and one.  It is the only buffer mutation made. *)
Theorem saveWhiteSpace_inserts ws el l c s :
  dom s !! ws = Some el →
  el_line el = Some l →
  el_ch el = Some c →
  parser_lex env (txt " " ++ el_innerText el) = None →
  ∃ s',
    saveWhiteSpace env ws s = Ok tt s'
    ∧ cm_value s'
      = Buffer.replaceRange (cm_value s) (txt " " ++ el_innerText el)
          (mkPos l c) (Some (mkPos l c))
    ∧ List.length (cm_value s')
      = List.length (cm_value s) + S (List.length (el_innerText el))
    ∧ mutations (trace s')
      = mutations (trace s)
        ++ [ReplaceRange (txt " " ++ el_innerText el)
              (mkPos l c) (Some (mkPos l c))]
    ∧ hasInvalidEdit s' = hasInvalidEdit s.
Proof.
  intros Hel Hl Hc Hlex.
  destruct (saveWhiteSpace_commit ws el l c s Hel Hl Hc Hlex)
    as (s' & Hrun & Hv & Hm & Hf).
  exists s'. split; [exact Hrun|]. split; [exact Hv|]. split; [|done].
  rewrite Hv. unfold Buffer.replaceRange, Buffer.splice.
  rewrite decide_False by lia. simpl.
  rewrite length_app. simpl. rewrite length_app.
  pose proof (take_drop (Buffer.indexFromPos (cm_value s) (mkPos l c))
                (cm_value s)) as Hsplit.
  apply (f_equal List.length) in Hsplit. rewrite length_app in Hsplit. lia.
Qed.

(** X20: a white-space edit that does not lex is dropped on the spot.
    Unlike [saveEdit], [saveWhiteSpace] has no else branch: no timer is
    set to take the focus back and the invalid-edit flag is not raised.
    The buffer is not touched; the element keeps its text and its blur
    handler, and carries the class 'blocks-error'. *)
Theorem saveWhiteSpace_refused ws el err s :
  dom s !! ws = Some el →
  parser_lex env (txt " " ++ el_innerText el) = Some err →
  ∃ s' el',
    saveWhiteSpace env ws s = Ok tt s'
    ∧ cm_value s' = cm_value s
    ∧ mutations (trace s') = mutations (trace s)
    ∧ timers s' = timers s
    ∧ hasInvalidEdit s' = hasInvalidEdit s
    ∧ dom s' !! ws = Some el'
    ∧ "blocks-error" ∈ el_classList el'
    ∧ el_innerText el' = el_innerText el
    ∧ el_onblur el' = el_onblur el.
Proof.
  intros Hel Hlex. unfold saveWhiteSpace.
  rewrite (bind_Ok _ _ _ _ _ (getLocationFromEl_Ok _ _ _ Hel)).
  run_getEl. unfold checkEditableEl. rewrite Hlex. unfold classList_add.
  destruct (parser_getExceptionMessage env err) as [e'|msg].
  - run_with ltac:(run_updEl; simpl; run_with ltac:(reflexivity);
                   run_with ltac:(reflexivity); reflexivity).
    eexists _, _. split; [reflexivity|]. simpl.
    split; [done|]. split; [by rewrite !mutations_app, !app_nil_r|].
    split; [done|]. split; [done|]. split; [apply lookup_insert_eq|].
    simpl. split; [apply ClassList_add_elem|done].
  - run_with ltac:(run_updEl; simpl; run_updEl;
                   run_with ltac:(reflexivity); reflexivity).
    eexists _, _. split; [reflexivity|]. simpl.
    split; [done|]. split; [by rewrite !mutations_app, !app_nil_r|].
    split; [done|]. split; [done|]. split; [apply lookup_insert_eq|].
    simpl. split; [apply ClassList_add_elem|done].
Qed.

End saving.

(** ** Navigation *)
Section navigation_more.

Lemma skipHidden_first_visible fuel next first k n s :
  (∀ j, j < k →
        isNodeHidden (Nat.iter j (fun c => c ≫= next) first) s = Ok true s) →
  Nat.iter k (fun c => c ≫= next) first = Some n →
  isNodeHidden (Some n) s = Ok false s →
  k < fuel →
  skipHidden fuel next first s = Ok (Some (Some n)) s.
Proof.
  revert fuel first. induction k as [|k IH]; intros fuel first Hhid Hn Hvis Hk.
  - destruct fuel as [|fuel]; [lia|]. simpl in *. subst first.
    by rewrite (bind_Ok _ _ _ _ _ Hvis).
  - destruct fuel as [|fuel]; [lia|]. simpl.
    rewrite (bind_Ok _ _ _ _ _ (Hhid 0 ltac:(lia))).
    apply IH; [|by rewrite <- Nat.iter_succ_r|done|lia].
    intros j Hj. rewrite <- Nat.iter_succ_r. apply Hhid. lia.
Qed.

Lemma selectNode_run n ev e s :
  events s !! ev = Some e →
  is_Some (dom s !! node_el n) →
  selectNode (Some n) ev s
  = Ok tt
      (set_trace (trace s ++ [Focus (node_el n); ScrollIntoView (node_from n)])
         (set_activeElement (node_el n)
            (set_events (<[ev := ev_set_propagationStopped true e]> (events s))
               s))).
Proof.
  intros Hev [el Hel]. unfold selectNode, stopPropagation, focus.
  run_updEvent. run_with ltac:(reflexivity). rewrite !bind_assoc.
  run_getEl. unfold bind, log, modify. simpl. f_equal.
  unfold set_trace. simpl. by rewrite <- app_assoc.
Qed.

Lemma isNodeHidden_element n b s :
  isNodeHidden (Some n) s = Ok b s → is_Some (dom s !! node_el n).
Proof.
  destruct (dom s !! node_el n) eqn:He; [by eauto|].
  by rewrite (isNodeHidden_unbound _ _ He).
Qed.

(** X21: Tab moves the focus to the first node after the starting place
    that is not hidden.  When the [k] nodes that follow the starting place
    in the tree's order are hidden and the next one is not, and the loop
    is given more than [k] rounds, [selectNextNode] returns, having
    skipped the hidden ones: the element of that node is the active
    element, the view is scrolled to the node's start, the event's
    propagation is stopped, and neither the buffer nor any element has
    changed. *)
Theorem selectNextNode_first_visible fuel ev e sel tree k n s :
  ast s = Some tree →
  getSelectedNode s = Ok sel s →
  events s !! ev = Some e →
  (∀ j, j < k →
        isNodeHidden
          (Nat.iter j (fun c => c ≫= (fun m => getNodeAfter tree (AtNode m)))
             (getNodeAfter tree (navigation_start sel s))) s
        = Ok true s) →
  Nat.iter k (fun c => c ≫= (fun m => getNodeAfter tree (AtNode m)))
    (getNodeAfter tree (navigation_start sel s)) = Some n →
  isNodeHidden (Some n) s = Ok false s →
  k < fuel →
  ∃ s',
    selectNextNode fuel ev s = Ok (Some tt) s'
    ∧ activeElement s' = node_el n
    ∧ trace s' = trace s ++ [Focus (node_el n); ScrollIntoView (node_from n)]
    ∧ events s' !! ev = Some (ev_set_propagationStopped true e)
    ∧ cm_value s' = cm_value s
    ∧ dom s' = dom s.
Proof.
  intros Hast Hsel Hev Hhid Hn Hvis Hk. unfold selectNextNode.
  rewrite (bind_Ok _ _ _ _ _ Hsel).
  rewrite (bind_Ok _ _ _ _ _ (eq_refl : get _ = _)).
  rewrite (bind_Ok _ _ _ _ _ (getAst_Ok _ _ Hast)).
  unfold navigation_start in *.
  rewrite (bind_Ok _ _ _ _ _
             (skipHidden_first_visible _ _ _ _ _ _ Hhid Hn Hvis Hk)).
  rewrite (bind_Ok _ _ _ _ _
             (selectNode_run _ _ _ _ Hev (isNodeHidden_element _ _ _ Hvis))).
  eexists. split; [reflexivity|]. simpl. split_and!; try done.
  apply lookup_insert_eq.
Qed.

(** X22: Shift-Tab does the same backwards: [selectPrevNode] moves the
    focus to the first node before the starting place that is not hidden,
    skipping the hidden ones in between. *)
Theorem selectPrevNode_first_visible fuel ev e sel tree k n s :
  ast s = Some tree →
  getSelectedNode s = Ok sel s →
  events s !! ev = Some e →
  (∀ j, j < k →
        isNodeHidden
          (Nat.iter j (fun c => c ≫= (fun m => getNodeBefore tree (AtNode m)))
             (getNodeBefore tree (navigation_start sel s))) s
        = Ok true s) →
  Nat.iter k (fun c => c ≫= (fun m => getNodeBefore tree (AtNode m)))
    (getNodeBefore tree (navigation_start sel s)) = Some n →
  isNodeHidden (Some n) s = Ok false s →
  k < fuel →
  ∃ s',
    selectPrevNode fuel ev s = Ok (Some tt) s'
    ∧ activeElement s' = node_el n
    ∧ trace s' = trace s ++ [Focus (node_el n); ScrollIntoView (node_from n)]
    ∧ events s' !! ev = Some (ev_set_propagationStopped true e)
    ∧ cm_value s' = cm_value s
    ∧ dom s' = dom s.
Proof.
  intros Hast Hsel Hev Hhid Hn Hvis Hk. unfold selectPrevNode.
  rewrite (bind_Ok _ _ _ _ _ Hsel).
  rewrite (bind_Ok _ _ _ _ _ (eq_refl : get _ = _)).
  rewrite (bind_Ok _ _ _ _ _ (getAst_Ok _ _ Hast)).
  unfold navigation_start in *.
  rewrite (bind_Ok _ _ _ _ _
             (skipHidden_first_visible _ _ _ _ _ _ Hhid Hn Hvis Hk)).
  rewrite (bind_Ok _ _ _ _ _
             (selectNode_run _ _ _ _ Hev (isNodeHidden_element _ _ _ Hvis))).
  eexists. split; [reflexivity|]. simpl. split_and!; try done.
  apply lookup_insert_eq.
Qed.

Lemma findNodeFromEl_frame el r s s1 :
  dom s1 = dom s → ast s1 = ast s →
  findNodeFromEl el s = Ok r s → findNodeFromEl el s1 = Ok r s1.
Proof.
  intros Hd Ha.
  unfold findNodeFromEl, findNearestNodeEl, getEl, getAst, bind, ret.
  destruct s, s1. simpl in *. subst.
  destruct (climb _ _ _) as [?|[x|]]; [done| |by intros [= <-]].
  destruct (_ !! x); [|done].
  destruct (match_block_node _); [|by intros [= <-]].
  simpl. destruct ast0; [|done]. by intros [= <-].
Qed.

Lemma findNodeFromEl_element el n s s' :
  findNodeFromEl el s = Ok (Some n) s' → is_Some (dom s !! el).
Proof.
  unfold findNodeFromEl, findNearestNodeEl, bind.
  destruct (dom s !! el) eqn:He; [by eauto|]. simpl. rewrite He.
  by case_bool_decide.
Qed.

(** X23: selecting a node and asking for the selected node gives the node
    back, when the node's element resolves to it: after [selectNode],
    [getSelectedNode] answers with that node. *)
Theorem selectNode_then_getSelectedNode n ev e s :
  events s !! ev = Some e →
  findNodeFromEl (node_el n) s = Ok (Some n) s →
  ∃ s',
    selectNode (Some n) ev s = Ok tt s'
    ∧ getSelectedNode s' = Ok (Some n) s'.
Proof.
  intros Hev Hnode.
  eexists. split.
  { apply selectNode_run; [done|]. by eapply findNodeFromEl_element. }
  unfold getSelectedNode. rewrite (bind_Ok _ _ _ _ _ (eq_refl : get _ = _)).
  simpl. by apply (findNodeFromEl_frame _ _ s).
Qed.

End navigation_more.

Lemma checkEditableEl_verdict_witness :
  ∃ s',
    checkEditableEl Demo.env 200 (txt "(") (WhiteSpaceExamples.filling (txt "("))
    = Ok false s'.
Proof.
  destruct (checkEditableEl_verdict Demo.env 200 (txt "(")
              (WhiteSpaceExamples.gap (txt "("))
              (WhiteSpaceExamples.filling (txt "(")))
    as (s' & el' & Hrun & _).
  - vm_compute. reflexivity.
  - by exists s'.
Defined.

Lemma saveWhiteSpace_inserts_witness :
  ∃ s',
    saveWhiteSpace Demo.env 200 (WhiteSpaceExamples.filling (txt "x"))
    = Ok tt s'
    ∧ cm_value s' = txt "abc x de f".
Proof.
  destruct (saveWhiteSpace_inserts Demo.env 200
              (WhiteSpaceExamples.gap (txt "x")) 0 3
              (WhiteSpaceExamples.filling (txt "x")))
    as (s' & Hrun & Hv & _).
  - vm_compute. reflexivity.
  - reflexivity.
  - reflexivity.
  - reflexivity.
  - exists s'. split; [exact Hrun|]. rewrite Hv. vm_compute. reflexivity.
Defined.

Lemma saveWhiteSpace_refused_witness :
  ∃ s',
    saveWhiteSpace Demo.env 200 (WhiteSpaceExamples.filling (txt "("))
    = Ok tt s'
    ∧ cm_value s' = txt "abc de f"
    ∧ timers s' = [].
Proof.
  destruct (saveWhiteSpace_refused Demo.env 200
              (WhiteSpaceExamples.gap (txt "("))
              (ParserError "unbalanced parenthesis")
              (WhiteSpaceExamples.filling (txt "(")))
    as (s' & el' & Hrun & Hv & _ & Ht & _).
  - vm_compute. reflexivity.
  - reflexivity.
  - exists s'. split; [exact Hrun|]. split; [exact Hv|exact Ht].
Defined.

Lemma selectNextNode_first_visible_witness :
  ∃ s',
    selectNextNode 2 7 HiddenExamples.from_first = Ok (Some tt) s'
    ∧ activeElement s' = 102.
Proof.
  destruct (selectNextNode_first_visible 2 7 (Demo.event "keydown" 100)
              (Some DropExamples.word0) (Demo.parse (txt "abc de f")) 1
              NavigationExamples.word2 HiddenExamples.from_first)
    as (s' & Hrun & Hactive & _).
  - reflexivity.
  - vm_compute. reflexivity.
  - vm_compute. reflexivity.
  - intros j Hj. assert (j = 0) as -> by lia. vm_compute. reflexivity.
  - vm_compute. reflexivity.
  - vm_compute. reflexivity.
  - lia.
  - by exists s'.
Defined.

Lemma selectPrevNode_first_visible_witness :
  ∃ s',
    selectPrevNode 2 7 HiddenExamples.from_last = Ok (Some tt) s'
    ∧ activeElement s' = 100.
Proof.
  destruct (selectPrevNode_first_visible 2 7 (Demo.event "keydown" 102)
              (Some NavigationExamples.word2) (Demo.parse (txt "abc de f")) 1
              DropExamples.word0 HiddenExamples.from_last)
    as (s' & Hrun & Hactive & _).
  - reflexivity.
  - vm_compute. reflexivity.
  - vm_compute. reflexivity.
  - intros j Hj. assert (j = 0) as -> by lia. vm_compute. reflexivity.
  - vm_compute. reflexivity.
  - vm_compute. reflexivity.
  - lia.
  - by exists s'.
Defined.

Lemma selectNode_then_getSelectedNode_witness :
  ∃ s',
    selectNode (Some EditExamples.word1) 7 DispatcherExamples.on_literal
    = Ok tt s'
    ∧ getSelectedNode s' = Ok (Some EditExamples.word1) s'.
Proof.
  apply (selectNode_then_getSelectedNode EditExamples.word1 7
           (Demo.event "dragstart" 101) DispatcherExamples.on_literal).
  - vm_compute. reflexivity.
  - vm_compute. reflexivity.
Defined.

(** ** Switching modes, quarantine *)
Section modes.
Context (env : Env).

(** X24: whenever [setBlockMode] returns, the mode it was given is the
    recorded mode, and calling it again with the same mode changes
    nothing. *)
Theorem setBlockMode_records_mode mode s s' :
  setBlockMode env mode s = Ok tt s' →
  blockMode s' = mode ∧ setBlockMode env mode s' = Ok tt s'.
Proof.
  intros Hrun.
  assert (blockMode s' = mode) as Hmode.
  { revert Hrun. unfold setBlockMode.
    rewrite (bind_Ok _ _ _ _ _ (eq_refl : get _ = _)).
    destruct (decide (mode = blockMode s)) as [->|Hne].
    - by intros [= <-].
    - unfold bind at 1.
      match goal with |- match ?m with _ => _ end = _ → _ => destruct m end;
        [|done].
      by intros [= <-]. }
  split; [done|]. rewrite <- Hmode. apply setBlockMode_same.
Qed.

(** X25: turning block mode on from off, with a mode that is a class
    token (not empty, no white space), renders the buffer: afterwards the
    mode is recorded, the tree is the parse of the buffer's text, and the
    buffer has not been touched. *)
Theorem setBlockMode_on_renders cls s :
  blockMode s = Off →
  token_error cls = None →
  is_Some (dom s !! cm_wrapper s) →
  ∃ s',
    setBlockMode env (Blocks cls) s = Ok tt s'
    ∧ blockMode s' = Blocks cls
    ∧ ast s' = Some (parser_parse env (cm_value s'))
    ∧ cm_value s' = cm_value s
    ∧ mutations (trace s') = mutations (trace s).
Proof.
  intros Hmode Htok [el Hel]. unfold setBlockMode.
  run_with ltac:(reflexivity).
  rewrite decide_False by (rewrite Hmode; discriminate). rewrite Hmode.
  rewrite (token_error_truthy _ Htok). simpl.
  rewrite !bind_assoc.
  erewrite bind_Ok; [|by apply DOMTokenList_remove_Ok].
  rewrite ?bind_assoc.
  erewrite bind_Ok; [|apply DOMTokenList_add_Ok; [look|done]]. simpl.
  match goal with
  | |- context [bind (render env) _ ?st] =>
      destruct (render_run env st)
        as (s1 & Hrun & Hast & _ & [Hv _ (l & Ht & Hm)])
  end.
  rewrite (bind_Ok _ _ _ _ _ Hrun). simpl in *.
  eexists. split; [reflexivity|]. simpl. split; [done|].
  split; [by rewrite Hv|]. split; [done|].
  by rewrite Ht, mutations_app, Hm, app_nil_r.
Qed.

(** X26: [insertionQuarantine] keeps what was typed or pasted out of the
    buffer.  However it ends, returning or throwing, the buffer's text is
    what it was, no buffer mutation has been made, and the invalid-edit
    flag is what it was. *)
Theorem insertionQuarantine_keeps_buffer ev s :
  quiet s (final (insertionQuarantine env ev s)).
Proof.
  assert (frame quiet (insertionQuarantine env ev)) as Hframe.
  { unfold insertionQuarantine, preventDefault, cm_setBookmark, setTimeout.
    apply frame_bind; [apply _|apply updEvent_quiet|intros _].
    apply frame_bind; [apply _|apply readonly_quiet, getEvent_readonly|intros e].
    apply frame_bind; [apply _|apply frame_get; apply _|intros s0].
    destruct (head _) as [node|]; [|apply frame_throw; apply _].
    apply frame_bind; [apply _|apply safe_frame, renderNode_safe|intros _].
    apply frame_bind; [apply _|apply updEl_quiet|intros _].
    apply frame_bind; [apply _| |intros mk].
    - apply frame_bind; [apply _|apply frame_get; apply _|intros s1].
      apply frame_bind; [apply _|by apply safe_frame, modify_quiet|intros _].
      apply frame_bind; [apply _|by apply safe_frame, log_safe|intros _].
      apply frame_ret; apply _.
    - by apply safe_frame, modify_quiet. }
  specialize (Hframe s). unfold final.
  by destruct (insertionQuarantine env ev s).
Qed.

End modes.

Lemma setBlockMode_records_mode_witness :
  blockMode (final (setBlockMode Demo.env Off (Demo.editor (txt "abc")))) = Off.
Proof.
  refine (proj1 (setBlockMode_records_mode Demo.env Off
                   (Demo.editor (txt "abc")) _ _)).
  vm_compute. reflexivity.
Defined.

Lemma setBlockMode_on_renders_witness :
  ∃ s',
    setBlockMode Demo.env (Blocks "blocks")
      (set_blockMode Off (Demo.editor (txt "abc")))
    = Ok tt s'
    ∧ blockMode s' = Blocks "blocks".
Proof.
  destruct (setBlockMode_on_renders Demo.env "blocks"
              (set_blockMode Off (Demo.editor (txt "abc"))))
    as (s' & Hrun & Hmode & _).
  - reflexivity.
  - reflexivity.
  - vm_compute. eauto.
  - by exists s'.
Defined.

(** ** Starting an edit *)

Ltac run_head :=
  first [ run_updEvent | run_updEl | run_getEl | run_getEvent
        | run_with ltac:(reflexivity) ].
Ltac run := repeat (rewrite ?bind_assoc; cbv beta iota; run_head).

Section starting_an_edit.
Context (env : Env) (keys : Keys).

(** X27: Enter on a selected literal or blank starts an edit in place and
    consumes the key.  The node's element becomes editable, remembers the
    node's text in the buffer, and gets the handlers that save the edit on
    blur and watch its keys; the event ends with its default prevented and
    its propagation stopped.  The buffer is not touched. *)
Theorem handleKeyDown_enter fuel ev e n el s :
  events s !! ev = Some e →
  getSelectedNode s = Ok (Some n) s →
  keyName keys e = "Enter" →
  node_type n ∈ ["literal"; "blank"] →
  dom s !! node_el n = Some el →
  ∃ s' el',
    handleKeyDown env keys fuel ev s = Ok (Some tt) s'
    ∧ dom s' !! node_el n = Some el'
    ∧ el_contentEditable el' = true
    ∧ el_oldText el'
      = Some (Buffer.getRange (cm_value s) (node_from n) (node_to n))
    ∧ el_onblur el' = Some (CSaveEdit n (node_el n))
    ∧ el_onkeydown el' = Some (CHandleEditKeyDown (node_el n))
    ∧ events s' !! ev
      = Some (ev_set_propagationStopped true
                (ev_set_defaultPrevented true
                   (ev_set_propagationStopped true e)))
    ∧ cm_value s' = cm_value s
    ∧ mutations (trace s') = mutations (trace s).
Proof.
  intros Hev Hsel Hkey Htype Hel. unfold handleKeyDown.
  run_getEvent. rewrite (bind_Ok _ _ _ _ _ Hsel). rewrite Hkey. simpl.
  rewrite bool_decide_eq_true_2 by done.
  unfold editLiteral, stopPropagation, classList_add, preventDefault.
  run. eexists _, _. split; [reflexivity|]. simpl.
  split; [apply lookup_insert_eq|]. simpl. split_and!; try done.
  - by rewrite lookup_insert_eq.
  - by rewrite mutations_app, app_nil_r.
Qed.

(** X28: a white-space edit from start to end.  A double click on a
    white-space element inside a node makes the element editable; when the
    user has typed [text] and the focus leaves, the blur handler the
    double click installed inserts a blank and [text] at the element's
    location, provided that lexes.  This is the only buffer mutation of
    the whole session. *)
Theorem whitespace_edit_session ev e blurEv n el text l c s :
  events s !! ev = Some e →
  findNodeFromEl (ev_target e) s = Ok (Some n) s →
  dom s !! ev_target e = Some el →
  ClassList.contains "blocks-white-space" (el_classList el) = true →
  el_line el = Some l →
  el_ch el = Some c →
  parser_lex env (txt " " ++ text) = None →
  ∃ s',
    (ondblclick env ev ;;
     userInput (ev_target e) text ;;
     blur env (ev_target e) blurEv) s = Ok tt s'
    ∧ cm_value s'
      = Buffer.replaceRange (cm_value s) (txt " " ++ text)
          (mkPos l c) (Some (mkPos l c))
    ∧ mutations (trace s')
      = mutations (trace s)
        ++ [ReplaceRange (txt " " ++ text) (mkPos l c) (Some (mkPos l c))].
Proof.
  intros Hev Hnode Hel Hws Hl Hc Hlex.
  unfold ondblclick, nodeEventHandler. run.
  rewrite ?bind_assoc. rewrite (bind_Ok _ _ _ _ _ Hnode). simpl.
  rewrite ?bind_assoc.
  rewrite (bind_Ok _ _ _ _ _ (classList_contains_Ok _ _ _ _ Hel)), Hws.
  simpl. unfold editWhiteSpace, stopPropagation, classList_add. run.
  unfold userInput. run. simpl. run. unfold blur. run. simpl.
  match goal with
  | |- context [saveWhiteSpace env ?w ?st] =>
      destruct (saveWhiteSpace_commit env w
                  (el_set_innerText text
                     (el_set_onkeydown (Some (CHandleEditKeyDown w))
                        (el_set_onblur (Some (CSaveWhiteSpace w))
                           (el_set_classList
                              (ClassList.add "blocks-editing" (el_classList el))
                              (el_set_contentEditable true el)))))
                  l c st)
        as (s' & Hrun & Hv & Hm & _)
  end; try done.
  { simpl. apply lookup_insert_eq. }
  simpl in *. exists s'. split; [done|]. split; [done|].
  by rewrite Hm, mutations_app, app_nil_r.
Qed.

End starting_an_edit.

Lemma handleKeyDown_enter_witness :
  ∃ s' el',
    handleKeyDown Demo.env KeyExamples.keys 3 7 (KeyExamples.pressing "013")
    = Ok (Some tt) s'
    ∧ dom s' !! 102 = Some el'
    ∧ el_contentEditable el' = true
    ∧ el_oldText el' = Some (txt "f").
Proof.
  destruct (handleKeyDown_enter Demo.env KeyExamples.keys 3 7
              (KeyExamples.key "013" 102) NavigationExamples.word2
              (Demo.element NavigationExamples.word2)
              (KeyExamples.pressing "013"))
    as (s' & el' & Hrun & Hel & Hedit & Hold & _).
  - vm_compute. reflexivity.
  - vm_compute. reflexivity.
  - reflexivity.
  - repeat constructor.
  - vm_compute. reflexivity.
  - exists s', el'. split; [exact Hrun|]. split; [exact Hel|].
    split; [exact Hedit|]. rewrite Hold. vm_compute. reflexivity.
Defined.

Lemma whitespace_edit_session_witness :
  ∃ s',
    (ondblclick Demo.env 7 ;;
     userInput 201 (txt "x") ;;
     blur Demo.env 201 8) WhiteSpaceExamples.clicking = Ok tt s'
    ∧ cm_value s' = txt "abc d xe f".
Proof.
  destruct (whitespace_edit_session Demo.env 7 (Demo.event "dblclick" 201) 8
              EditExamples.word1 WhiteSpaceExamples.inner_gap (txt "x") 0 5
              WhiteSpaceExamples.clicking)
    as (s' & Hrun & Hv & _).
  - vm_compute. reflexivity.
  - vm_compute. reflexivity.
  - vm_compute. reflexivity.
  - reflexivity.
  - reflexivity.
  - reflexivity.
  - reflexivity.
  - exists s'. split; [exact Hrun|]. rewrite Hv. vm_compute. reflexivity.
Defined.

(** ** Dragging over a drop target and out again *)
Section drag_over.

Lemma alike_refl d : alike d d.
Proof. intros x. by destruct (d !! x). Qed.

Lemma alike_mark d x e :
  d !! x = Some e →
  alike d (<[x := el_set_classList
                    (ClassList.add "blocks-over-target" (el_classList e)) e]> d).
Proof.
  intros He y. destruct (decide (y = x)) as [->|Hne].
  - rewrite lookup_insert_eq, He. simpl. split; [done|]. split; [done|].
    intros c Hc. unfold ClassList.add, ClassList.contains.
    destruct (bool_decide ("blocks-over-target" ∈ el_classList e)); [done|].
    apply bool_decide_ext. rewrite elem_of_app, list_elem_of_singleton.
    split; [by intros [?|?]|by left].
  - rewrite lookup_insert_ne by done. by destruct (d !! y).
Qed.

Lemma climb_alike d d' el parents :
  alike d d' → climb d' el parents = climb d el parents.
Proof.
  intros Hd. revert el. induction parents as [|p ps IH]; intros el; simpl.
  - case_bool_decide; [done|]. specialize (Hd el).
    destruct (d !! el) as [e|], (d' !! el) as [e'|]; try done.
    destruct Hd as (_ & _ & Hc). by rewrite Hc.
  - case_bool_decide; [done|]. specialize (Hd el).
    destruct (d !! el) as [e|], (d' !! el) as [e'|]; try done.
    destruct Hd as (_ & _ & Hc). rewrite Hc by done.
    by rewrite IH.
Qed.

Lemma findNodeFromEl_alike el r s s1 :
  alike (dom s) (dom s1) → ast s1 = ast s →
  findNodeFromEl el s = Ok r s → findNodeFromEl el s1 = Ok r s1.
Proof.
  intros Hd Ha.
  unfold findNodeFromEl, findNearestNodeEl, getEl, getAst, bind, ret.
  assert (match dom s1 !! el with Some e => el_parents e | None => [] end
          = match dom s !! el with Some e => el_parents e | None => [] end)
    as ->.
  { pose proof (Hd el) as Hel.
    destruct (dom s !! el), (dom s1 !! el); try done. by destruct Hel as (_ & -> & _). }
  rewrite (climb_alike _ _ _ _ Hd).
  destruct (climb _ _ _) as [?|[x|]]; [done| |by intros [= <-]].
  pose proof (Hd x) as Hx.
  destruct (dom s !! x) as [ex|], (dom s1 !! x) as [ex'|]; try done.
  destruct Hx as (Hid & _). rewrite Hid.
  destruct (match_block_node _); [|by intros [= <-]].
  rewrite Ha. destruct (ast s) as [tree|]; [|done]. by intros [= <-].
Qed.

Lemma isDropTarget_unfold el s :
  isDropTarget el s
  = match dom s !! el with
    | None => Throw (TypeError "element is undefined") s
    | Some e =>
        if ClassList.contains "blocks-drop-target" (el_classList e)
        then Ok true s
        else match findNodeFromEl el s with
             | Ok (Some n) s' =>
                 Ok (bool_decide (node_type n ∈ ["literal"; "blank"])) s'
             | Ok None s' => Ok true s'
             | Throw x s' => Throw x s'
             end
    end.
Proof.
  unfold isDropTarget, classList_contains, getEl, bind, ret.
  destruct (dom s !! el); [|done].
  destruct (ClassList.contains _ _); [done|].
  destruct (findNodeFromEl el s) as [[n|]|]; try done.
  by destruct (bool_decide _).
Qed.

Lemma isDropTarget_alike el b s s1 :
  alike (dom s) (dom s1) → ast s1 = ast s →
  isDropTarget el s = Ok b s → isDropTarget el s1 = Ok b s1.
Proof.
  intros Hd Ha. rewrite !isDropTarget_unfold. pose proof (Hd el) as Hel.
  destruct (dom s !! el) as [e|], (dom s1 !! el) as [e'|]; try done.
  destruct Hel as (_ & _ & Hc). rewrite Hc by done.
  destruct (ClassList.contains _ _); [by intros [= <-]|].
  pose proof (findNodeFromEl_readonly el s) as Hro.
  destruct (findNodeFromEl el s) as [r s0|] eqn:Hf; [|done].
  simpl in Hro. subst s0.
  rewrite (findNodeFromEl_alike _ _ _ _ Hd Ha Hf).
  destruct r as [n|]; by intros [= <-].
Qed.

Lemma el_set_classList_id e : el_set_classList (el_classList e) e = e.
Proof. by destruct e. Qed.

Lemma el_set_classList_twice l l' e :
  el_set_classList l (el_set_classList l' e) = el_set_classList l e.
Proof. done. Qed.

Ltac unmark :=
  simpl;
  rewrite ?insert_insert_eq;
  rewrite ?el_set_classList_twice;
  rewrite ?ClassList_remove_add by done;
  rewrite ?ClassList_remove_absent by done;
  rewrite ?el_set_classList_id.

(** X29: dragging over a drop target and out again leaves the document
    as it was.  [handleDragEnter] marks one element with
    'blocks-over-target', the node's element when that is itself a drop
    target and the event's target otherwise; [handleDragLeave] takes the
    class off both, so that, when neither carried it before, every
    element is what it was.  The buffer is not touched. *)
Theorem drag_enter_leave_restores_dom node ev e s :
  events s !! ev = Some e →
  isDropTarget (ev_target e) s = Ok true s →
  (∀ n, node = Some n → ∃ b, isDropTarget (node_el n) s = Ok b s) →
  (∀ x el, x = ev_target e ∨ (∃ n, node = Some n ∧ x = node_el n) →
           dom s !! x = Some el →
           "blocks-over-target" ∉ el_classList el) →
  ∃ s',
    (handleDragEnter node ev ;; handleDragLeave node ev) s = Ok tt s'
    ∧ dom s' = dom s
    ∧ cm_value s' = cm_value s
    ∧ trace s' = trace s.
Proof.
  intros Hev Ht Hnode Hclean.
  destruct (isDropTarget_element _ _ _ _ Ht) as [eT HT].
  pose proof (Hclean _ _ (or_introl eq_refl) HT) as HcT.
  assert (∀ s1 : State, alike (dom s) (dom s1) → ast s1 = ast s →
            isDropTarget (ev_target e) s1 = Ok true s1) as Hstill.
  { intros s1 Hd Ha. by apply (isDropTarget_alike _ _ s). }
  unfold handleDragEnter, handleDragLeave, stopPropagation, classList_add,
    classList_remove.
  run. rewrite ?bind_assoc. rewrite (bind_Ok _ _ _ _ _ Ht). run.
  destruct node as [n|].
  - destruct (Hnode n eq_refl) as [b Hb].
    destruct (isDropTarget_element _ _ _ _ Hb) as [eN HN].
    pose proof (Hclean (node_el n) eN
                  (or_intror (ex_intro _ n (conj eq_refl eq_refl))) HN) as HcN.
    rewrite ?bind_assoc.
    erewrite bind_Ok;
      [|apply (isDropTarget_alike _ _ s); [apply alike_refl|done|exact Hb]].
    run. destruct (decide (node_el n = ev_target e)) as [Heq|Hne].
    + assert ((if b then node_el n else ev_target e) = ev_target e) as ->
        by (by destruct b).
      rewrite Heq in *. assert (eN = eT) as -> by congruence.
      run. rewrite ?bind_assoc.
      erewrite bind_Ok; [|apply Hstill; [by apply alike_mark|done]].
      run. erewrite updEl_Ok; [|look].
      eexists. split; [reflexivity|]. simpl.
      split; [|done]. unmark. by apply insert_id.
    + destruct b.
      * run. rewrite ?bind_assoc.
        erewrite bind_Ok; [|apply Hstill; [by apply alike_mark|done]].
        run.
        erewrite bind_Ok;
          [|apply updEl_Ok; simpl; rewrite lookup_insert_ne by done; exact HT].
        erewrite updEl_Ok;
          [|simpl; rewrite lookup_insert_ne by done; apply lookup_insert_eq].
        eexists. split; [reflexivity|]. simpl. split; [|done]. unmark.
        rewrite (insert_id (<[node_el n:=_]> _) (ev_target e) eT)
          by (by rewrite lookup_insert_ne).
        unmark. by apply insert_id.
      * run. rewrite ?bind_assoc.
        erewrite bind_Ok; [|apply Hstill; [by apply alike_mark|done]].
        run.
        erewrite updEl_Ok;
          [|simpl; rewrite !lookup_insert_ne by done; exact HN].
        eexists. split; [reflexivity|]. simpl. split; [|done]. unmark.
        rewrite (insert_id (dom s) (ev_target e) eT) by done.
        by apply insert_id.
  - run. rewrite ?bind_assoc.
    erewrite bind_Ok; [|apply Hstill; [by apply alike_mark|done]].
    run. eexists. split; [reflexivity|]. simpl. split; [|done].
    unmark. by apply insert_id.
Qed.

End drag_over.

Lemma drag_enter_leave_restores_dom_witness :
  ∃ s',
    (handleDragEnter (Some EditExamples.word1) 7 ;;
     handleDragLeave (Some EditExamples.word1) 7) DispatcherExamples.on_literal
    = Ok tt s'
    ∧ dom s' = dom DispatcherExamples.on_literal.
Proof.
  destruct (drag_enter_leave_restores_dom (Some EditExamples.word1) 7
              (Demo.event "dragstart" 101) DispatcherExamples.on_literal)
    as (s' & Hrun & Hdom & _).
  - vm_compute. reflexivity.
  - vm_compute. reflexivity.
  - intros n [= <-]. exists true. vm_compute. reflexivity.
  - intros x el [->|(n & [= <-] & ->)] Hel;
      vm_compute in Hel; injection Hel as <-;
      apply (bool_decide_unpack _); vm_compute; exact I.
  - by exists s'.
Defined.

Lemma BlockMarker_clear_invalid_className_witness :
  ∃ s',
    BlockMarker_clear (mkBlockMarker 101 (Some 101) [("className", "a b")])
      (Demo.editor (txt "abc de f"))
    = Throw (DOMException "InvalidCharacterError") s'
    ∧ cm_marks s' = cm_marks (Demo.editor (txt "abc de f")).
Proof.
  destruct (BlockMarker_clear_invalid_className
              (mkBlockMarker 101 (Some 101) [("className", "a b")]) 101
              (Demo.element EditExamples.word1) "a b"
              (DOMException "InvalidCharacterError")
              (Demo.editor (txt "abc de f")))
    as (s' & el' & Hrun & Hmarks & _).
  - reflexivity.
  - vm_compute. reflexivity.
  - reflexivity.
  - reflexivity.
  - by exists s'.
Defined.
